(** * flang: typed AST layer and semantic analyzer

    A shallow embedding of the parts of the front-end whose specified
    behaviour is verified here:

    - [ASTContext]: the uniquing of character, pointer and array types
      (lib/AST/ASTContext.cpp);
    - [Expr]: the inline-or-out-of-line argument storage of multi-argument
      expressions (include/flang/AST/Expr.h);
    - [Diag]: the scanner of diagnostic format strings and the [%select]
      modifier (Diagnostic.cpp);
    - [Sema]: declaration contexts, entity declarations, implicit typing,
      PARAMETER pairs and END PROGRAM (Sema.cpp);
    - [Steps]: the effect of each semantic action on the analyzer, as a
      relation between states;
    - [Uniquing]: the profiles of type requests as a set, and the table of
      variable declarations by identifier (lib/AST/ASTContext.cpp);
    - [Stmt]: the list storage of list statements (include/flang/AST/Stmt.h);
    - [Plural]: the [%plural] modifier with its number, range and expression
      parsers (Diagnostic.cpp).

    Pointers into the arena are modelled by the position of the node in its
    allocation sequence; nullable pointers are [option]s or carry 0 for null.
    An assertion that fails aborts the action: actions live in a state monad
    with failure. *)

From Stdlib Require Import Ascii.
From stdpp Require Import gmap strings list fin_maps.

Local Open Scope N_scope.

(** ** Type uniquing *)

Module ASTContext.

(** An [Expr*]; 0 is the null pointer. *)
Definition ExprPtr := N.

(** A [Type*]: the position of the node in the [Types] vector of the
    context.  Every type node is pushed on [Types] exactly once, when it is
    allocated, and nothing is ever removed, so two type pointers are equal
    exactly when the positions are. *)
Definition TypePtr := nat.

(** [BuiltinType::TypeSpec]. *)
Inductive TypeSpec :=
  Integer | Real | DoublePrecision | Complex | Character | Logical.

(** [Selector]: wraps the (possibly null) selector expression. *)
Record Selector := mkSelector { getKindExpr : ExprPtr }.

(** The type nodes the context allocates. *)
Inductive TypeNode :=
| BuiltinType (TS : TypeSpec)
| CharacterBuiltinType (Len Kind : Selector)
| PointerType (Ty : TypePtr) (NumDims : N)
| ArrayType (Ty : TypePtr) (Dims : list ExprPtr).

(** [llvm::FoldingSetNodeID]: the words added so far, in order. *)
Definition FoldingSetNodeID := list N.

Definition AddPointerE (p : ExprPtr) (ID : FoldingSetNodeID) : FoldingSetNodeID :=
  ID ++ [p].
Definition AddPointerT (p : TypePtr) (ID : FoldingSetNodeID) : FoldingSetNodeID :=
  ID ++ [N.of_nat p].
Definition AddInteger (n : N) (ID : FoldingSetNodeID) : FoldingSetNodeID :=
  ID ++ [n].

(** Modelled from the spec: the [Profile] functions of the three type classes
    are declared in Type.h, which is missing.  "Array profile = (element type
    handle, sequence of dimension-spec handles).  Pointer profile = (pointee
    type handle, dimension count).  Character type with a length selector is
    profiled separately (length selector participates in identity)." *)
Definition CharacterBuiltinType_Profile (Len Kind : Selector) : FoldingSetNodeID :=
  AddPointerE (getKindExpr Kind) (AddPointerE (getKindExpr Len) []).

Definition PointerType_Profile (Ty : TypePtr) (NumDims : N) : FoldingSetNodeID :=
  AddInteger NumDims (AddPointerT Ty []).

Definition ArrayType_Profile (Ty : TypePtr) (Dims : list ExprPtr) : FoldingSetNodeID :=
  foldl (fun ID d => AddPointerE d ID) (AddPointerT Ty []) Dims.

(** [llvm::FoldingSet<T>]: the registered nodes, found by their profile.
    [FindNodeOrInsertPos] is the lookup and [InsertNode] the insertion. *)
Record ASTContext := mkASTContext {
  Types : list TypeNode;
  BuiltinTypes : gmap FoldingSetNodeID TypePtr;
  PointerTypes : gmap FoldingSetNodeID TypePtr;
  ArrayTypes : gmap FoldingSetNodeID TypePtr;
  IntegerTy : TypePtr;
  RealTy : TypePtr;
  DoublePrecisionTy : TypePtr;
  ComplexTy : TypePtr;
  CharacterTy : TypePtr;
  LogicalTy : TypePtr
}.

(** Placement [new] in the context, followed by [Types.push_back(New)]. *)
Definition allocate (node : TypeNode) (C : ASTContext) : TypePtr * ASTContext :=
  (length (Types C),
   mkASTContext (Types C ++ [node]) (BuiltinTypes C) (PointerTypes C)
     (ArrayTypes C) (IntegerTy C) (RealTy C) (DoublePrecisionTy C)
     (ComplexTy C) (CharacterTy C) (LogicalTy C)).

(** [InitBuiltinTypes]: the six base types are allocated once, in this order,
    and are not registered in any folding set. *)
Definition InitBuiltinTypes : ASTContext :=
  mkASTContext
    [BuiltinType Integer; BuiltinType Real; BuiltinType DoublePrecision;
     BuiltinType Complex; BuiltinType Character; BuiltinType Logical]
    ∅ ∅ ∅ 0%nat 1%nat 2%nat 3%nat 4%nat 5%nat.

Definition getBuiltinQualType (TS : TypeSpec) (C : ASTContext) : TypePtr :=
  match TS with
  | Integer => IntegerTy C
  | Real => RealTy C
  | DoublePrecision => DoublePrecisionTy C
  | Character => CharacterTy C
  | Logical => LogicalTy C
  | Complex => ComplexTy C
  end.

Definition getCharacterBuiltinType (Len Kind : Selector) (C : ASTContext)
  : TypePtr * ASTContext :=
  let ID := CharacterBuiltinType_Profile Len Kind in
  match BuiltinTypes C !! ID with
  | Some BT => (BT, C)
  | None =>
      let '(New, C1) := allocate (CharacterBuiltinType Len Kind) C in
      (New,
       mkASTContext (Types C1) (<[ID := New]> (BuiltinTypes C1)) (PointerTypes C1)
         (ArrayTypes C1) (IntegerTy C1) (RealTy C1) (DoublePrecisionTy C1)
         (ComplexTy C1) (CharacterTy C1) (LogicalTy C1))
  end.

Definition getPointerType (Ty : TypePtr) (NumDims : N) (C : ASTContext)
  : TypePtr * ASTContext :=
  let ID := PointerType_Profile Ty NumDims in
  match PointerTypes C !! ID with
  | Some PT => (PT, C)
  | None =>
      let '(New, C1) := allocate (PointerType Ty NumDims) C in
      (New,
       mkASTContext (Types C1) (BuiltinTypes C1) (<[ID := New]> (PointerTypes C1))
         (ArrayTypes C1) (IntegerTy C1) (RealTy C1) (DoublePrecisionTy C1)
         (ComplexTy C1) (CharacterTy C1) (LogicalTy C1))
  end.

Definition getArrayType (Ty : TypePtr) (Dims : list ExprPtr) (C : ASTContext)
  : TypePtr * ASTContext :=
  let ID := ArrayType_Profile Ty Dims in
  match ArrayTypes C !! ID with
  | Some AT => (AT, C)
  | None =>
      let '(New, C1) := allocate (ArrayType Ty Dims) C in
      (New,
       mkASTContext (Types C1) (BuiltinTypes C1) (PointerTypes C1)
         (<[ID := New]> (ArrayTypes C1)) (IntegerTy C1) (RealTy C1)
         (DoublePrecisionTy C1) (ComplexTy C1) (CharacterTy C1) (LogicalTy C1))
  end.

(** A type-construction request: which entry point is called, and with what. *)
Inductive TypeRequest :=
| CharacterRequest (Len Kind : Selector)
| PointerRequest (Ty : TypePtr) (NumDims : N)
| ArrayRequest (Ty : TypePtr) (Dims : list ExprPtr).

Inductive TypeClass := TC_Character | TC_Pointer | TC_Array.

#[global] Instance TypeClass_eq_dec : EqDecision TypeClass.
Proof. solve_decision. Defined.

(** The structural profile of a request: the class of type asked for and the
    ID its [Profile] function computes. *)
Definition request_class (r : TypeRequest) : TypeClass :=
  match r with
  | CharacterRequest _ _ => TC_Character
  | PointerRequest _ _ => TC_Pointer
  | ArrayRequest _ _ => TC_Array
  end.

Definition request_ID (r : TypeRequest) : FoldingSetNodeID :=
  match r with
  | CharacterRequest Len Kind => CharacterBuiltinType_Profile Len Kind
  | PointerRequest Ty NumDims => PointerType_Profile Ty NumDims
  | ArrayRequest Ty Dims => ArrayType_Profile Ty Dims
  end.

Definition profile (r : TypeRequest) : TypeClass * FoldingSetNodeID :=
  (request_class r, request_ID r).

Definition request (r : TypeRequest) (C : ASTContext) : TypePtr * ASTContext :=
  match r with
  | CharacterRequest Len Kind => getCharacterBuiltinType Len Kind C
  | PointerRequest Ty NumDims => getPointerType Ty NumDims C
  | ArrayRequest Ty Dims => getArrayType Ty Dims C
  end.

(** The context after a sequence of requests. *)
Definition requests (rs : list TypeRequest) (C : ASTContext) : ASTContext :=
  foldl (fun C r => (request r C).2) C rs.

(** The folding set a class of types is registered in. *)
Definition table (k : TypeClass) (C : ASTContext) : gmap FoldingSetNodeID TypePtr :=
  match k with
  | TC_Character => BuiltinTypes C
  | TC_Pointer => PointerTypes C
  | TC_Array => ArrayTypes C
  end.

(** The node a request allocates when its profile is not registered yet. *)
Definition request_node (r : TypeRequest) : TypeNode :=
  match r with
  | CharacterRequest Len Kind => CharacterBuiltinType Len Kind
  | PointerRequest Ty NumDims => PointerType Ty NumDims
  | ArrayRequest Ty Dims => ArrayType Ty Dims
  end.

(** The profile of a node, as the folding set recomputes it from the node. *)
Definition node_profile (n : TypeNode) : option (TypeClass * FoldingSetNodeID) :=
  match n with
  | BuiltinType _ => None
  | CharacterBuiltinType Len Kind =>
      Some (TC_Character, CharacterBuiltinType_Profile Len Kind)
  | PointerType Ty NumDims => Some (TC_Pointer, PointerType_Profile Ty NumDims)
  | ArrayType Ty Dims => Some (TC_Array, ArrayType_Profile Ty Dims)
  end.

(** Invariant of the folding sets: a node registered under an ID in the set of
    its class is an allocated node of that class with that profile. *)
Definition registered_ok (C : ASTContext) : Prop :=
  ∀ k ID p, table k C !! ID = Some p →
    ∃ n, Types C !! p = Some n ∧ node_profile n = Some (k, ID).

(** A later context keeps every node and every registration of an earlier
    one. *)
Definition extends (C C' : ASTContext) : Prop :=
  (∀ p n, Types C !! p = Some n → Types C' !! p = Some n) ∧
  (∀ k ID p, table k C !! ID = Some p → table k C' !! ID = Some p).

End ASTContext.

(** ** Argument storage of multi-argument expressions *)

Module Expr.

(** An [Expr*]; 0 is the null pointer. *)
Definition ExprPtr := N.

(** The part of the arena that holds argument vectors: pointer-sized cells,
    addressed in units of one cell, and the next free cell. *)
Record Arena := mkArena {
  Cells : gmap N ExprPtr;
  Next : N
}.

(** [MultiArgumentExpr]: the count and the union of [Expr **Arguments] and
    [Expr *Argument].  Both members of the union are one pointer wide and
    share the word [Storage]. *)
Record MultiArgumentExpr := mkMultiArgumentExpr {
  NumArguments : N;
  Storage : N
}.

(** The range of [unsigned]. *)
Definition UINT_RANGE : N := 2 ^ 32.

(** [Arguments[I] = Args[I]] for [I] from [0]. *)
Fixpoint store (base : N) (Args : list ExprPtr) (cells : gmap N ExprPtr)
  : gmap N ExprPtr :=
  match Args with
  | [] => cells
  | a :: Args' => store (base + 1) Args' (<[base := a]> cells)
  end.

(** Modelled from the spec: the constructor of [MultiArgumentExpr] is defined
    in Expr.cpp, which is missing.  "Multi-argument expressions (calls, array
    constructors, implied-do bodies, array-element subscripts) inline a single
    argument or point to an arena-allocated argument vector."  The count goes
    into the [unsigned] field; no argument leaves the pointer null, one
    argument is stored in the union itself, more are copied to a new vector. *)
Definition MultiArgumentExpr_new (Args : list ExprPtr) (A : Arena)
  : MultiArgumentExpr * Arena :=
  let Num := N.of_nat (length Args) mod UINT_RANGE in
  if Num =? 0 then (mkMultiArgumentExpr Num 0, A)
  else if Num =? 1 then (mkMultiArgumentExpr Num (nth 0 Args 0), A)
  else
    (mkMultiArgumentExpr Num (Next A),
     mkArena (store (Next A) (take (N.to_nat Num) Args) (Cells A))
             (Next A + Num)).

(** Reading the [n] cells of an array view [ArrayRef<Expr*>(p, n)]; reading a
    cell that was never written has no defined result. *)
Fixpoint load (base : N) (n : nat) (cells : gmap N ExprPtr)
  : option (list ExprPtr) :=
  match n with
  | O => Some []
  | S n' =>
      match cells !! base, load (base + 1) n' cells with
      | Some a, Some l => Some (a :: l)
      | _, _ => None
      end
  end.

(** [getArguments]: one argument is read from the union itself, any other
    count through the vector pointer. *)
Definition getArguments (M : MultiArgumentExpr) (A : Arena)
  : option (list ExprPtr) :=
  if NumArguments M =? 1 then Some [Storage M]
  else load (Storage M) (N.to_nat (NumArguments M)) (Cells A).

(** The expression classes built on [MultiArgumentExpr], with the payload that
    is theirs. *)
Record ArrayElementExpr := mkArrayElementExpr {
  AE_Target : ExprPtr;
  AE_Args : MultiArgumentExpr
}.

Record CallExpr := mkCallExpr {
  CE_Function : N;
  CE_Args : MultiArgumentExpr
}.

Record IntrinsicCallExpr := mkIntrinsicCallExpr {
  IC_Function : N;
  IC_Args : MultiArgumentExpr
}.

Record ImpliedDoExpr := mkImpliedDoExpr {
  DoVar : N;
  DoList : MultiArgumentExpr;
  Init : ExprPtr;
  Terminate : ExprPtr;
  Increment : ExprPtr
}.

Record ArrayConstructorExpr := mkArrayConstructorExpr {
  AC_Args : MultiArgumentExpr
}.

Definition getSubscriptList (E : ArrayElementExpr) := getArguments (AE_Args E).
Definition getCallArguments (E : CallExpr) := getArguments (CE_Args E).
Definition getIntrinsicCallArguments (E : IntrinsicCallExpr) :=
  getArguments (IC_Args E).
Definition getBody (E : ImpliedDoExpr) := getArguments (DoList E).
Definition getItems (E : ArrayConstructorExpr) := getArguments (AC_Args E).

(** Modelled from the spec: the [Create] functions of the five classes are
    defined in Expr.cpp, which is missing; each hands its argument list to
    the [MultiArgumentExpr] it is built on. *)
Definition ArrayElementExpr_Create (Target : ExprPtr) (Subscripts : list ExprPtr)
  (A : Arena) : ArrayElementExpr * Arena :=
  let '(M, A') := MultiArgumentExpr_new Subscripts A in
  (mkArrayElementExpr Target M, A').

Definition CallExpr_Create (Func : N) (Args : list ExprPtr) (A : Arena)
  : CallExpr * Arena :=
  let '(M, A') := MultiArgumentExpr_new Args A in (mkCallExpr Func M, A').

Definition IntrinsicCallExpr_Create (Func : N) (Args : list ExprPtr) (A : Arena)
  : IntrinsicCallExpr * Arena :=
  let '(M, A') := MultiArgumentExpr_new Args A in (mkIntrinsicCallExpr Func M, A').

Definition ImpliedDoExpr_Create (Var : N) (Body : list ExprPtr)
  (InitialParam TerminalParam IncrementationParam : ExprPtr) (A : Arena)
  : ImpliedDoExpr * Arena :=
  let '(M, A') := MultiArgumentExpr_new Body A in
  (mkImpliedDoExpr Var M InitialParam TerminalParam IncrementationParam, A').

Definition ArrayConstructorExpr_Create (Items : list ExprPtr) (A : Arena)
  : ArrayConstructorExpr * Arena :=
  let '(M, A') := MultiArgumentExpr_new Items A in (mkArrayConstructorExpr M, A').

End Expr.

(** ** Diagnostic format strings *)

Module Diag.

Local Open Scope char_scope.

(** A range [[I, E)] of a format string is the list of its characters; a
    pointer into the range is its distance from [I], so that [E] is the
    length of the list. *)
Definition chars := list ascii.

Definition isDigit (c : ascii) : bool :=
  (N_of_ascii "0" <=? N_of_ascii c)%N && (N_of_ascii c <=? N_of_ascii "9")%N.

Definition isPunctuation (c : ascii) : bool :=
  Ascii.eqb c "." || Ascii.eqb c "," || Ascii.eqb c ";" || Ascii.eqb c ":"
  || Ascii.eqb c "-" || Ascii.eqb c "!" || Ascii.eqb c "?".

(** The range of [unsigned]. *)
Definition UINT_RANGE : N := 2 ^ 32.

(** The three places of [ScanFormat] at which [I] is compared with [E]: the
    head of the outer loop, the test after the [I++] that follows a percent
    sign, and the condition of the inner loop that runs over a format
    specifier. *)
Inductive ScanPoint := LoopHead | AfterPercent | InSpecifier.

(** [ScanFormat], from one of its three places, with the current [Depth] and
    the characters from [I] to [E].  The result is the distance of the
    returned pointer from [I]; running out of characters returns [E]. *)
Fixpoint ScanFormat_from (pt : ScanPoint) (Depth : N) (l : chars)
  (Target : ascii) : nat :=
  match l with
  | [] => 0 (* I == E: the loop ends, or breaks, and E is returned *)
  | c :: l' =>
      match pt with
      | LoopHead =>
          (* if (Depth == 0 && I[0] == Target) return I; *)
          if (Depth =? 0)%N && Ascii.eqb c Target then 0%nat
          else
            (* if (Depth != 0 && I[0] == '}') Depth--; *)
            let Depth :=
              if negb (Depth =? 0)%N && Ascii.eqb c "}" then (Depth - 1)%N
              else Depth in
            (* if (I[0] == '%') { I++; ... } and then ++I *)
            if Ascii.eqb c "%" then S (ScanFormat_from AfterPercent Depth l' Target)
            else S (ScanFormat_from LoopHead Depth l' Target)
      | AfterPercent =>
          (* if (!isDigit(I[0]) && !isPunctuation(I[0])) { for (I++; ...) ... };
             an escaped character or an argument digit is stepped over by the
             ++I of the outer loop *)
          if negb (isDigit c) && negb (isPunctuation c)
          then S (ScanFormat_from InSpecifier Depth l' Target)
          else S (ScanFormat_from LoopHead Depth l' Target)
      | InSpecifier =>
          (* for (...; I != E && !isDigit(I[0]) && I[0] != '{'; I++) ; *)
          if negb (isDigit c) && negb (Ascii.eqb c "{")
          then S (ScanFormat_from InSpecifier Depth l' Target)
          else
            (* if (I[0] == '{') Depth++; and then the ++I of the outer loop *)
            let Depth :=
              if Ascii.eqb c "{" then ((Depth + 1) mod UINT_RANGE)%N
              else Depth in
            S (ScanFormat_from LoopHead Depth l' Target)
      end
  end.

Definition ScanFormat (l : chars) (Target : ascii) : nat :=
  ScanFormat_from LoopHead 0 l Target.

(** The first loop of [HandleSelectModifier]: skip over [ValNo] separators.
    The assertion fails when a scan reaches the end of the argument. *)
Fixpoint skip_alternatives (ValNo : nat) (Argument : chars) : option chars :=
  match ValNo with
  | O => Some Argument
  | S ValNo' =>
      let NextVal := ScanFormat Argument "|" in
      (* assert(NextVal != ArgumentEnd) *)
      if (NextVal =? length Argument)%nat then None
      else (* Argument = NextVal+1; --ValNo; *)
        skip_alternatives ValNo' (drop (S NextVal) Argument)
  end.

(** [HandleSelectModifier].  [FormatDiagnostic] is the method of the
    diagnostic [DInfo] that formats the range from [Argument] to [EndPtr]
    onto the output string. *)
Definition HandleSelectModifier
  (FormatDiagnostic : chars → chars → option chars)
  (ValNo : N) (Argument : chars) (OutStr : chars) : option chars :=
  match skip_alternatives (N.to_nat ValNo) Argument with
  | None => None
  | Some Argument' =>
      let EndPtr := ScanFormat Argument' "|" in
      FormatDiagnostic (take EndPtr Argument') OutStr
  end.

(** *** The shape of a format string

    What the documentation of the format language calls a placeholder:
    a percent sign, an optional modifier from [[-a-z]+], an optional argument
    in braces, and a digit. *)

Definition isLower (c : ascii) : bool :=
  (N_of_ascii "a" <=? N_of_ascii c)%N && (N_of_ascii c <=? N_of_ascii "z")%N.

(** A modifier: a lower-case letter followed by lower-case letters and
    hyphens. *)
Definition modifier (m : chars) : Prop :=
  match m with
  | [] => False
  | c :: m' =>
      isLower c = true ∧ Forall (fun c => isLower c = true ∨ c = "-") m'
  end.

(** The text of an argument in braces, at any depth below the top: no
    unescaped closing brace, braces of inner placeholders matched. *)
Inductive nested : chars → Prop :=
| nested_nil : nested []
| nested_char c l : c ≠ "%" → c ≠ "}" → nested l → nested (c :: l)
| nested_escape c l :
    isDigit c = true ∨ isPunctuation c = true → nested l →
    nested ("%" :: c :: l)
| nested_plain m d l :
    modifier m → isDigit d = true → nested l → nested ("%" :: m ++ d :: l)
| nested_braces m body l :
    modifier m → nested body → nested l →
    nested ("%" :: m ++ "{" :: body ++ "}" :: l).

(** One alternative of a clause separated by [Target]: the separator occurs
    only escaped or inside the braces of an inner placeholder. *)
Inductive clause (Target : ascii) : chars → Prop :=
| clause_nil : clause Target []
| clause_char c l :
    c ≠ "%" → c ≠ Target → clause Target l → clause Target (c :: l)
| clause_escape c l :
    isDigit c = true ∨ isPunctuation c = true → clause Target l →
    clause Target ("%" :: c :: l)
| clause_plain m d l :
    modifier m → isDigit d = true → clause Target l →
    clause Target ("%" :: m ++ d :: l)
| clause_braces m body l :
    modifier m → nested body → clause Target l →
    clause Target ("%" :: m ++ "{" :: body ++ "}" :: l).

(** The argument of a [select]: the alternatives joined by bars. *)
Fixpoint join (alts : list chars) : chars :=
  match alts with
  | [] => []
  | [a] => a
  | a :: alts' => a ++ "|" :: join alts'
  end.

(** [ScanFormat_from] with a depth that cannot wrap around. *)
Fixpoint scan (pt : ScanPoint) (Depth : N) (l : chars) (Target : ascii) : nat :=
  match l with
  | [] => 0
  | c :: l' =>
      match pt with
      | LoopHead =>
          if (Depth =? 0)%N && Ascii.eqb c Target then 0%nat
          else
            let Depth :=
              if negb (Depth =? 0)%N && Ascii.eqb c "}" then (Depth - 1)%N
              else Depth in
            if Ascii.eqb c "%" then S (scan AfterPercent Depth l' Target)
            else S (scan LoopHead Depth l' Target)
      | AfterPercent =>
          if negb (isDigit c) && negb (isPunctuation c)
          then S (scan InSpecifier Depth l' Target)
          else S (scan LoopHead Depth l' Target)
      | InSpecifier =>
          if negb (isDigit c) && negb (Ascii.eqb c "{")
          then S (scan InSpecifier Depth l' Target)
          else
            let Depth := if Ascii.eqb c "{" then (Depth + 1)%N else Depth in
            S (scan LoopHead Depth l' Target)
      end
  end.

End Diag.

(** ** The semantic analyzer *)

Module Sema.

Local Open Scope string_scope.
Local Open Scope list_scope.
Local Open Scope stdpp_scope.

(** A source location. *)
Definition SMLoc := N.

(** An [IdentifierInfo].  The identifier table hands out one object per
    spelling, so an identifier is its name; a nullable
    [const IdentifierInfo *] is an [option]. *)
Definition IdentifierInfo := string.

(** An [Expr*] kept in a type or a statement; 0 is the null pointer. *)
Definition ExprPtr := N.

(** A [Decl*] or [DeclContext*]: the position of the declaration in the
    allocation sequence of the context.  Null is [None]. *)
Definition DeclPtr := nat.

(** [DeclSpec::TST]. *)
Inductive TST :=
| TST_unspecified | TST_integer | TST_real | TST_doubleprecision
| TST_character | TST_logical | TST_complex | TST_struct.

(** [Qualifiers]: the attribute bits with the intent and access attributes. *)
Record Qualifiers := mkQualifiers {
  AttrSpecs : N;
  IntentAttr : N;
  AccessAttr : N
}.

(** Modelled from the spec: the classes of Type.h and the type constructors
    the analyzer calls ([getExtQualType] with a length selector and
    [ArrayType::Create]) are missing.  "Types are immutable, interned, and
    compared by identity", identity being the structural profile, so a type
    handle is the structure it was built from: a base type, a "qualifier
    bundle wrapping a base type" with its kind and length selectors, or an
    "array wrapper over an element type" with its dimensions. *)
Inductive QualType :=
| NullTy
| BuiltinTy (TS : ASTContext.TypeSpec)
| ExtQualTy (Base : QualType) (Quals : Qualifiers) (KindSel LenSel : ExprPtr)
| ArrayTy (ElemTy : QualType) (Dims : list (ExprPtr * ExprPtr)).

Definition IntegerTy := BuiltinTy ASTContext.Integer.
Definition RealTy := BuiltinTy ASTContext.Real.
Definition DoublePrecisionTy := BuiltinTy ASTContext.DoublePrecision.
Definition ComplexTy := BuiltinTy ASTContext.Complex.
Definition CharacterTy := BuiltinTy ASTContext.Character.
Definition LogicalTy := BuiltinTy ASTContext.Logical.

(** Modelled from the spec: DeclSpec.h is missing.  A declaration specifier
    carries the type specifier, the attribute bits, intent and access, the
    kind and length selectors and the dimensions; 0 is "unspecified". *)
Record DeclSpec := mkDeclSpec {
  getTypeSpecType : TST;
  getAttributeSpecs : N;
  getIntentSpec : N;
  getAccessSpec : N;
  getKindSelector : ExprPtr;
  getLengthSelector : ExprPtr;
  getDimensions : list (ExprPtr * ExprPtr)
}.

(** A default-constructed [DeclSpec]. *)
Definition DeclSpec_default : DeclSpec :=
  mkDeclSpec TST_unspecified 0 0 0 0 0 [].

Definition SetTypeSpecType (DS : DeclSpec) (T : TST) : DeclSpec :=
  mkDeclSpec T (getAttributeSpecs DS) (getIntentSpec DS) (getAccessSpec DS)
    (getKindSelector DS) (getLengthSelector DS) (getDimensions DS).

Definition hasAttributes (DS : DeclSpec) : bool :=
  negb (getAttributeSpecs DS =? 0)%N || negb (getIntentSpec DS =? 0)%N
  || negb (getAccessSpec DS =? 0)%N.

(** Modelled from the spec: the bit of the dimension attribute in the
    attribute set, an enumerator of the missing DeclSpec.h. *)
Definition AS_dimension : N := 16.

Definition hasAttributeSpec (Q : Qualifiers) (A : N) : bool :=
  negb (N.land (AttrSpecs Q) A =? 0)%N.

(** [Sema::ActOnArraySpec]. *)
Definition ActOnArraySpec (ElemTy : QualType) (Dims : list (ExprPtr * ExprPtr))
  : QualType :=
  ArrayTy ElemTy Dims.

(** [Sema::ActOnTypeName]: convert the specifier to the type object. *)
Definition ActOnTypeName (DS : DeclSpec) : QualType :=
  let Result :=
    match getTypeSpecType DS with
    | TST_integer => IntegerTy
    | TST_unspecified | TST_real => RealTy
    | TST_doubleprecision => DoublePrecisionTy
    | TST_character => CharacterTy
    | TST_logical => LogicalTy
    | TST_complex => ComplexTy
    | TST_struct => NullTy
    end in
  if negb (hasAttributes DS) then Result
  else
    let Quals :=
      mkQualifiers (getAttributeSpecs DS) (getIntentSpec DS) (getAccessSpec DS) in
    let EQs := ExtQualTy Result Quals (getKindSelector DS) (getLengthSelector DS) in
    if negb (hasAttributeSpec Quals AS_dimension) then EQs
    else ActOnArraySpec EQs (getDimensions DS).

(** The declarations the analyzer creates, with what their [Create] functions
    receive. *)
Inductive Decl :=
| TranslationUnitDecl
| MainProgramDecl (DC : option DeclPtr) (Name : option IdentifierInfo)
    (NameLoc : SMLoc)
| VarDecl (DC : option DeclPtr) (Loc : SMLoc) (ID : IdentifierInfo)
    (T : QualType)
| RecordDecl (DC : option DeclPtr) (Loc NameLoc : SMLoc) (ID : IdentifierInfo)
| FieldDecl (DC : option DeclPtr) (Loc : SMLoc) (ID : IdentifierInfo)
    (T : QualType).

(** [Decl::getDeclContext]; for a declaration that is a context this is also
    [DeclContext::getParent]. *)
Definition getDeclContext (D : Decl) : option DeclPtr :=
  match D with
  | TranslationUnitDecl => None
  | MainProgramDecl DC _ _ => DC
  | VarDecl DC _ _ _ => DC
  | RecordDecl DC _ _ _ => DC
  | FieldDecl DC _ _ _ => DC
  end.

Definition isDeclContext (D : Decl) : bool :=
  match D with
  | TranslationUnitDecl | MainProgramDecl _ _ _ | RecordDecl _ _ _ _ => true
  | VarDecl _ _ _ _ | FieldDecl _ _ _ _ => false
  end.

Definition getLocation (D : Decl) : SMLoc :=
  match D with
  | TranslationUnitDecl => 0%N
  | MainProgramDecl _ _ NameLoc => NameLoc
  | VarDecl _ Loc _ _ => Loc
  | RecordDecl _ Loc _ _ => Loc
  | FieldDecl _ Loc _ _ => Loc
  end.

(** [DiagnosticsEngine::Level], as far as the analyzer uses it. *)
Inductive Level := Note | Warning | Error.

(** What the diagnostic client receives in [HandleDiagnostic]. *)
Record Diagnostic := mkDiagnostic {
  DiagLevel : Level;
  DiagLoc : SMLoc;
  DiagMsg : string
}.

(** The state the actions work on: the declarations allocated in the context,
    the ordered declaration list of every declaration context, the front-end
    token of every identifier, the current declaration context, and the
    diagnostics handed to the client so far. *)
Record Sema := mkSema {
  Decls : list Decl;
  DeclLists : gmap DeclPtr (list DeclPtr);
  FETokenInfo : gmap IdentifierInfo DeclPtr;
  CurContext : option DeclPtr;
  Diags : list Diagnostic
}.

(** [Context.getTranslationUnitDecl()]: allocated first, by the constructor
    of the context. *)
Definition TUDecl : DeclPtr := 0%nat.

(** The analyzer as constructed: [CurContext(0)], no diagnostics. *)
Definition Sema_new : Sema := mkSema [TranslationUnitDecl] ∅ ∅ None [].

(** Actions: state passing, with [None] for an action that does not return
    (a failed assertion, a null pointer followed). *)
Definition M (A : Type) : Type := Sema → option (A * Sema).

Definition ret {A} (a : A) : M A := fun S => Some (a, S).

Definition bind {A B} (m : M A) (k : A → M B) : M B :=
  fun S => match m S with Some (a, S') => k a S' | None => None end.

Notation "x <- m ;; k" := (bind m (fun x => k))
  (at level 100, m at next level, right associativity).
Notation "m ;;; k" := (bind m (fun _ => k))
  (at level 100, right associativity).

Definition abort {A} : M A := fun _ => None.

Definition assert (b : bool) : M unit :=
  fun S => if b then Some (tt, S) else None.

Definition gets {A} (f : Sema → A) : M A := fun S => Some (f S, S).

(** Following a pointer that may be null or dangling. *)
Definition deref {A} (o : option A) : M A :=
  match o with Some a => ret a | None => abort end.

Definition setCurContext (DC : option DeclPtr) : M unit :=
  fun S => Some (tt, mkSema (Decls S) (DeclLists S) (FETokenInfo S) DC (Diags S)).

(** Allocating a declaration in the context. *)
Definition Create (D : Decl) : M DeclPtr :=
  fun S => Some (length (Decls S),
                 mkSema (Decls S ++ [D]) (DeclLists S) (FETokenInfo S)
                   (CurContext S) (Diags S)).

(** [DC->addDecl(D)]: append to the declarations of the context. *)
Definition addDecl (DC : option DeclPtr) (D : DeclPtr) : M unit :=
  c <- deref DC ;;
  fun S => Some (tt, mkSema (Decls S)
                       (<[c := default [] (DeclLists S !! c) ++ [D]]> (DeclLists S))
                       (FETokenInfo S) (CurContext S) (Diags S)).

Definition getFETokenInfo (ID : IdentifierInfo) : M (option DeclPtr) :=
  gets (fun S => FETokenInfo S !! ID).

Definition setFETokenInfo (ID : IdentifierInfo) (D : DeclPtr) : M unit :=
  fun S => Some (tt, mkSema (Decls S) (DeclLists S) (<[ID := D]> (FETokenInfo S))
                       (CurContext S) (Diags S)).

(** [Client->HandleDiagnostic(Level, L, Msg)]. *)
Definition HandleDiagnostic (Lv : Level) (L : SMLoc) (Msg : string) : M unit :=
  fun S => Some (tt, mkSema (Decls S) (DeclLists S) (FETokenInfo S) (CurContext S)
                       (Diags S ++ [mkDiagnostic Lv L Msg])).

Definition ReportError (L : SMLoc) (Msg : string) : M unit :=
  HandleDiagnostic Error L Msg.

(** The declaration a pointer points to. *)
Definition node (D : DeclPtr) : M Decl :=
  S <- gets Decls ;; deref (S !! D).

(** [DC->getParent()], for a pointer to a declaration context. *)
Definition getParent (DC : DeclPtr) : M (option DeclPtr) :=
  D <- node DC ;;
  assert (isDeclContext D) ;;;
  ret (getDeclContext D).

Definition getContainingDC (DC : DeclPtr) : M (option DeclPtr) := getParent DC.

Definition PushDeclContext (DC : DeclPtr) : M unit :=
  P <- getContainingDC DC ;;
  Cur <- gets CurContext ;;
  assert (bool_decide (P = Cur)) ;;;
  setCurContext (Some DC).

Definition PopDeclContext : M unit :=
  Cur <- gets CurContext ;;
  c <- deref Cur ;;
  P <- getContainingDC c ;;
  setCurContext P ;;;
  assert (bool_decide (is_Some P)).

Definition ActOnTranslationUnit : M unit := PushDeclContext TUDecl.

Definition ActOnEndProgramUnit : M unit := PopDeclContext.

Definition ActOnMainProgram (IDInfo : option IdentifierInfo) (NameLoc : SMLoc)
  : M unit :=
  DC <- Create (MainProgramDecl (Some TUDecl) IDInfo NameLoc) ;;
  PushDeclContext DC.

(** [NamedDecl::getName]: the spelling, empty without an identifier. *)
Definition getName (Name : option IdentifierInfo) : string :=
  default "" Name.

Definition ActOnEndMainProgram (IDInfo : option IdentifierInfo) (NameLoc : SMLoc)
  : M unit :=
  Cur <- gets CurContext ;;
  c <- deref Cur ;;
  D <- node c ;;
  match D with
  | MainProgramDecl _ Name _ =>
      let ProgName := getName Name in
      if String.eqb ProgName "" then PopDeclContext
      else
        match IDInfo with
        | None => PopDeclContext
        | Some ID =>
            (if negb (String.eqb ProgName ID)
             then ReportError NameLoc
                    ("expected label '" +:+ ProgName
                       +:+ "' for END PROGRAM statement")
             else ret tt) ;;;
            PopDeclContext
        end
  | _ => abort
  end.

Definition ActOnKindSelector (IDLoc : SMLoc) (IDInfo : IdentifierInfo)
  : M DeclPtr :=
  Cur <- gets CurContext ;;
  VD <- Create (VarDecl Cur IDLoc IDInfo NullTy) ;;
  addDecl Cur VD ;;;
  setFETokenInfo IDInfo VD ;;;
  ret VD.

(** [Sema::ActOnEntityDecl].  The result is the new declaration, or null.
    The dump of the declaration on the standard output, marked "for
    debugging" in the source, is not part of the state. *)
Definition ActOnEntityDecl (DS : DeclSpec) (IDLoc : SMLoc)
  (IDInfo : IdentifierInfo) : M (option DeclPtr) :=
  Tok <- getFETokenInfo IDInfo ;;
  Cur <- gets CurContext ;;
  let declare :=
    let T := ActOnTypeName DS in
    VD <- Create (VarDecl Cur IDLoc IDInfo T) ;;
    addDecl Cur VD ;;;
    setFETokenInfo IDInfo VD ;;;
    ret (Some VD) in
  match Tok with
  | Some Prev =>
      P <- node Prev ;;
      if bool_decide (getDeclContext P = Cur) then
        ReportError IDLoc ("variable '" +:+ IDInfo +:+ "' already declared") ;;;
        HandleDiagnostic Note (getLocation P) "previous declaration" ;;;
        ret None
      else declare
  | None => declare
  end.

(** [toupper] of the C library, on the characters of the C locale. *)
Definition toupper (c : ascii) : ascii :=
  if (N_of_ascii "a" <=? N_of_ascii c)%N && (N_of_ascii c <=? N_of_ascii "z")%N
  then ascii_of_N (N_of_ascii c - 32)
  else c.

(** [IDInfo->getNameStart()[0]]: the first character of the spelling, the
    terminating NUL for an empty one. *)
Definition getNameStart0 (ID : IdentifierInfo) : ascii :=
  match ID with
  | EmptyString => "000"%char
  | String c _ => c
  end.

Definition ActOnImplicitEntityDecl (IDLoc : SMLoc) (IDInfo : IdentifierInfo)
  : M (option DeclPtr) :=
  let DS := DeclSpec_default in
  let letter := toupper (getNameStart0 IDInfo) in
  let DS :=
    if (N_of_ascii "I" <=? N_of_ascii letter)%N
       && (N_of_ascii letter <=? N_of_ascii "N")%N
    then SetTypeSpecType DS TST_integer
    else SetTypeSpecType DS TST_real in
  ActOnEntityDecl DS IDLoc IDInfo.

(** An expression, as far as the analyzer looks at it. *)
Record Expr := mkExpr {
  getType : QualType;
  getExprLocation : SMLoc
}.

(** [ExprResult]: an expression or the invalid result. *)
Definition ExprResult := option Expr.

(** [ImplicitStmt]: the type, the [None] flag, the letter specifications and
    the statement label. *)
Record ImplicitStmt := mkImplicitStmt {
  ImplicitLoc : SMLoc;
  ImplicitTy : QualType;
  isNone : bool;
  LetterSpecs : list (IdentifierInfo * option IdentifierInfo);
  ImplicitLabel : ExprPtr
}.

(** [Sema::ActOnIMPLICIT] with a type and letter specifications. *)
Definition ActOnIMPLICIT (Loc : SMLoc) (DS : DeclSpec)
  (Specs : list (IdentifierInfo * option IdentifierInfo)) (StmtLabel : ExprPtr)
  : M ImplicitStmt :=
  let Ty := ActOnTypeName DS in
  ret (mkImplicitStmt Loc Ty false Specs StmtLabel).

(** [Sema::ActOnIMPLICIT] for IMPLICIT NONE. *)
Definition ActOnIMPLICIT_NONE (Loc : SMLoc) (StmtLabel : ExprPtr)
  : M ImplicitStmt :=
  ret (mkImplicitStmt Loc NullTy true [] StmtLabel).

(** [ParameterStmt::ParamPair]. *)
Definition ParamPair : Type := option IdentifierInfo * ExprResult.

Definition ActOnPARAMETERPair (Loc : SMLoc) (IDInfo : IdentifierInfo)
  (CE : ExprResult) : M ParamPair :=
  Tok <- getFETokenInfo IDInfo ;;
  match Tok with
  | Some Prev =>
      ReportError Loc ("variable '" +:+ IDInfo +:+ "' already defined") ;;;
      P <- node Prev ;;
      HandleDiagnostic Note (getLocation P) "previous definition" ;;;
      ret (None, None)
  | None =>
      E <- deref CE ;;
      let T := getType E in
      Cur <- gets CurContext ;;
      VD <- Create (VarDecl Cur Loc IDInfo T) ;;
      addDecl Cur VD ;;;
      setFETokenInfo IDInfo VD ;;;
      ret (Some IDInfo, CE)
  end.

Definition ActOnDerivedTypeDecl (Loc NameLoc : SMLoc) (IDInfo : IdentifierInfo)
  : M DeclPtr :=
  Cur <- gets CurContext ;;
  Record_ <- Create (RecordDecl Cur Loc NameLoc IDInfo) ;;
  addDecl Cur Record_ ;;;
  PushDeclContext Record_ ;;;
  ret Record_.

Definition ActOnDerivedTypeFieldDecl (DS : DeclSpec) (IDLoc : SMLoc)
  (IDInfo : IdentifierInfo) (Init : ExprResult) : M DeclPtr :=
  let T := ActOnTypeName DS in
  Cur <- gets CurContext ;;
  Field <- Create (FieldDecl Cur IDLoc IDInfo T) ;;
  addDecl Cur Field ;;;
  ret Field.

Definition ActOnEndDerivedTypeDecl : M unit := PopDeclContext.

(** Name lookup: the front-end token of the identifier. *)
Definition lookup (S : Sema) (n : IdentifierInfo) : option DeclPtr :=
  FETokenInfo S !! n.

(** The declarations of a context, in order. *)
Definition decls_of (S : Sema) (DC : DeclPtr) : list DeclPtr :=
  default [] (DeclLists S !! DC).

(** The states an action leaves behind: the state with further diagnostics,
    with another current context, with a declaration added to the context
    [c], and with the name [n] bound to the declaration just added. *)
Definition with_diags (S : Sema) (ds : list Diagnostic) : Sema :=
  mkSema (Decls S) (DeclLists S) (FETokenInfo S) (CurContext S) (Diags S ++ ds).

Definition with_context (S : Sema) (DC : option DeclPtr) : Sema :=
  mkSema (Decls S) (DeclLists S) (FETokenInfo S) DC (Diags S).

Definition with_decl (S : Sema) (c : DeclPtr) (D : Decl) : Sema :=
  mkSema (Decls S ++ [D])
    (<[c := decls_of S c ++ [length (Decls S)]]> (DeclLists S))
    (FETokenInfo S) (CurContext S) (Diags S).

Definition with_new (S : Sema) (D : Decl) : Sema :=
  mkSema (Decls S ++ [D]) (DeclLists S) (FETokenInfo S) (CurContext S) (Diags S).

Definition declared (S : Sema) (c : DeclPtr) (D : Decl) (n : IdentifierInfo)
  : Sema :=
  mkSema (Decls S ++ [D])
    (<[c := decls_of S c ++ [length (Decls S)]]> (DeclLists S))
    (<[n := length (Decls S)]> (FETokenInfo S)) (CurContext S) (Diags S).

(** The two diagnostics of a name clash. *)
Definition clash_diags (Loc : SMLoc) (n : IdentifierInfo) (what : string)
  (PrevLoc : SMLoc) (previous : string) : list Diagnostic :=
  [mkDiagnostic Error Loc ("variable '" +:+ n +:+ "' already " +:+ what);
   mkDiagnostic Note PrevLoc previous].

(** The diagnostic of an END PROGRAM statement that names another program. *)
Definition end_name_diag (NameLoc : SMLoc) (ProgName : string) : Diagnostic :=
  mkDiagnostic Error NameLoc
    ("expected label '" +:+ ProgName +:+ "' for END PROGRAM statement").

(** The name has a visible declaration in the current declaration context:
    its front-end token points to a declaration whose context is the current
    one. *)
Definition declared_here (S : Sema) (n : IdentifierInfo) : bool :=
  match FETokenInfo S !! n with
  | Some Prev =>
      match Decls S !! Prev with
      | Some P => bool_decide (getDeclContext P = CurContext S)
      | None => false
      end
  | None => false
  end.

(** The first letter is one of I to N, in either case. *)
Definition first_letter_I_to_N (n : IdentifierInfo) : bool :=
  match n with
  | EmptyString => false
  | String c _ =>
      bool_decide (c ∈ ["I"; "J"; "K"; "L"; "M"; "N";
                        "i"; "j"; "k"; "l"; "m"; "n"]%char)
  end.

(** The calls the parser makes, and the analyzer as the state machine they
    drive. *)
Inductive Action :=
| TranslationUnit
| EndProgramUnit
| MainProgram (IDInfo : option IdentifierInfo) (NameLoc : SMLoc)
| EndMainProgram (IDInfo : option IdentifierInfo) (NameLoc : SMLoc)
| KindSelector (IDLoc : SMLoc) (IDInfo : IdentifierInfo)
| EntityDecl (DS : DeclSpec) (IDLoc : SMLoc) (IDInfo : IdentifierInfo)
| ImplicitEntityDecl (IDLoc : SMLoc) (IDInfo : IdentifierInfo)
| IMPLICIT (Loc : SMLoc) (DS : DeclSpec)
    (Specs : list (IdentifierInfo * option IdentifierInfo)) (StmtLabel : ExprPtr)
| IMPLICIT_NONE (Loc : SMLoc) (StmtLabel : ExprPtr)
| PARAMETERPair (Loc : SMLoc) (IDInfo : IdentifierInfo) (CE : ExprResult)
| DerivedTypeDecl (Loc NameLoc : SMLoc) (IDInfo : IdentifierInfo)
| DerivedTypeFieldDecl (DS : DeclSpec) (IDLoc : SMLoc) (IDInfo : IdentifierInfo)
    (Init : ExprResult)
| EndDerivedTypeDecl.

Definition state_after {A} (m : M A) (S : Sema) : option Sema :=
  match m S with Some (_, S') => Some S' | None => None end.

Definition perform (a : Action) : Sema → option Sema :=
  match a with
  | TranslationUnit => state_after ActOnTranslationUnit
  | EndProgramUnit => state_after ActOnEndProgramUnit
  | MainProgram ID L => state_after (ActOnMainProgram ID L)
  | EndMainProgram ID L => state_after (ActOnEndMainProgram ID L)
  | KindSelector L ID => state_after (ActOnKindSelector L ID)
  | EntityDecl DS L ID => state_after (ActOnEntityDecl DS L ID)
  | ImplicitEntityDecl L ID => state_after (ActOnImplicitEntityDecl L ID)
  | IMPLICIT L DS Specs Lbl => state_after (ActOnIMPLICIT L DS Specs Lbl)
  | IMPLICIT_NONE L Lbl => state_after (ActOnIMPLICIT_NONE L Lbl)
  | PARAMETERPair L ID CE => state_after (ActOnPARAMETERPair L ID CE)
  | DerivedTypeDecl L NL ID => state_after (ActOnDerivedTypeDecl L NL ID)
  | DerivedTypeFieldDecl DS L ID Init =>
      state_after (ActOnDerivedTypeFieldDecl DS L ID Init)
  | EndDerivedTypeDecl => state_after ActOnEndDerivedTypeDecl
  end.

Fixpoint run (acts : list Action) (S : Sema) : option Sema :=
  match acts with
  | [] => Some S
  | a :: acts' =>
      match perform a S with
      | Some S' => run acts' S'
      | None => None
      end
  end.

(** The states the analyzer can be in. *)
Definition reachable (S : Sema) : Prop :=
  ∃ acts, run acts Sema_new = Some S.

(** States used as examples: inside the main program [P], and there after
    [INTEGER X]. *)
Definition DS_integer : DeclSpec := SetTypeSpecType DeclSpec_default TST_integer.
Definition DS_real : DeclSpec := SetTypeSpecType DeclSpec_default TST_real.

Definition in_program : list Action :=
  [TranslationUnit; MainProgram (Some "P") 1].

Definition after (acts : list Action) : Sema :=
  default Sema_new (run acts Sema_new).

(** What holds of every such state: the translation unit is the first
    declaration; a main program lies directly in it; the parent of a
    declaration context is a declaration context; the front-end token of a
    name points to a variable of that name; the current context is a
    declaration context. *)
Definition is_context (Ds : list Decl) (c : DeclPtr) : Prop :=
  ∃ D, Ds !! c = Some D ∧ isDeclContext D = true.

Record wf (S : Sema) : Prop := mkwf {
  wf_TU : Decls S !! TUDecl = Some TranslationUnitDecl;
  wf_main : ∀ p DC Name L,
    Decls S !! p = Some (MainProgramDecl DC Name L) → DC = Some TUDecl;
  wf_parent : ∀ c D p,
    Decls S !! c = Some D → isDeclContext D = true →
    getDeclContext D = Some p → is_context (Decls S) p;
  wf_token : ∀ n p,
    FETokenInfo S !! n = Some p →
    ∃ DC L T, Decls S !! p = Some (VarDecl DC L n T);
  wf_cur : ∀ c, CurContext S = Some c → is_context (Decls S) c
}.

(** A declaration that may be added to the declarations [Ds]. *)
Definition node_ok (Ds : list Decl) (D : Decl) : Prop :=
  match D with
  | TranslationUnitDecl => True
  | MainProgramDecl DC _ _ => DC = Some TUDecl
  | RecordDecl DC _ _ _ => ∀ p, DC = Some p → is_context Ds p
  | VarDecl _ _ _ _ | FieldDecl _ _ _ _ => True
  end.

End Sema.

(** ** The analyzer, step by step *)

Module Steps.
Import Sema.

(** What one action can do to the state of the analyzer: nothing; leave the
    current context for its parent, with or without an error; enter the
    translation unit; open the main program; declare a variable and bind its
    name; report a clash; open a derived type; add a field. *)
Inductive Step (st : Sema) : Sema → Prop :=
| Step_none : Step st st
| Step_leave ds c D p :
    ds = [] ∨ (∃ L msg, ds = [mkDiagnostic Error L msg]) →
    CurContext st = Some c → Decls st !! c = Some D →
    isDeclContext D = true → getDeclContext D = Some p →
    Step st (with_context (with_diags st ds) (Some p))
| Step_enter :
    CurContext st = None → Step st (with_context st (Some TUDecl))
| Step_main ID L :
    CurContext st = Some TUDecl →
    Step st (with_context (with_new st (MainProgramDecl (Some TUDecl) ID L))
               (Some (length (Decls st))))
| Step_declare c L n T :
    CurContext st = Some c →
    Step st (declared st c (VarDecl (Some c) L n T) n)
| Step_clash L n what Prev P previous :
    FETokenInfo st !! n = Some Prev → Decls st !! Prev = Some P →
    Step st (with_diags st (clash_diags L n what (getLocation P) previous))
| Step_record c L NL n :
    CurContext st = Some c →
    Step st (with_context (with_decl st c (RecordDecl (Some c) L NL n))
               (Some (length (Decls st))))
| Step_field c L n T :
    CurContext st = Some c →
    Step st (with_decl st c (FieldDecl (Some c) L n T)).

(** The declarations a declaration context lists: variables, derived types
    and fields. *)
Definition listed_kind (D : Decl) : bool :=
  match D with
  | VarDecl _ _ _ _ | RecordDecl _ _ _ _ | FieldDecl _ _ _ _ => true
  | TranslationUnitDecl | MainProgramDecl _ _ _ => false
  end.

(** The definition of a derived type as the parser drives it: the opening,
    the fields in order, the end. *)
Definition Field : Type := DeclSpec * SMLoc * IdentifierInfo * ExprResult.

Definition field_action (f : Field) : Action :=
  let '(DS, L, n, Init) := f in DerivedTypeFieldDecl DS L n Init.

Definition field_decl (DC : DeclPtr) (f : Field) : Decl :=
  let '(DS, L, n, _) := f in FieldDecl (Some DC) L n (ActOnTypeName DS).

Definition derived_type (Loc NameLoc : SMLoc) (n : IdentifierInfo)
  (fs : list Field) : list Action :=
  DerivedTypeDecl Loc NameLoc n :: (field_action <$> fs) ++ [EndDerivedTypeDecl].

(** A state used as an example: the program [P] with [INTEGER X], a clash
    on [X] and a derived type [T] with the field [Y], still open. *)
Definition sample_actions : list Action :=
  in_program ++
  [EntityDecl DS_integer 2 "X"; EntityDecl DS_real 3 "X";
   DerivedTypeDecl 4 5 "T"; DerivedTypeFieldDecl DS_real 6 "Y" None].

End Steps.

(** ** More of the context: counting types, uniquing variables *)

Module Uniquing.
Import ASTContext.

#[global] Instance TypeClass_countable : Countable TypeClass.
Proof.
  refine (inj_countable'
            (fun k => match k with
                      | TC_Character => 0%nat | TC_Pointer => 1%nat
                      | TC_Array => 2%nat
                      end)
            (fun n => match n with
                      | O => TC_Character | S O => TC_Pointer | _ => TC_Array
                      end) _).
  by intros [].
Defined.

(** The profiles a list of requests asks for. *)
Definition profiles (rs : list TypeRequest) : gset (TypeClass * FoldingSetNodeID) :=
  list_to_set (profile <$> rs).

(** A [const IdentifierInfo *] and a [const DeclSpec *], as addresses. *)
Definition IdentifierPtr := N.
Definition DeclSpecPtr := N.

(** What the constructor [VarDecl(Loc, DS, Info)] receives. *)
Record VarDecl := mkVarDecl {
  VD_Loc : N;
  VD_DS : DeclSpecPtr;
  VD_Info : IdentifierPtr
}.

(** A [VarDecl*]: the position of the declaration among the variable
    declarations the context has allocated. *)
Definition VarDeclPtr := nat.

(** The variable declarations of the context and their folding set
    [VariableDecls]. *)
Record VarContext := mkVarContext {
  VarNodes : list VarDecl;
  VariableDecls : gmap FoldingSetNodeID VarDeclPtr
}.

Definition VarContext_new : VarContext := mkVarContext [] ∅.

Section Profile.

(** [VarDecl::Profile(ID, Info)], declared in the missing Decl.h: the ID it
    computes from the identifier. *)
Variable VarDecl_Profile : IdentifierPtr → FoldingSetNodeID.

Definition getOrCreateVarDecl (Loc : N) (DS : DeclSpecPtr) (Info : IdentifierPtr)
  (C : VarContext) : VarDeclPtr * VarContext :=
  let ID := VarDecl_Profile Info in
  match VariableDecls C !! ID with
  | Some VD => (VD, C)
  | None =>
      let New := length (VarNodes C) in
      (New, mkVarContext (VarNodes C ++ [mkVarDecl Loc DS Info])
              (<[ID := New]> (VariableDecls C)))
  end.

Definition getVarDecl (Info : IdentifierPtr) (C : VarContext) : option VarDeclPtr :=
  VariableDecls C !! VarDecl_Profile Info.

(** The context after a sequence of calls of [getOrCreateVarDecl]. *)
Definition created (calls : list VarDecl) (C : VarContext) : VarContext :=
  foldl (fun C d => (getOrCreateVarDecl (VD_Loc d) (VD_DS d) (VD_Info d) C).2)
    C calls.

End Profile.

(** The first call for an identifier in a sequence of calls. *)
Fixpoint first_call (Info : IdentifierPtr) (calls : list VarDecl)
  : option VarDecl :=
  match calls with
  | [] => None
  | d :: calls' =>
      if (VD_Info d =? Info)%N then Some d else first_call Info calls'
  end.

(** The folding set against the calls made so far: an identifier is
    registered exactly when it was asked for, with the declaration the first
    call for it created. *)
Definition first_wins (VarDecl_Profile : IdentifierPtr → FoldingSetNodeID)
  (C : VarContext) (calls : list VarDecl) : Prop :=
  ∀ Info,
    match getVarDecl VarDecl_Profile Info C with
    | Some h => ∃ d, first_call Info calls = Some d ∧ VarNodes C !! h = Some d
    | None => first_call Info calls = None
    end.

(** What is registered and what is allocated, against the set of profiles
    asked for so far. *)
Definition counted (C : ASTContext) (s : gset (TypeClass * FoldingSetNodeID))
  : Prop :=
  (∀ k ID, is_Some (table k C !! ID) ↔ (k, ID) ∈ s) ∧
  length (Types C) = (6 + size s)%nat.

End Uniquing.

(** ** Statements with a list (Stmt.h) *)

Module Stmt.

(** [Stmt::StmtTy]. *)
Inductive StmtTy :=
| ST_Program
| ST_Use | ST_Import | ST_Dimension
| ST_Implicit | ST_Parameter | ST_Format | ST_Entry
| ST_Asynchronous | ST_External | ST_Intrinsic | ST_EndProgram
| ST_Block | ST_Assign | ST_AssignedGoto | ST_Goto | ST_If | ST_Continue
| ST_Stop | ST_Assignment | ST_Print.

(** The range of [unsigned]. *)
Definition UINT_RANGE : N := 2 ^ 32.

Section ListStmt.

(** The element type [T] of [ListStmt<T>] and the type of a statement
    label. *)
Context {T ExprResult : Type}.

(** The part of the arena that holds arrays of [T]: cells of the size of one
    [T], and the next free cell. *)
Record Arena := mkArena {
  Cells : gmap N T;
  Next : N
}.

(** [ListStmt<T>]: the members of [Stmt], the count and the pointer to the
    list. *)
Record ListStmt := mkListStmt {
  StmtID : StmtTy;
  Loc : N;
  StmtLabel : ExprResult;
  NumIDs : N;
  IDList : N
}.

(** [for (unsigned I = 0; I != NumIDs; ++I) IDList[I] = IDs[I];] *)
Fixpoint copy (IDList : N) (IDs : list T) (cells : gmap N T) : gmap N T :=
  match IDs with
  | [] => cells
  | x :: IDs' => copy (IDList + 1) IDs' (<[IDList := x]> cells)
  end.

(** The constructor: [NumIDs = IDs.size()] goes into an [unsigned],
    [IDList = new (C) T [NumIDs]] takes that many cells of the arena, and the
    loop copies that many elements. *)
Definition ListStmt_new (ID : StmtTy) (L : N) (IDs : list T) (SLT : ExprResult)
  (A : Arena) : ListStmt * Arena :=
  let NumIDs := N.of_nat (length IDs) mod UINT_RANGE in
  let IDList := Next A in
  (mkListStmt ID L SLT NumIDs IDList,
   mkArena (copy IDList (take (N.to_nat NumIDs) IDs) (Cells A))
           (Next A + NumIDs)).

(** Reading the [n] cells of an array view [ArrayRef<T>(p, n)]; reading a
    cell that was never written has no defined result. *)
Fixpoint view (p : N) (n : nat) (cells : gmap N T) : option (list T) :=
  match n with
  | O => Some []
  | S n' =>
      match cells !! p, view (p + 1) n' cells with
      | Some a, Some l => Some (a :: l)
      | _, _ => None
      end
  end.

(** [getIDList]: [ArrayRef<T>(IDList, NumIDs)]. *)
Definition getIDList (S : ListStmt) (A : Arena) : option (list T) :=
  view (IDList S) (N.to_nat (NumIDs S)) (Cells A).

(** What a constructor call receives. *)
Record Call := mkCall {
  Call_ID : StmtTy;
  Call_Loc : N;
  Call_IDs : list T;
  Call_Label : ExprResult
}.

(** The arena after a sequence of constructor calls. *)
Definition constructed (calls : list Call) (A : Arena) : Arena :=
  foldl (fun A c =>
           (ListStmt_new (Call_ID c) (Call_Loc c) (Call_IDs c) (Call_Label c)
              A).2)
    A calls.

End ListStmt.

End Stmt.

(** ** The [%plural] modifier (Diagnostic.cpp) *)

Module Plural.
Import Diag.

Local Open Scope char_scope.
Local Open Scope N_scope.

(** The plural functions take a pointer [Start] and an end pointer [End] into
    the format string and read the character at [End] as well.  A pointer is
    modelled, next to its end pointer, by the characters from the pointer to
    the end of the buffer and by the distance [End - Start], which is
    negative once the pointer has passed [End].  Reading at the end of the
    buffer has no defined result. *)
Definition Cursor : Type := chars * Z.

(** [I[0] - '0'] for a digit. *)
Definition digit (c : ascii) : N := N_of_ascii c - N_of_ascii "0".

(** The loop of [PluralNumber], from the value [Val]. *)
Fixpoint PluralNumber_from (Val : N) (Start : chars) (d : Z)
  : option (N * Cursor) :=
  (* while (Start != End && Start[0] >= '0' && Start[0] <= '9') *)
  if (d =? 0)%Z then Some (Val, (Start, d))
  else
    match Start with
    | [] => None
    | c :: Start' =>
        if isDigit c
        then (* Val *= 10; Val += Start[0] - '0'; ++Start; *)
          PluralNumber_from ((Val * 10 + digit c) mod UINT_RANGE) Start'
            (d - 1)
        else Some (Val, (Start, d))
    end.

(** [PluralNumber]: the value parsed and the advanced [Start]. *)
Definition PluralNumber (Start : chars) (d : Z) : option (N * Cursor) :=
  PluralNumber_from 0 Start d.

(** [TestPluralRange]: the result and the advanced [Start]; a failed
    assertion gives no result. *)
Definition TestPluralRange (Val : N) (Start : chars) (d : Z)
  : option (bool * Cursor) :=
  match Start with
  | [] => None
  | c :: Start' =>
      if negb (Ascii.eqb c "[") then
        (* unsigned Ref = PluralNumber(Start, End); return Ref == Val; *)
        match PluralNumber Start d with
        | Some (Ref, cur) => Some (Ref =? Val, cur)
        | None => None
        end
      else
        (* ++Start; unsigned Low = PluralNumber(Start, End); *)
        match PluralNumber Start' (d - 1) with
        | Some (Low, ("," :: Start2, d2)) =>
            (* ++Start; unsigned High = PluralNumber(Start, End); *)
            match PluralNumber Start2 (d2 - 1) with
            | Some (High, ("]" :: Start3, d3)) =>
                (* ++Start; return Low <= Val && Val <= High; *)
                Some ((Low <=? Val) && (Val <=? High), (Start3, (d3 - 1)%Z))
            | _ => None
            end
        | _ => None
        end
  end.

(** [std::find(Start, End, Value)]. *)
Fixpoint find (Start : chars) (d : Z) (Value : ascii) : option Cursor :=
  if (d =? 0)%Z then Some (Start, d)
  else
    match Start with
    | [] => None
    | c :: Start' =>
        if Ascii.eqb c Value then Some (Start, d)
        else find Start' (d - 1) Value
    end.

(** One round of the loop of [EvalPluralExpr] up to its test: the modulo
    expression or the range expression at [Start], with the result of
    [TestPluralRange] and the advanced [Start]. *)
Definition EvalPluralExpr_test (ValNo : N) (Start : chars) (d : Z)
  : option (bool * Cursor) :=
  match Start with
  | [] => None
  | C :: Start' =>
      if Ascii.eqb C "%" then
        (* ++Start; unsigned Arg = PluralNumber(Start, End);
           assert(Start[0] == '='); ++Start;
           unsigned ValMod = ValNo % Arg; *)
        match PluralNumber Start' (d - 1) with
        | Some (Arg, ("=" :: Start2, d2)) =>
            if Arg =? 0 then None
            else TestPluralRange (ValNo mod Arg) Start2 (d2 - 1)
        | _ => None
        end
      else
        (* assert(C == '[' || (C >= '0' && C <= '9')) *)
        if Ascii.eqb C "[" || isDigit C
        then TestPluralRange ValNo Start d
        else None
  end.

(** What a [while (1)] loop has come to after a number of rounds: it has
    ended, with what it returns or with nothing where an assertion failed or
    a read or a remainder was not defined, or it is still running. *)
Inductive Run (A : Type) : Type :=
| Ended (r : option A)
| Running.

Arguments Ended {A} r.
Arguments Running {A}.

(** The [while (1)] loop of [EvalPluralExpr], run for a number of rounds. *)
Fixpoint EvalPluralExpr_loop (rounds : nat) (ValNo : N) (Start : chars) (d : Z)
  : Run bool :=
  match rounds with
  | O => Running
  | S rounds' =>
      match EvalPluralExpr_test ValNo Start d with
      | None => Ended None
      | Some (true, _) => Ended (Some true)
      | Some (false, (Start3, d3)) =>
          (* Start = std::find(Start, End, ','); *)
          match find Start3 d3 "," with
          | None => Ended None
          | Some (Start4, d4) =>
              (* if (Start == End) break; ++Start; *)
              if (d4 =? 0)%Z then Ended (Some false)
              else EvalPluralExpr_loop rounds' ValNo (tail Start4) (d4 - 1)
          end
      end
  end.

(** [EvalPluralExpr].  Every round of the loop that does not return or break
    has moved [Start] past a comma, so that the loop has ended after as many
    rounds as there are characters to the end of the buffer, and one. *)
Definition EvalPluralExpr (ValNo : N) (Start : chars) (d : Z) : option bool :=
  match Start with
  | [] => None
  | c :: _ =>
      (* if (Start[0] == ':') return true; *)
      if Ascii.eqb c ":" then Some true
      else
        match EvalPluralExpr_loop (S (length Start)) ValNo Start d with
        | Ended r => r
        | Running => None
        end
  end.

(** The inner loop of [HandlePluralModifier]: the distance from [ExprEnd] to
    the first colon.  [n] is the distance from [ExprEnd] to [ArgumentEnd]. *)
Fixpoint expression_end (ExprEnd : chars) (n : nat) : option nat :=
  match ExprEnd with
  | [] => None
  | c :: ExprEnd' =>
      (* while (ExprEnd[0] != ':') *)
      if Ascii.eqb c ":" then Some 0%nat
      else
        (* assert(ExprEnd != ArgumentEnd); ++ExprEnd; *)
        match n with
        | O => None
        | S n' =>
            match expression_end ExprEnd' n' with
            | Some k => Some (S k)
            | None => None
            end
        end
  end.

(** The [while (1)] loop of [HandlePluralModifier], run for a number of
    rounds, with the characters from [Argument] to the end of the buffer and
    the distance [Len] from [Argument] to [ArgumentEnd]. *)
Fixpoint HandlePluralModifier_loop (rounds : nat)
  (FormatDiagnostic : chars → chars → option chars)
  (ValNo : N) (Argument : chars) (Len : nat) (OutStr : chars)
  : Run chars :=
  match rounds with
  | O => Running
  | S rounds' =>
      (* assert(Argument < ArgumentEnd) *)
      if (Len =? 0)%nat then Ended None
      else
        match expression_end Argument Len with
        | None => Ended None
        | Some k =>
            match EvalPluralExpr ValNo Argument (Z.of_nat k) with
            | None => Ended None
            | Some true =>
                (* Argument = ExprEnd + 1;
                   ExprEnd = ScanFormat(Argument, ArgumentEnd, '|');
                   with the colon found at ArgumentEnd itself, Argument is
                   past ArgumentEnd and the scan never meets its end *)
                if (k <? Len)%nat then
                  let Argument' := drop (S k) Argument in
                  let ExprEnd :=
                    ScanFormat (take (Len - S k) Argument') "|" in
                  Ended (FormatDiagnostic (take ExprEnd Argument') OutStr)
                else Ended None
            | Some false =>
                (* Argument = ScanFormat(Argument, ArgumentEnd - 1, '|') + 1; *)
                let Next := ScanFormat (take (Len - 1) Argument) "|" in
                HandlePluralModifier_loop rounds' FormatDiagnostic ValNo
                  (drop (S Next) Argument) (Len - S Next) OutStr
            end
        end
  end.

(** [HandlePluralModifier].  [Argument] holds the characters from the pointer
    [Argument] to the end of the buffer; an [ArgumentLen] that leads out of
    the buffer gives no pointer [ArgumentEnd].  Every round of the loop that
    does not return has moved [Argument] forward, so that the loop has ended
    after [ArgumentLen] rounds and one. *)
Definition HandlePluralModifier
  (FormatDiagnostic : chars → chars → option chars)
  (ValNo : N) (Argument : chars) (ArgumentLen : N) (OutStr : chars)
  : option chars :=
  if (length Argument <? N.to_nat ArgumentLen)%nat then None
  else
    match
      HandlePluralModifier_loop (S (N.to_nat ArgumentLen)) FormatDiagnostic
        ValNo Argument (N.to_nat ArgumentLen) OutStr
    with
    | Ended r => r
    | Running => None
    end.

(** *** The plural expressions of the documentation

    [condition := expression | empty], [expression := numeric [',' expression]],
    [numeric := range | '%' number '=' range] and
    [range := number | '[' number ',' number ']'], with a number written as
    its decimal digits. *)

Inductive range :=
| Number (n : chars)
| Interval (low high : chars).

Inductive numeric :=
| InRange (r : range)
| Modulo (n : chars) (r : range).

(** A condition: the numerics of its expression; none for the empty one. *)
Definition condition := list numeric.

Definition print_range (r : range) : chars :=
  match r with
  | Number n => n
  | Interval low high => "[" :: low ++ "," :: high ++ ["]"]
  end.

Definition print_numeric (x : numeric) : chars :=
  match x with
  | InRange r => print_range r
  | Modulo n r => "%" :: n ++ "=" :: print_range r
  end.

Fixpoint print_condition (c : condition) : chars :=
  match c with
  | [] => []
  | [x] => print_numeric x
  | x :: c' => print_numeric x ++ "," :: print_condition c'
  end.

(** A number is a digit followed by digits. *)
Definition number (n : chars) : Prop :=
  n ≠ [] ∧ Forall (fun c => isDigit c = true) n.

Definition range_ok (r : range) : Prop :=
  match r with
  | Number n => number n
  | Interval low high => number low ∧ number high
  end.

Definition numeric_ok (x : numeric) : Prop :=
  match x with
  | InRange r => range_ok r
  | Modulo n r => number n ∧ range_ok r
  end.

(** The number that decimal digits denote. *)
Definition value (n : chars) : N :=
  foldl (fun v c => v * 10 + digit c) 0 n.

(** The number as an [unsigned]. *)
Definition unsigned_value (n : chars) : N := value n mod UINT_RANGE.

(** "true if n in range"; "ranges are inclusive both ends". *)
Definition in_range (r : range) (v : N) : bool :=
  match r with
  | Number n => unsigned_value n =? v
  | Interval low high =>
      (unsigned_value low <=? v) && (v <=? unsigned_value high)
  end.

(** "true if n % number in range"; the remainder by zero is not defined. *)
Definition holds_numeric (x : numeric) (v : N) : option bool :=
  match x with
  | InRange r => Some (in_range r v)
  | Modulo n r =>
      if unsigned_value n =? 0 then None
      else Some (in_range r (v mod unsigned_value n))
  end.

(** "logical or", from the left, of the numerics of an expression. *)
Fixpoint holds_expression (c : condition) (v : N) : option bool :=
  match c with
  | [] => Some false
  | x :: c' =>
      match holds_numeric x v with
      | None => None
      | Some true => Some true
      | Some false => holds_expression c' v
      end
  end.

(** "empty -> always true". *)
Definition holds (c : condition) (v : N) : option bool :=
  match c with
  | [] => Some true
  | _ => holds_expression c v
  end.

(** An alternative [cond:form] of the argument of [%plural]. *)
Definition alternative : Type := condition * chars.

Definition print_alternative (a : alternative) : chars :=
  print_condition a.1 ++ ":" :: a.2.

(** "conditions that are tested in order, the form corresponding to the
    first that applies being emitted". *)
Fixpoint first_form (alts : list alternative) (v : N) : option chars :=
  match alts with
  | [] => None
  | a :: alts' =>
      match holds a.1 v with
      | None => None
      | Some true => Some a.2
      | Some false => first_form alts' v
      end
  end.

(** An alternative of a well-formed argument: numbers are written with
    digits, and the form is a clause, with no bar outside of escapes and of
    the braces of inner placeholders. *)
Definition alternative_ok (a : alternative) : Prop :=
  Forall numeric_ok a.1 ∧ clause "|" a.2.

End Plural.

(** * Properties *)

(** ** Type identity *)

Section TypeIdentity.
Import ASTContext.

Lemma foldl_AddPointerE (Dims : list ExprPtr) (ID : FoldingSetNodeID) :
  foldl (fun ID d => AddPointerE d ID) ID Dims = ID ++ Dims.
Proof.
  revert ID. induction Dims as [|d Dims IH]; intros ID; simpl.
  - by rewrite app_nil_r.
  - rewrite IH. unfold AddPointerE. by rewrite <- app_assoc.
Qed.

Lemma ArrayType_Profile_eq Ty Dims :
  ArrayType_Profile Ty Dims = N.of_nat Ty :: Dims.
Proof. unfold ArrayType_Profile. by rewrite foldl_AddPointerE. Qed.

(** The encoding of a request into a class and an ID loses nothing: equal
    profiles are equal requests. *)
Lemma profile_inj r1 r2 : profile r1 = profile r2 → r1 = r2.
Proof.
  unfold profile. intros H. injection H as Hc Hid.
  destruct r1 as [[l1] [k1]|t1 n1|t1 d1], r2 as [[l2] [k2]|t2 n2|t2 d2];
    try discriminate Hc; simpl in Hid.
  - unfold CharacterBuiltinType_Profile, AddPointerE in Hid. simpl in Hid.
    by simplify_eq.
  - unfold PointerType_Profile, AddInteger, AddPointerT in Hid. simpl in Hid.
    injection Hid as Ht Hn. apply Nat2N.inj in Ht. by subst.
  - rewrite !ArrayType_Profile_eq in Hid.
    injection Hid as Ht Hd. apply Nat2N.inj in Ht. by subst.
Qed.

Lemma node_profile_request r : node_profile (request_node r) = Some (profile r).
Proof. by destruct r. Qed.

Lemma registered_ok_init : registered_ok InitBuiltinTypes.
Proof. intros [] ID p H; simpl in H; by rewrite lookup_empty in H. Qed.

Lemma extends_refl C : extends C C.
Proof. by split. Qed.

Lemma extends_trans C1 C2 C3 : extends C1 C2 → extends C2 C3 → extends C1 C3.
Proof. intros [A1 B1] [A2 B2]. split; eauto. Qed.

(** What one request does: the handle it returns is registered under the
    profile of the request afterwards, nothing registered before is lost, and
    the invariant of the folding sets is kept. *)
Lemma request_spec r C h C' :
  registered_ok C → request r C = (h, C') →
  registered_ok C' ∧ extends C C' ∧
  table (request_class r) C' !! request_ID r = Some h.
Proof.
  intros Hok Hreq.
  assert (Hcases :
    (table (request_class r) C !! request_ID r = Some h ∧ C' = C) ∨
    (table (request_class r) C !! request_ID r = None ∧
     h = length (Types C) ∧ Types C' = Types C ++ [request_node r] ∧
     ∀ k, table k C' =
       if bool_decide (k = request_class r)
       then <[request_ID r := h]> (table k C) else table k C)).
  { destruct r; simpl in Hreq |- *;
      unfold getCharacterBuiltinType, getPointerType, getArrayType in Hreq;
      simpl in Hreq;
      match type of Hreq with
      | context [?m !! ?i] => destruct (m !! i) eqn:Hl
      end; simplify_eq; [by left|right|by left|right|by left|right];
      (split_and!; [done..|]); by intros []. }
  destruct Hcases as [[Hl ->]|(Hl & -> & HT & Htab)].
  { split_and!; [done|apply extends_refl|done]. }
  split_and!.
  - intros k ID p Hp. rewrite Htab in Hp. rewrite HT.
    case_bool_decide as Hk.
    + apply lookup_insert_Some in Hp as [[<- <-]|[Hne Hp]].
      * exists (request_node r). split.
        -- by rewrite lookup_app_r, Nat.sub_diag.
        -- subst k. apply node_profile_request.
      * destruct (Hok _ _ _ Hp) as (n & Hn & Hprof).
        exists n. split; [|done]. by apply lookup_app_l_Some.
    + destruct (Hok _ _ _ Hp) as (n & Hn & Hprof).
      exists n. split; [|done]. by apply lookup_app_l_Some.
  - split.
    + intros p n Hn. rewrite HT. by apply lookup_app_l_Some.
    + intros k ID p Hp. rewrite Htab. case_bool_decide as Hk; [|done].
      subst k. rewrite lookup_insert_ne; [done|]. intros <-. congruence.
  - rewrite Htab. rewrite bool_decide_eq_true_2 by done.
    apply lookup_insert_eq.
Qed.

Lemma requests_spec rs C :
  registered_ok C →
  registered_ok (requests rs C) ∧ extends C (requests rs C).
Proof.
  revert C. induction rs as [|r rs IH]; intros C Hok.
  - split; [done|apply extends_refl].
  - unfold requests. simpl. fold (requests rs (request r C).2).
    destruct (request r C) as [h C'] eqn:Hr. simpl.
    destruct (request_spec _ _ _ _ Hok Hr) as (Hok' & Hext & _).
    destruct (IH _ Hok') as [Hok'' Hext'].
    split; [done|]. by eapply extends_trans.
Qed.

(** C1.  Type identity: of two type-construction requests made to one
    context, whatever was requested before the first and between the two,
    the second returns the handle of the first when the structural profiles
    are identical, and a different handle when the profiles differ. *)
Theorem type_identity (before between : list TypeRequest) (r1 r2 : TypeRequest) :
  let C0 := requests before InitBuiltinTypes in
  let h1 := (request r1 C0).1 in
  let C1 := (request r1 C0).2 in
  let h2 := (request r2 (requests between C1)).1 in
  (profile r1 = profile r2 → h1 = h2) ∧ (profile r1 ≠ profile r2 → h1 ≠ h2).
Proof.
  intros C0 h1 C1 h2.
  destruct (requests_spec before InitBuiltinTypes registered_ok_init)
    as [Hok0 _]. fold C0 in Hok0.
  destruct (request r1 C0) as [h1' C1'] eqn:Hr1. simpl in h1, C1.
  subst h1 C1.
  destruct (request_spec _ _ _ _ Hok0 Hr1) as (Hok1 & _ & Hreg1).
  destruct (requests_spec between C1' Hok1) as [Hok2 [_ Hext2]].
  apply Hext2 in Hreg1.
  destruct (request r2 (requests between C1')) as [h2' C2'] eqn:Hr2.
  simpl in h2. subst h2.
  destruct (request_spec _ _ _ _ Hok2 Hr2) as (Hok3 & [_ Hext3] & Hreg2).
  apply Hext3 in Hreg1.
  split.
  - intros Hp. unfold profile in Hp. injection Hp as Hc Hid.
    rewrite Hc, Hid in Hreg1. congruence.
  - intros Hp ->. apply Hp.
    destruct (Hok3 _ _ _ Hreg1) as (n1 & Hn1 & Hp1).
    destruct (Hok3 _ _ _ Hreg2) as (n2 & Hn2 & Hp2).
    unfold profile. congruence.
Qed.

(** The first handles after the six base types: a pointer type asked for
    twice, an array type in between, and a pointer type of another rank. *)
Example type_identity_run :
  let C0 := InitBuiltinTypes in
  let '(p1, C1) := getPointerType (RealTy C0) 2 C0 in
  let '(a1, C2) := getArrayType (RealTy C0) [40; 41] C1 in
  let '(p2, C3) := getPointerType (RealTy C0) 2 C2 in
  let '(p3, C4) := getPointerType (RealTy C0) 3 C3 in
  (p1, a1, p2, p3) = (6%nat, 7%nat, 6%nat, 8%nat) ∧ length (Types C4) = 9%nat.
Proof. split; reflexivity. Qed.

End TypeIdentity.

(** ** Argument lists of multi-argument expressions *)

Section MultiArgument.
Import Expr.

(** Copying a vector writes at its base and above only. *)
Lemma store_lookup_below (Args : list ExprPtr) base cells i :
  i < base → store base Args cells !! i = cells !! i.
Proof.
  revert base cells. induction Args as [|a Args IH]; intros base cells Hi.
  - done.
  - simpl. rewrite IH by lia. apply lookup_insert_ne. lia.
Qed.

(** A vector that was copied reads back as it was. *)
Lemma load_store (Args : list ExprPtr) base cells :
  load base (length Args) (store base Args cells) = Some Args.
Proof.
  revert base cells. induction Args as [|a Args IH]; intros base cells.
  - done.
  - simpl. rewrite store_lookup_below by lia.
    rewrite lookup_insert_eq. by rewrite IH.
Qed.

(** Reading a vector looks at its own cells only. *)
Lemma load_agree n base cells cells' :
  (∀ i, base ≤ i → i < base + N.of_nat n → cells' !! i = cells !! i) →
  load base n cells' = load base n cells.
Proof.
  revert base. induction n as [|n IH]; intros base Hag.
  - done.
  - simpl. rewrite Hag by lia. rewrite IH; [done|].
    intros i ? ?. apply Hag; lia.
Qed.

Lemma count_fits (Args : list ExprPtr) :
  N.of_nat (length Args) < UINT_RANGE →
  N.of_nat (length Args) mod UINT_RANGE = N.of_nat (length Args).
Proof. intros H. by apply N.mod_small. Qed.

(** The constructor followed by [getArguments]. *)
Lemma new_getArguments (Args : list ExprPtr) (A : Arena) :
  N.of_nat (length Args) < UINT_RANGE →
  getArguments (MultiArgumentExpr_new Args A).1 (MultiArgumentExpr_new Args A).2
  = Some Args.
Proof.
  intros Hfit. unfold MultiArgumentExpr_new. rewrite count_fits by done.
  destruct Args as [|a [|b Args]]; [done..|].
  remember (a :: b :: Args) as l eqn:El.
  assert (Hlen : (2 ≤ length l)%nat) by (subst l; simpl; lia).
  destruct (N.eqb_spec (N.of_nat (length l)) 0) as [?|_]; [lia|].
  destruct (N.eqb_spec (N.of_nat (length l)) 1) as [?|Hne]; [lia|].
  unfold getArguments. simpl.
  destruct (N.eqb_spec (N.of_nat (length l)) 1) as [?|_]; [lia|].
  rewrite Nat2N.id, firstn_all. apply load_store.
Qed.

(** An argument list stays readable when further expressions are built: the
    arena only grows. *)
Lemma getArguments_stable (M : MultiArgumentExpr) (A : Arena) Args' l :
  Storage M + NumArguments M ≤ Next A →
  getArguments M A = Some l →
  getArguments M (MultiArgumentExpr_new Args' A).2 = Some l.
Proof.
  intros Hbelow Hget. unfold getArguments in *.
  destruct (NumArguments M =? 1); [done|].
  rewrite <- Hget. unfold MultiArgumentExpr_new.
  repeat case_match; simpl; try done.
  apply load_agree. intros i Hlo Hhi.
  apply store_lookup_below. lia.
Qed.

(** C7.  An argument list whose count fits the [unsigned] counter reads back
    from the expression built on it exactly as it was given, in order: from
    the storage itself and from each of the five expression classes, whether
    the single argument is kept inline or the arguments are in a vector of
    the arena. *)
Theorem arguments_read_back (Args : list ExprPtr) (A : Arena)
    (Target Func Var Ini Term Inc : N) :
  N.of_nat (length Args) < UINT_RANGE →
  getArguments (MultiArgumentExpr_new Args A).1 (MultiArgumentExpr_new Args A).2
    = Some Args ∧
  getSubscriptList (ArrayElementExpr_Create Target Args A).1
    (ArrayElementExpr_Create Target Args A).2 = Some Args ∧
  getCallArguments (CallExpr_Create Func Args A).1
    (CallExpr_Create Func Args A).2 = Some Args ∧
  getIntrinsicCallArguments (IntrinsicCallExpr_Create Func Args A).1
    (IntrinsicCallExpr_Create Func Args A).2 = Some Args ∧
  getBody (ImpliedDoExpr_Create Var Args Ini Term Inc A).1
    (ImpliedDoExpr_Create Var Args Ini Term Inc A).2 = Some Args ∧
  getItems (ArrayConstructorExpr_Create Args A).1
    (ArrayConstructorExpr_Create Args A).2 = Some Args.
Proof.
  intros Hfit. pose proof (new_getArguments Args A Hfit) as H.
  unfold getSubscriptList, getCallArguments, getIntrinsicCallArguments,
    getBody, getItems, ArrayElementExpr_Create, CallExpr_Create,
    IntrinsicCallExpr_Create, ImpliedDoExpr_Create, ArrayConstructorExpr_Create.
  destruct (MultiArgumentExpr_new Args A) as [M A'].
  simpl in *. by split_and!.
Qed.

(** The inline and the out-of-line representation, on a call with one and
    with three arguments in an arena that is already in use. *)
Lemma arguments_read_back_witness :
  let A := mkArena {[ 0 := 11; 1 := 12 ]} 2 in
  (getArguments (MultiArgumentExpr_new [7] A).1 (MultiArgumentExpr_new [7] A).2
     = Some [7] ∧
   Storage (MultiArgumentExpr_new [7] A).1 = 7) ∧
  (getCallArguments (CallExpr_Create 5 [7; 8; 9] A).1
     (CallExpr_Create 5 [7; 8; 9] A).2 = Some [7; 8; 9] ∧
   Storage (MultiArgumentExpr_new [7; 8; 9] A).1 = 2).
Proof.
  intros A. split.
  - split; [|reflexivity].
    apply (arguments_read_back [7] A 0 0 0 0 0 0). vm_compute. reflexivity.
  - split; [|reflexivity].
    apply (arguments_read_back [7; 8; 9] A 0 5 0 0 0 0). vm_compute. reflexivity.
Defined.

End MultiArgument.

(** ** The select modifier of diagnostic format strings *)

Section SelectModifier.
Import Diag.
Local Open Scope char_scope.

Local Ltac char_cases c :=
  destruct c as [[|] [|] [|] [|] [|] [|] [|] [|]]; vm_compute;
  intuition congruence.

Lemma lower_starts_specifier c :
  isLower c = true → negb (isDigit c) && negb (isPunctuation c) = true.
Proof. char_cases c. Qed.

Lemma lower_in_specifier c :
  isLower c = true ∨ c = "-" → negb (isDigit c) && negb (Ascii.eqb c "{") = true.
Proof. intros [H| ->]; [revert H; char_cases c|reflexivity]. Qed.

Lemma digit_ends_specifier d :
  isDigit d = true →
  negb (isDigit d) && negb (Ascii.eqb d "{") = false ∧ Ascii.eqb d "{" = false.
Proof. char_cases d. Qed.

Lemma escape_skipped c :
  isDigit c = true ∨ isPunctuation c = true →
  negb (isDigit c) && negb (isPunctuation c) = false.
Proof. intros [H|H]; rewrite H; simpl; [done|by rewrite andb_false_r]. Qed.

(** The inner loop runs over the rest of a modifier up to the digit or the
    opening brace that ends it. *)
Lemma scan_in_specifier (m : chars) (s : ascii) (rest : chars) D T :
  Forall (fun c => isLower c = true ∨ c = "-") m →
  isDigit s = true ∨ s = "{" →
  scan InSpecifier D (m ++ s :: rest) T =
  (length m + S (scan LoopHead (if Ascii.eqb s "{" then D + 1 else D)%N rest T))%nat.
Proof.
  intros Hm Hs. induction Hm as [|c m Hc Hm IH]; simpl.
  - destruct Hs as [Hs| ->].
    + destruct (digit_ends_specifier s Hs) as [-> ->]. done.
    + done.
  - rewrite (lower_in_specifier c Hc). by rewrite IH.
Qed.

Lemma scan_modifier (m : chars) (s : ascii) (rest : chars) D T :
  modifier m → isDigit s = true ∨ s = "{" →
  scan AfterPercent D (m ++ s :: rest) T =
  (length m + S (scan LoopHead (if Ascii.eqb s "{" then D + 1 else D)%N rest T))%nat.
Proof.
  destruct m as [|c m]; [done|]. intros [Hc Hm] Hs. simpl.
  rewrite (lower_starts_specifier c Hc). by rewrite scan_in_specifier.
Qed.

(** Below the top, the text of a braced argument is passed over and leaves
    the depth as it was: nothing in it is taken for the target. *)
Lemma scan_nested (body : chars) :
  nested body → ∀ D rest T, D ≠ 0%N →
  scan LoopHead D (body ++ rest) T = (length body + scan LoopHead D rest T)%nat.
Proof.
  induction 1 as [|c l Hc1 Hc2 _ IH|c l Hc _ IH|m d l Hm Hd _ IH
                  |m body l Hm _ IHb _ IH]; intros D rest T HD.
  - done.
  - simpl. apply N.eqb_neq in HD as HD'. rewrite HD'. simpl.
    apply Ascii.eqb_neq in Hc1, Hc2. rewrite Hc1, Hc2. by rewrite IH.
  - cbn [app scan length]. apply N.eqb_neq in HD as HD'. rewrite HD'.
    cbn [andb negb]. change (Ascii.eqb "%" "}") with false.
    change (Ascii.eqb "%" "%") with true. cbn iota.
    rewrite (escape_skipped c Hc). rewrite IH by done. lia.
  - cbn [app scan length]. apply N.eqb_neq in HD as HD'. rewrite HD'.
    cbn [andb negb]. change (Ascii.eqb "%" "}") with false.
    change (Ascii.eqb "%" "%") with true. cbn iota.
    rewrite <- app_assoc. cbn [app].
    rewrite scan_modifier by auto.
    destruct (digit_ends_specifier d Hd) as [_ ->].
    rewrite IH by done. rewrite !length_app. simpl. lia.
  - cbn [app scan length]. apply N.eqb_neq in HD as HD'. rewrite HD'.
    cbn [andb negb]. change (Ascii.eqb "%" "}") with false.
    change (Ascii.eqb "%" "%") with true. cbn iota.
    rewrite <- app_assoc. cbn [app].
    rewrite scan_modifier by auto.
    change (Ascii.eqb "{" "{") with true. cbn iota.
    rewrite <- app_assoc. rewrite IHb by lia.
    cbn [app scan].
    destruct (N.eqb_spec (D + 1) 0) as [?|_]; [lia|].
    cbn [andb negb]. change (Ascii.eqb "}" "}") with true.
    change (Ascii.eqb "}" "%") with false. cbn iota.
    replace (D + 1 - 1)%N with D by lia.
    rewrite IH by done. rewrite !length_app. simpl. rewrite !length_app. simpl. lia.
Qed.

(** At the top, an alternative is passed over whole. *)
Lemma scan_clause (T : ascii) (l : chars) :
  T ≠ "%" → clause T l → ∀ rest,
  scan LoopHead 0 (l ++ rest) T = (length l + scan LoopHead 0 rest T)%nat.
Proof.
  intros HT. apply Ascii.eqb_neq in HT as HT'. rewrite Ascii.eqb_sym in HT'.
  induction 1 as [|c l Hc1 Hc2 _ IH|c l Hc _ IH|m d l Hm Hd _ IH
                  |m body l Hm Hb _ IH]; intros rest.
  - done.
  - simpl. apply Ascii.eqb_neq in Hc1, Hc2. rewrite Hc1, Hc2. by rewrite IH.
  - cbn [app scan length]. rewrite HT'.
    cbn [andb negb N.eqb]. change (Ascii.eqb "%" "%") with true. cbn iota.
    rewrite (escape_skipped c Hc). rewrite IH. lia.
  - cbn [app scan length]. rewrite HT'.
    cbn [andb negb N.eqb]. change (Ascii.eqb "%" "%") with true. cbn iota.
    rewrite <- app_assoc. cbn [app].
    rewrite scan_modifier by auto.
    destruct (digit_ends_specifier d Hd) as [_ ->].
    rewrite IH. rewrite !length_app. simpl. lia.
  - cbn [app scan length]. rewrite HT'.
    cbn [andb negb N.eqb]. change (Ascii.eqb "%" "%") with true. cbn iota.
    rewrite <- app_assoc. cbn [app].
    rewrite scan_modifier by auto.
    change (Ascii.eqb "{" "{") with true. cbn iota.
    rewrite <- app_assoc. rewrite (scan_nested body Hb) by done.
    cbn [app scan N.add Pos.add N.eqb andb negb].
    change (Ascii.eqb "}" "}") with true.
    change (Ascii.eqb "}" "%") with false. cbn iota.
    change (1 - 1)%N with 0%N.
    rewrite IH. rewrite !length_app. simpl. rewrite !length_app. simpl. lia.
Qed.

(** The depth counter of [ScanFormat] does not wrap around on a range that
    an [unsigned] length can describe. *)
Lemma ScanFormat_from_scan pt D (l : chars) T :
  (D + N.of_nat (length l) < UINT_RANGE)%N →
  ScanFormat_from pt D l T = scan pt D l T.
Proof.
  revert pt D. induction l as [|c l IH]; intros pt D Hb; [done|].
  simpl in Hb. destruct pt; simpl.
  - destruct ((D =? 0)%N && Ascii.eqb c T); [done|].
    destruct (negb (D =? 0)%N && Ascii.eqb c "}");
      destruct (Ascii.eqb c "%"); rewrite IH; (done || lia).
  - destruct (negb (isDigit c) && negb (isPunctuation c));
      rewrite IH; (done || lia).
  - destruct (negb (isDigit c) && negb (Ascii.eqb c "{")).
    + rewrite IH; (done || lia).
    + destruct (Ascii.eqb c "{").
      * rewrite N.mod_small by lia. rewrite IH; (done || lia).
      * rewrite IH; (done || lia).
Qed.

Lemma ScanFormat_separator (a rest : chars) :
  clause "|" a → (N.of_nat (length (a ++ "|" :: rest)) < UINT_RANGE)%N →
  ScanFormat (a ++ "|" :: rest) "|" = length a.
Proof.
  intros Ha Hb. unfold ScanFormat. rewrite ScanFormat_from_scan by lia.
  rewrite scan_clause by done. simpl. lia.
Qed.

Lemma ScanFormat_end (a : chars) :
  clause "|" a → (N.of_nat (length a) < UINT_RANGE)%N →
  ScanFormat a "|" = length a.
Proof.
  intros Ha Hb. unfold ScanFormat. rewrite ScanFormat_from_scan by lia.
  rewrite <- (app_nil_r a) at 1. rewrite scan_clause by done. simpl. lia.
Qed.

Lemma join_cons (a : chars) (alts : list chars) :
  alts ≠ [] → join (a :: alts) = a ++ "|" :: join alts.
Proof. by destruct alts. Qed.

Lemma join_drop_length (n : nat) (l : list chars) :
  (length (join (drop n l)) ≤ length (join l))%nat.
Proof.
  revert n. induction l as [|x l IHl]; intros [|n]; try (simpl; lia).
  change (drop (S n) (x :: l)) with (drop n l).
  destruct l as [|y l].
  - destruct n; simpl; lia.
  - rewrite (join_cons x) by done. rewrite length_app. cbn [length].
    specialize (IHl n). lia.
Qed.

(** The first loop of [HandleSelectModifier] arrives at the start of the
    alternative with the number it was given. *)
Lemma skip_alternatives_join (K : nat) (alts : list chars) :
  Forall (clause "|") alts → (K < length alts)%nat →
  (N.of_nat (length (join alts)) < UINT_RANGE)%N →
  skip_alternatives K (join alts) = Some (join (drop K alts)).
Proof.
  revert alts. induction K as [|K IH]; intros alts Hall HK Hb; [done|].
  destruct alts as [|a alts]; [simpl in HK; lia|].
  assert (Hne : alts ≠ []) by (destruct alts; [simpl in HK; lia|done]).
  rewrite join_cons in Hb |- * by done.
  apply Forall_cons in Hall as [Ha Hall].
  cbn [skip_alternatives]. rewrite (ScanFormat_separator a _ Ha Hb).
  rewrite length_app in Hb |- *. cbn [length] in Hb |- *.
  destruct (Nat.eqb_spec (length a) (length a + S (length (join alts))));
    [lia|].
  replace (drop (S (length a)) (a ++ "|" :: join alts)) with (join alts).
  2:{ change (a ++ "|" :: join alts) with (a ++ ["|"] ++ join alts).
      rewrite app_assoc. rewrite drop_app_length'; [done|].
      rewrite length_app. simpl. lia. }
  simpl in HK. rewrite IH; [done|done|lia|lia].
Qed.

Section Formatter.

(** The formatter of the diagnostic, whatever it does with a range. *)
Variable FormatDiagnostic : chars → chars → option chars.

(** C8.  In the argument of a select modifier made of alternatives separated
    by bars (each alternative free text, escapes and placeholders, the
    placeholders with their own braced arguments), the value [K] below the
    number of alternatives formats exactly alternative [K], counted from 0:
    the bars inside nested braces and the escaped characters are passed over
    by the scan for the separators.  The argument is as long as its
    [unsigned] length can say. *)
Theorem select_formats_alternative
    (alts : list chars) (K : nat) (a OutStr : chars) :
  Forall (clause "|") alts →
  alts !! K = Some a →
  (N.of_nat (length (join alts)) < UINT_RANGE)%N →
  HandleSelectModifier FormatDiagnostic (N.of_nat K) (join alts) OutStr
  = FormatDiagnostic a OutStr.
Proof.
  intros Hall HK Hb. unfold HandleSelectModifier. rewrite Nat2N.id.
  assert (HKlt : (K < length alts)%nat) by (by eapply lookup_lt_Some).
  rewrite skip_alternatives_join by done.
  pose proof (join_drop_length K alts) as Hle.
  rewrite (drop_S _ _ _ HK) in Hle |- *.
  assert (Ha : clause "|" a).
  { eapply Forall_lookup_1 in Hall; [|exact HK]. done. }
  destruct (drop (S K) alts) as [|b rest] eqn:Hd.
  - simpl in Hle |- *. rewrite ScanFormat_end by (done || lia).
    by rewrite firstn_all.
  - rewrite join_cons in Hle |- * by done.
    rewrite ScanFormat_separator by (done || lia).
    by rewrite take_app_length.
Qed.

End Formatter.

(** The scan on a nested select, and on a percent sign before a bar: the bar
    is not a punctuation character of [isPunctuation], so the percent sign
    opens a specifier and the scan runs on to the end of the range. *)
Example ScanFormat_runs :
  ScanFormat (String.list_ascii_of_string "a%select{x|y}1|b%:c|%s0"%string) "|"
    = 14%nat ∧
  ScanFormat (String.list_ascii_of_string "b%:c|%s0"%string) "|" = 4%nat ∧
  ScanFormat (String.list_ascii_of_string "a%|b|c"%string) "|" = 6%nat.
Proof. split_and!; reflexivity. Qed.

(** The second of three alternatives, the first with a nested select whose
    own bar is inside braces, the second with an escaped colon. *)
Lemma select_formats_alternative_witness :
  let raw := fun a OutStr : chars => Some (OutStr ++ a) in
  HandleSelectModifier raw 1
    (String.list_ascii_of_string "a%select{x|y}1|b%:c|%s0"%string) []
  = Some (String.list_ascii_of_string "b%:c"%string).
Proof.
  intros raw.
  apply (select_formats_alternative raw
           [String.list_ascii_of_string "a%select{x|y}1"%string;
            String.list_ascii_of_string "b%:c"%string;
            String.list_ascii_of_string "%s0"%string] 1 (String.list_ascii_of_string "b%:c"%string) []).
  - repeat apply Forall_cons_2; [| | |apply Forall_nil_2].
    + apply clause_char; [done|done|].
      apply (clause_braces "|" (String.list_ascii_of_string "select"%string)
               (String.list_ascii_of_string "x|y"%string) ["1"]).
      * split; [reflexivity|]. repeat constructor.
      * repeat (apply nested_char; [done|done|]). apply nested_nil.
      * apply clause_char; [done|done|]. apply clause_nil.
    + apply clause_char; [done|done|].
      apply clause_escape; [right; reflexivity|].
      apply clause_char; [done|done|]. apply clause_nil.
    + apply (clause_plain "|" ["s"] "0" []);
        [split; [reflexivity|constructor]|reflexivity|apply clause_nil].
  - reflexivity.
  - vm_compute. reflexivity.
Defined.

End SelectModifier.

(** ** Declarations and scopes *)

Section Scopes.
Import Sema.
Local Open Scope string_scope.
Local Open Scope list_scope.
Local Open Scope stdpp_scope.

Implicit Types (st : Sema) (n : IdentifierInfo) (c p : DeclPtr).

(** *** The actions in closed form *)

Local Ltac unfold_monad :=
  unfold PushDeclContext, PopDeclContext, getContainingDC, getParent, node,
    addDecl, getFETokenInfo, setFETokenInfo, ReportError, HandleDiagnostic,
    Create, setCurContext, deref, gets, assert, abort, bind, ret.

Lemma PushDeclContext_eq DC st :
  PushDeclContext DC st =
  match Decls st !! DC with
  | Some D =>
      if isDeclContext D && bool_decide (getDeclContext D = CurContext st)
      then Some (tt, with_context st (Some DC))
      else None
  | None => None
  end.
Proof.
  unfold_monad. destruct (Decls st !! DC) as [D|]; [|done].
  destruct (isDeclContext D); [|done]. simpl.
  by destruct (bool_decide (getDeclContext D = CurContext st)).
Qed.

Lemma PopDeclContext_eq st :
  PopDeclContext st =
  match CurContext st with
  | Some c =>
      match Decls st !! c with
      | Some D =>
          if isDeclContext D then
            match getDeclContext D with
            | Some p => Some (tt, with_context st (Some p))
            | None => None
            end
          else None
      | None => None
      end
  | None => None
  end.
Proof.
  unfold_monad. destruct (CurContext st) as [c|]; [|done].
  destruct (Decls st !! c) as [D|]; [|done].
  destruct (isDeclContext D); [|done]. simpl.
  by destruct (getDeclContext D).
Qed.

Lemma ActOnMainProgram_eq ID L st :
  ActOnMainProgram ID L st =
  if bool_decide (Some TUDecl = CurContext st)
  then Some (tt, with_context (with_new st (MainProgramDecl (Some TUDecl) ID L))
                   (Some (length (Decls st))))
  else None.
Proof.
  unfold ActOnMainProgram, bind at 1, Create. rewrite PushDeclContext_eq. simpl.
  rewrite lookup_app_r, Nat.sub_diag by done. simpl.
  by destruct (bool_decide (Some TUDecl = CurContext st)).
Qed.

Lemma ActOnEndMainProgram_eq ID L st :
  ActOnEndMainProgram ID L st =
  match CurContext st with
  | Some c =>
      match Decls st !! c with
      | Some (MainProgramDecl DC Name _) =>
          match DC with
          | Some p =>
              Some (tt,
                    with_context
                      (with_diags st
                         (match ID with
                          | Some id =>
                              if negb (String.eqb (getName Name) "")
                                 && negb (String.eqb (getName Name) id)
                              then [end_name_diag L (getName Name)]
                              else []
                          | None => []
                          end))
                      (Some p))
          | None => None
          end
      | _ => None
      end
  | None => None
  end.
Proof.
  unfold ActOnEndMainProgram. unfold node, gets, deref, bind at 1 2 3 4, ret.
  destruct (CurContext st) as [c|] eqn:Hc; [|done]. simpl.
  destruct (Decls st !! c) as [D|] eqn:HD; [|done]. simpl.
  destruct D as [|DC Name NL| | |]; try done.
  assert (Hpop : ∀ ds, PopDeclContext (with_diags st ds) =
    match DC with
    | Some p => Some (tt, with_context (with_diags st ds) (Some p))
    | None => None
    end).
  { intros ds. rewrite PopDeclContext_eq. simpl. by rewrite Hc, HD. }
  assert (Hst : with_diags st [] = st).
  { unfold with_diags. rewrite app_nil_r. by destruct st. }
  destruct (String.eqb (getName Name) "") eqn:Hempty; simpl.
  { rewrite <- Hst at 1. rewrite Hpop. by destruct ID. }
  destruct ID as [id|].
  - unfold bind, ReportError, HandleDiagnostic, ret.
    destruct (String.eqb (getName Name) id); simpl.
    + rewrite <- Hst at 1. by rewrite Hpop.
    + apply Hpop.
  - rewrite <- Hst at 1. by rewrite Hpop.
Qed.

(** The shared tail of the declaring actions: create, add to the context,
    bind the name. *)
Lemma declare_eq {A} (Cur : option DeclPtr) (D : Decl) n (k : DeclPtr → A) st :
  (VD <- Create D ;; addDecl Cur VD ;;; setFETokenInfo n VD ;;; ret (k VD)) st =
  match Cur with
  | Some c => Some (k (length (Decls st)), declared st c D n)
  | None => None
  end.
Proof. unfold_monad. by destruct Cur. Qed.

Lemma ActOnEntityDecl_eq DS L n st :
  ActOnEntityDecl DS L n st =
  let declare :=
    match CurContext st with
    | Some c =>
        Some (Some (length (Decls st)),
              declared st c (VarDecl (Some c) L n (ActOnTypeName DS)) n)
    | None => None
    end in
  match FETokenInfo st !! n with
  | Some Prev =>
      match Decls st !! Prev with
      | Some P =>
          if bool_decide (getDeclContext P = CurContext st)
          then Some (None,
                     with_diags st
                       (clash_diags L n "declared" (getLocation P)
                          "previous declaration"))
          else declare
      | None => None
      end
  | None => declare
  end.
Proof.
  unfold ActOnEntityDecl. unfold getFETokenInfo, gets, bind at 1 2. simpl.
  assert (Hdecl : ∀ Cur,
    (VD <- Create (VarDecl Cur L n (ActOnTypeName DS)) ;;
     addDecl Cur VD ;;; setFETokenInfo n VD ;;; ret (Some VD)) st =
    match Cur with
    | Some c => Some (Some (length (Decls st)),
                      declared st c (VarDecl (Some c) L n (ActOnTypeName DS)) n)
    | None => None
    end).
  { intros Cur. rewrite (declare_eq Cur _ n Some). by destruct Cur. }
  destruct (FETokenInfo st !! n) as [Prev|]; [|apply Hdecl].
  unfold node, gets, deref, bind at 1 2. simpl.
  destruct (Decls st !! Prev) as [P|]; [|done]. simpl.
  destruct (bool_decide (getDeclContext P = CurContext st)); [|apply Hdecl].
  unfold_monad. unfold with_diags, clash_diags. simpl.
  by rewrite <- app_assoc.
Qed.

Lemma ActOnPARAMETERPair_eq L n CE st :
  ActOnPARAMETERPair L n CE st =
  match FETokenInfo st !! n with
  | Some Prev =>
      match Decls st !! Prev with
      | Some P =>
          Some ((None, None),
                with_diags st
                  (clash_diags L n "defined" (getLocation P)
                     "previous definition"))
      | None => None
      end
  | None =>
      match CE, CurContext st with
      | Some E, Some c =>
          Some ((Some n, CE),
                declared st c (VarDecl (Some c) L n (getType E)) n)
      | _, _ => None
      end
  end.
Proof.
  unfold ActOnPARAMETERPair. unfold getFETokenInfo, gets, bind at 1. simpl.
  destruct (FETokenInfo st !! n) as [Prev|].
  - unfold_monad. simpl. destruct (Decls st !! Prev) as [P|]; [|done]. simpl.
    unfold with_diags, clash_diags. simpl. by rewrite <- app_assoc.
  - destruct CE as [E|]; [|done]. unfold deref, bind at 1 2, ret, gets.
    rewrite (declare_eq (CurContext st) _ n (fun _ => (Some n, Some E))).
    by destruct (CurContext st).
Qed.

Lemma ActOnKindSelector_eq L n st :
  ActOnKindSelector L n st =
  match CurContext st with
  | Some c => Some (length (Decls st), declared st c (VarDecl (Some c) L n NullTy) n)
  | None => None
  end.
Proof.
  unfold ActOnKindSelector. unfold gets, bind at 1.
  rewrite (declare_eq (CurContext st) _ n id). by destruct (CurContext st).
Qed.

Lemma ActOnDerivedTypeDecl_eq L NL n st :
  ActOnDerivedTypeDecl L NL n st =
  match CurContext st with
  | Some c =>
      Some (length (Decls st),
            with_context (with_decl st c (RecordDecl (Some c) L NL n))
              (Some (length (Decls st))))
  | None => None
  end.
Proof.
  unfold ActOnDerivedTypeDecl. unfold gets, Create, addDecl, deref, ret,
    bind at 1 2 3 4. simpl.
  destruct (CurContext st) as [c|] eqn:Hc; [|done]. simpl.
  unfold bind. rewrite PushDeclContext_eq. simpl.
  rewrite lookup_app_r, Nat.sub_diag by done. simpl.
  by rewrite bool_decide_eq_true_2.
Qed.

Lemma ActOnDerivedTypeFieldDecl_eq DS L n Init st :
  ActOnDerivedTypeFieldDecl DS L n Init st =
  match CurContext st with
  | Some c =>
      Some (length (Decls st),
            with_decl st c (FieldDecl (Some c) L n (ActOnTypeName DS)))
  | None => None
  end.
Proof.
  unfold ActOnDerivedTypeFieldDecl. unfold_monad. simpl.
  destruct (CurContext st) eqn:Hc; [|done]. simpl. unfold with_decl.
  by rewrite Hc.
Qed.

(** *** The invariant *)

Lemma wf_Sema_new : wf Sema_new.
Proof.
  split; simpl.
  - done.
  - by intros [|p] ????.
  - intros [|c] D p H; simpl in H; [|done]. by simplify_eq.
  - intros n p H. by rewrite lookup_empty in H.
  - done.
Qed.

Lemma is_context_app Ds new c : is_context Ds c → is_context (Ds ++ new) c.
Proof.
  intros (D & HD & Hc). exists D. split; [by apply lookup_app_l_Some|done].
Qed.

(** The invariant does not look at the declaration lists or the diagnostics,
    and survives a change of tokens and current context that stays within
    the declarations. *)
Lemma wf_same_decls st st' :
  wf st → Decls st' = Decls st →
  (∀ n p, FETokenInfo st' !! n = Some p → FETokenInfo st !! n = Some p) →
  (∀ c, CurContext st' = Some c → is_context (Decls st) c) →
  wf st'.
Proof.
  intros [HTU Hmain Hpar Htok Hcur] HD Htok' Hcur'.
  split; rewrite HD; eauto.
Qed.

(** Adding one declaration. *)
Lemma wf_add_decl st st' D :
  wf st → Decls st' = Decls st ++ [D] → node_ok (Decls st) D →
  (∀ n p, FETokenInfo st' !! n = Some p →
     FETokenInfo st !! n = Some p ∨
     (p = length (Decls st) ∧ ∃ DC L T, D = VarDecl DC L n T)) →
  (∀ c, CurContext st' = Some c →
     CurContext st = Some c ∨ (c = length (Decls st) ∧ isDeclContext D = true)) →
  wf st'.
Proof.
  intros [HTU Hmain Hpar Htok Hcur] HD Hok Htok' Hcur'.
  assert (Hnew : (Decls st ++ [D]) !! length (Decls st) = Some D).
  { by rewrite lookup_app_r, Nat.sub_diag. }
  split; rewrite HD.
  - by apply lookup_app_l_Some.
  - intros p DC Name L Hp.
    apply lookup_app_Some in Hp as [Hp|[_ Hp]]; [by eapply Hmain|].
    apply list_lookup_singleton_Some in Hp as [_ ->]. exact Hok.
  - intros c D' p Hc Hctx Hp. apply is_context_app.
    apply lookup_app_Some in Hc as [Hc|[_ Hc]]; [by eapply Hpar|].
    apply list_lookup_singleton_Some in Hc as [_ <-].
    destruct D; simpl in *; try done; simplify_eq; eauto.
    exists TranslationUnitDecl. done.
  - intros n p Hp. destruct (Htok' _ _ Hp) as [Hold|[-> (DC & L & T & ->)]].
    + destruct (Htok _ _ Hold) as (DC & L & T & Hd).
      exists DC, L, T. by apply lookup_app_l_Some.
    + by exists DC, L, T.
  - intros c Hc. destruct (Hcur' _ Hc) as [Hold|[-> HDc]].
    + apply is_context_app. by apply Hcur.
    + by exists D.
Qed.

Lemma wf_with_diags st ds : wf st → wf (with_diags st ds).
Proof.
  intros Hwf. apply (wf_same_decls st); [done..|]. intros c. apply (wf_cur _ Hwf).
Qed.

Lemma wf_with_context st DC :
  wf st → (∀ c, DC = Some c → is_context (Decls st) c) → wf (with_context st DC).
Proof. intros Hwf HDC. by apply (wf_same_decls st). Qed.

Lemma wf_with_new st D : wf st → node_ok (Decls st) D → wf (with_new st D).
Proof. intros Hwf HD. apply (wf_add_decl st _ D); simpl; auto. Qed.

Lemma wf_with_decl st c D : wf st → node_ok (Decls st) D → wf (with_decl st c D).
Proof. intros Hwf HD. apply (wf_add_decl st _ D); simpl; auto. Qed.

Lemma wf_declared st c DC L n T :
  wf st → wf (declared st c (VarDecl DC L n T) n).
Proof.
  intros Hwf. apply (wf_add_decl st _ (VarDecl DC L n T)); simpl; auto.
  intros n' p Hp. apply lookup_insert_Some in Hp as [[<- <-]|[_ Hp]]; eauto 6.
Qed.

Lemma wf_PopDeclContext st u st' :
  wf st → PopDeclContext st = Some (u, st') → wf st'.
Proof.
  intros Hwf. rewrite PopDeclContext_eq.
  destruct (CurContext st) as [c|]; [|done].
  destruct (Decls st !! c) as [D|] eqn:HD; [|done].
  destruct (isDeclContext D) eqn:Hctx; [|done].
  destruct (getDeclContext D) as [p|] eqn:Hp; [|done].
  intros [= _ <-]. apply wf_with_context; [done|].
  intros ? [= <-]. by eapply (wf_parent _ Hwf).
Qed.

Lemma wf_ActOnEntityDecl DS L n st r st' :
  wf st → ActOnEntityDecl DS L n st = Some (r, st') → wf st'.
Proof.
  intros Hwf. rewrite ActOnEntityDecl_eq. cbv zeta.
  repeat case_match; intros [= _ <-];
    auto using wf_with_diags, wf_declared.
Qed.

(** Every action keeps the invariant. *)
Lemma wf_perform a st st' : wf st → perform a st = Some st' → wf st'.
Proof.
  intros Hwf. destruct a; unfold perform, state_after.
  - unfold ActOnTranslationUnit. rewrite PushDeclContext_eq.
    destruct (Decls st !! TUDecl) as [D|] eqn:HD; [|done].
    destruct (isDeclContext D) eqn:Hctx; [|done]. simpl.
    case_bool_decide; [|done]. intros [= <-].
    apply wf_with_context; [done|]. intros ? [= <-]. by exists D.
  - unfold ActOnEndProgramUnit.
    destruct (PopDeclContext st) as [[u s]|] eqn:Hpop; [|done].
    intros [= <-]. by eapply wf_PopDeclContext.
  - rewrite ActOnMainProgram_eq. case_bool_decide; [|done]. intros [= <-].
    apply wf_with_context; [by apply wf_with_new|].
    intros ? [= <-]. exists (MainProgramDecl (Some TUDecl) IDInfo NameLoc).
    split; [|done]. simpl. by rewrite lookup_app_r, Nat.sub_diag.
  - rewrite ActOnEndMainProgram_eq.
    destruct (CurContext st) as [c|]; [|done].
    destruct (Decls st !! c) as [[|DC Name NL| | |]|] eqn:HD; try done.
    destruct DC as [p|]; [|done]. intros [= <-].
    apply wf_with_context; [by apply wf_with_diags|].
    intros ? [= <-]. simpl. by eapply (wf_parent _ Hwf).
  - rewrite ActOnKindSelector_eq. destruct (CurContext st); [|done].
    intros [= <-]. by apply wf_declared.
  - destruct (ActOnEntityDecl DS IDLoc IDInfo st) as [[r s]|] eqn:Hact; [|done].
    intros [= <-]. by eapply wf_ActOnEntityDecl.
  - unfold ActOnImplicitEntityDecl.
    match goal with
    | |- context [ActOnEntityDecl ?DS ?L ?n st] =>
        destruct (ActOnEntityDecl DS L n st) as [[r s]|] eqn:Hact; [|done]
    end.
    intros [= <-]. by eapply wf_ActOnEntityDecl.
  - by intros [= <-].
  - by intros [= <-].
  - rewrite ActOnPARAMETERPair_eq.
    destruct (FETokenInfo st !! IDInfo) as [Prev|].
    + destruct (Decls st !! Prev) as [P|]; [|done]. intros [= <-].
      by apply wf_with_diags.
    + destruct CE as [E|], (CurContext st) as [c|]; try done. intros [= <-].
      by apply wf_declared.
  - rewrite ActOnDerivedTypeDecl_eq.
    destruct (CurContext st) as [c|] eqn:Hc; [|done]. intros [= <-].
    apply wf_with_context.
    + apply wf_with_decl; [done|]. intros ? [= <-]. by apply (wf_cur _ Hwf).
    + intros ? [= <-]. exists (RecordDecl (Some c) Loc NameLoc IDInfo).
      split; [|done]. simpl. by rewrite lookup_app_r, Nat.sub_diag.
  - rewrite ActOnDerivedTypeFieldDecl_eq.
    destruct (CurContext st) as [c|] eqn:Hc; [|done]. intros [= <-].
    by apply wf_with_decl.
  - unfold ActOnEndDerivedTypeDecl.
    destruct (PopDeclContext st) as [[u s]|] eqn:Hpop; [|done].
    intros [= <-]. by eapply wf_PopDeclContext.
Qed.

Lemma wf_run acts st st' : wf st → run acts st = Some st' → wf st'.
Proof.
  revert st. induction acts as [|a acts IH]; intros st Hwf; simpl.
  - by intros [= <-].
  - destruct (perform a st) as [s|] eqn:Hp; [|done].
    apply IH. by eapply wf_perform.
Qed.

(** Every state the analyzer can be in satisfies the invariant. *)
Lemma reachable_wf st : reachable st → wf st.
Proof. intros [acts Hrun]. eapply wf_run; [apply wf_Sema_new|done]. Qed.

Lemma reachable_perform a st st' :
  reachable st → perform a st = Some st' → reachable st'.
Proof.
  intros [acts Hrun] Hp. exists (acts ++ [a]).
  revert Hrun. generalize Sema_new. induction acts as [|b acts IH]; intros s; simpl.
  - intros [= ->]. by rewrite Hp.
  - destruct (perform b s); [apply IH|done].
Qed.

(** *** Implicit typing *)

Lemma implicit_letter_test (c0 : ascii) :
  (N_of_ascii "I" <=? N_of_ascii (toupper c0))%N
  && (N_of_ascii (toupper c0) <=? N_of_ascii "N")%N
  = bool_decide (c0 ∈ ["I"; "J"; "K"; "L"; "M"; "N";
                       "i"; "j"; "k"; "l"; "m"; "n"]%char).
Proof.
  destruct c0 as [[|] [|] [|] [|] [|] [|] [|] [|]]; vm_compute; reflexivity.
Qed.

Lemma implicit_type n :
  ActOnTypeName
    (if (N_of_ascii "I" <=? N_of_ascii (toupper (getNameStart0 n)))%N
        && (N_of_ascii (toupper (getNameStart0 n)) <=? N_of_ascii "N")%N
     then SetTypeSpecType DeclSpec_default TST_integer
     else SetTypeSpecType DeclSpec_default TST_real)
  = if first_letter_I_to_N n then IntegerTy else RealTy.
Proof.
  destruct n as [|c0 n]; [done|]. simpl.
  rewrite implicit_letter_test.
  by destruct (bool_decide _).
Qed.

(** An entity declaration for a name that has no visible declaration in the
    current context. *)
Lemma ActOnEntityDecl_new DS L n st c :
  wf st → CurContext st = Some c → declared_here st n = false →
  ActOnEntityDecl DS L n st =
  Some (Some (length (Decls st)),
        declared st c (VarDecl (Some c) L n (ActOnTypeName DS)) n).
Proof.
  intros Hwf Hc Hundecl. rewrite ActOnEntityDecl_eq. cbv zeta.
  unfold declared_here in Hundecl. rewrite Hc.
  destruct (FETokenInfo st !! n) as [Prev|] eqn:Htok; [|done].
  destruct (wf_token _ Hwf _ _ Htok) as (DC & L' & T & HP).
  rewrite HP in Hundecl |- *. rewrite Hc in Hundecl. by rewrite Hundecl.
Qed.

Lemma declared_node st c D n :
  Decls (declared st c D n) !! length (Decls st) = Some D.
Proof. simpl. by rewrite lookup_app_r, Nat.sub_diag. Qed.

(** C2.  A reference to an identifier that has no visible declaration in the
    current scope creates a variable declaration of default integer type when
    the first letter of the identifier is one of I to N, in either case, and
    of default real type for every other first letter; the declaration is
    made in the current context, the name is bound to it, and no diagnostic
    is emitted. *)
Theorem implicit_entity_decl_type st L n c :
  reachable st → CurContext st = Some c → declared_here st n = false →
  ∃ vd st',
    ActOnImplicitEntityDecl L n st = Some (Some vd, st') ∧
    Decls st' !! vd =
      Some (VarDecl (Some c) L n
              (if first_letter_I_to_N n then IntegerTy else RealTy)) ∧
    lookup st' n = Some vd ∧
    Diags st' = Diags st.
Proof.
  intros Hreach Hc Hundecl. apply reachable_wf in Hreach.
  unfold ActOnImplicitEntityDecl. cbv zeta.
  rewrite (ActOnEntityDecl_new _ L n st c) by done.
  rewrite implicit_type.
  eexists _, _. split; [done|]. split_and!.
  - apply declared_node.
  - unfold lookup. simpl. apply lookup_insert_eq.
  - done.
Qed.

(** The two references of the program [i = 1; x = 1.0]. *)
Lemma implicit_entity_decl_type_witness :
  (∃ vd st',
     ActOnImplicitEntityDecl 7 "i" (after in_program) = Some (Some vd, st') ∧
     Decls st' !! vd = Some (VarDecl (Some 1%nat) 7 "i" IntegerTy) ∧
     lookup st' "i" = Some vd ∧ Diags st' = Diags (after in_program)) ∧
  (∃ vd st',
     ActOnImplicitEntityDecl 8 "x" (after in_program) = Some (Some vd, st') ∧
     Decls st' !! vd = Some (VarDecl (Some 1%nat) 8 "x" RealTy) ∧
     lookup st' "x" = Some vd ∧ Diags st' = Diags (after in_program)).
Proof.
  split.
  - apply (implicit_entity_decl_type (after in_program) 7 "i" 1%nat).
    + exists in_program. reflexivity.
    + reflexivity.
    + reflexivity.
  - apply (implicit_entity_decl_type (after in_program) 8 "x" 1%nat).
    + exists in_program. reflexivity.
    + reflexivity.
    + reflexivity.
Defined.

(** *** Entity declarations *)

Lemma declared_here_true st n :
  declared_here st n = true →
  ∃ Prev P, lookup st n = Some Prev ∧ Decls st !! Prev = Some P ∧
            getDeclContext P = CurContext st.
Proof.
  unfold declared_here, lookup.
  destruct (FETokenInfo st !! n) as [Prev|]; [|done].
  destruct (Decls st !! Prev) as [P|] eqn:HP; [|done].
  intros H%bool_decide_eq_true. by exists Prev, P.
Qed.

(** C4.  An entity declaration for a name whose visible declaration lies in
    the current declaration context returns the null result and reports an
    error at the new site followed by a note at the prior declaration; no
    declaration is created, the declarations of every context and the
    binding of the name stay as they were. *)
Theorem redeclaration_rejected st DS L n :
  declared_here st n = true →
  ∃ Prev P st',
    lookup st n = Some Prev ∧ Decls st !! Prev = Some P ∧
    ActOnEntityDecl DS L n st = Some (None, st') ∧
    Diags st' = Diags st ++
      [mkDiagnostic Error L ("variable '" +:+ n +:+ "' already declared");
       mkDiagnostic Note (getLocation P) "previous declaration"] ∧
    Decls st' = Decls st ∧ DeclLists st' = DeclLists st ∧
    lookup st' n = Some Prev ∧ CurContext st' = CurContext st.
Proof.
  intros (Prev & P & Htok & HP & Hctx)%declared_here_true.
  exists Prev, P,
    (with_diags st
       (clash_diags L n "declared" (getLocation P) "previous declaration")).
  split_and!; try done.
  rewrite ActOnEntityDecl_eq. cbv zeta. unfold lookup in Htok.
  rewrite Htok, HP. by rewrite bool_decide_eq_true_2.
Qed.

(** [INTEGER I] followed by [REAL I]. *)
Lemma redeclaration_rejected_witness :
  let st := after (in_program ++ [EntityDecl DS_integer 2 "I"]) in
  declared_here st "I" = true ∧
  ∃ Prev P st',
    lookup st "I" = Some Prev ∧ Decls st !! Prev = Some P ∧
    ActOnEntityDecl DS_real 3 "I" st = Some (None, st') ∧
    Diags st' = Diags st ++
      [mkDiagnostic Error 3 ("variable '" +:+ "I" +:+ "' already declared");
       mkDiagnostic Note (getLocation P) "previous declaration"] ∧
    Decls st' = Decls st ∧ DeclLists st' = DeclLists st ∧
    lookup st' "I" = Some Prev ∧ CurContext st' = CurContext st.
Proof.
  intros st. split; [reflexivity|].
  apply (redeclaration_rejected st DS_real 3 "I"). reflexivity.
Defined.

(** C10.  An entity declaration for a name whose prior binding belongs to
    another declaration context than the current one succeeds without any
    diagnostic: a new declaration of the declared type is created, added to
    the current context, and the front-end token of the name is rebound to
    it. *)
Theorem shadowing_across_contexts st DS L n c Prev P :
  reachable st → CurContext st = Some c →
  lookup st n = Some Prev → Decls st !! Prev = Some P →
  getDeclContext P ≠ CurContext st →
  ∃ vd st',
    ActOnEntityDecl DS L n st = Some (Some vd, st') ∧
    Diags st' = Diags st ∧
    vd ≠ Prev ∧
    Decls st' !! vd = Some (VarDecl (Some c) L n (ActOnTypeName DS)) ∧
    decls_of st' c = decls_of st c ++ [vd] ∧
    lookup st' n = Some vd.
Proof.
  intros Hreach Hc Htok HP Hctx. apply reachable_wf in Hreach.
  exists (length (Decls st)). eexists. split_and!.
  - apply ActOnEntityDecl_new; [done..|].
    unfold declared_here. unfold lookup in Htok. rewrite Htok, HP.
    by apply bool_decide_eq_false_2.
  - done.
  - apply lookup_lt_Some in HP. lia.
  - apply declared_node.
  - unfold decls_of at 1. simpl. by rewrite lookup_insert_eq.
  - unfold lookup. simpl. apply lookup_insert_eq.
Qed.

(** A second program unit declares the [X] of the first again. *)
Lemma shadowing_across_contexts_witness :
  let st := after (in_program ++
                   [EntityDecl DS_integer 2 "X"; EndMainProgram None 3;
                    MainProgram (Some "Q") 4]) in
  ∃ vd st',
    ActOnEntityDecl DS_real 5 "X" st = Some (Some vd, st') ∧
    Diags st' = Diags st ∧
    vd ≠ 2%nat ∧
    Decls st' !! vd = Some (VarDecl (Some 3%nat) 5 "X" (ActOnTypeName DS_real)) ∧
    decls_of st' 3%nat = decls_of st 3%nat ++ [vd] ∧
    lookup st' "X" = Some vd.
Proof.
  intros st.
  apply (shadowing_across_contexts st DS_real 5 "X" 3%nat 2%nat
           (VarDecl (Some 1%nat) 2 "X" IntegerTy)).
  - exists (in_program ++
            [EntityDecl DS_integer 2 "X"; EndMainProgram None 3;
             MainProgram (Some "Q") 4]).
    reflexivity.
  - reflexivity.
  - reflexivity.
  - reflexivity.
  - vm_compute. discriminate.
Defined.

(** *** The end of the main program *)

Lemma with_diags_same st ds : Diags (with_diags st ds) = Diags st ↔ ds = [].
Proof.
  simpl. split; [|intros ->; by rewrite app_nil_r].
  intros H. apply (f_equal length) in H. rewrite length_app in H.
  destruct ds; [done|]. simpl in H. lia.
Qed.

(** C9.  With the main program as the current context, the end-main-program
    action returns with the translation unit as the current context.  It
    emits a diagnostic, the error at the name of the END statement, exactly
    when the program has a non-empty name, the END statement carries an
    identifier and the two names differ; without an identifier on the END
    statement nothing is emitted. *)
Theorem end_main_program st c DC Name NL ID L :
  reachable st → CurContext st = Some c →
  Decls st !! c = Some (MainProgramDecl DC Name NL) →
  ∃ st',
    ActOnEndMainProgram ID L st = Some (tt, st') ∧
    CurContext st' = Some TUDecl ∧
    (Diags st' = Diags st ∨
     Diags st' = Diags st ++ [end_name_diag L (getName Name)]) ∧
    (Diags st' ≠ Diags st ↔
     getName Name ≠ "" ∧ ∃ id, ID = Some id ∧ id ≠ getName Name) ∧
    (ID = None → Diags st' = Diags st).
Proof.
  intros Hreach Hc HD. apply reachable_wf in Hreach.
  pose proof (wf_main _ Hreach _ _ _ _ HD) as ->.
  rewrite ActOnEndMainProgram_eq, Hc, HD.
  eexists. split; [done|]. split; [done|].
  set (ds := match ID with Some id => _ | None => _ end).
  change (Diags (with_context (with_diags st ds) (Some TUDecl)))
    with (Diags (with_diags st ds)).
  assert (Hds : (ds = [] ∨ ds = [end_name_diag L (getName Name)]) ∧
    (ds ≠ [] ↔ getName Name ≠ "" ∧ ∃ id, ID = Some id ∧ id ≠ getName Name) ∧
    (ID = None → ds = [])).
  { subst ds. destruct ID as [id|].
    - destruct (String.eqb_spec (getName Name) "") as [He|He];
        destruct (String.eqb_spec (getName Name) id) as [Hi|Hi]; simpl.
      + split; [by left|]. split; [|done]. split; [done|]. by intros [? _].
      + split; [by left|]. split; [|done]. split; [done|]. by intros [? _].
      + split; [by left|]. split; [|done]. split; [done|].
        intros [_ (id' & [= <-] & Hne)]. by destruct Hne.
      + split; [by right|]. split; [|done]. split; [|done].
        intros _. split; [done|]. exists id. split; [done|]. by intros ->.
    - split; [by left|]. split; [|done]. split; [done|].
      by intros [_ (id' & ? & _)]. }
  destruct Hds as (Hcases & Hiff & Hnone). split_and!.
  - destruct Hcases as [-> | ->]; [left; by apply with_diags_same|by right].
  - rewrite <- Hiff. by rewrite with_diags_same.
  - intros HID. apply with_diags_same. auto.
Qed.

(** The action returns only when the current context is a main program. *)
Lemma end_main_program_returns st ID L u st' :
  ActOnEndMainProgram ID L st = Some (u, st') →
  ∃ c p Name NL,
    CurContext st = Some c ∧
    Decls st !! c = Some (MainProgramDecl (Some p) Name NL).
Proof.
  rewrite ActOnEndMainProgram_eq.
  destruct (CurContext st) as [c|]; [|done].
  destruct (Decls st !! c) as [[|[p|] Name NL| | |]|] eqn:HD; try done.
  intros _. by exists c, p, Name, NL.
Qed.

(** [PROGRAM P] closed by [END PROGRAM Q]. *)
Lemma end_main_program_witness :
  let st := after in_program in
  ∃ st',
    ActOnEndMainProgram (Some "Q") 9 st = Some (tt, st') ∧
    CurContext st' = Some TUDecl ∧
    (Diags st' = Diags st ∨
     Diags st' = Diags st ++ [end_name_diag 9 (getName (Some "P"))]) ∧
    (Diags st' ≠ Diags st ↔
     getName (Some "P") ≠ "" ∧ ∃ id, Some "Q" = Some id ∧ id ≠ getName (Some "P")) ∧
    (Some "Q" = @None IdentifierInfo → Diags st' = Diags st).
Proof.
  intros st.
  apply (end_main_program st 1%nat (Some TUDecl) (Some "P") 1 (Some "Q") 9).
  - exists in_program. reflexivity.
  - reflexivity.
  - reflexivity.
Defined.

(** The same program closed by a bare [END], by [END PROGRAM P] and by
    [END PROGRAM Q]. *)
Example end_main_program_runs :
  let st := after in_program in
  ActOnEndMainProgram None 9 st = Some (tt, with_context st (Some TUDecl)) ∧
  ActOnEndMainProgram (Some "P") 9 st = Some (tt, with_context st (Some TUDecl)) ∧
  (snd <$> ActOnEndMainProgram (Some "Q") 9 st) ≫= (Some ∘ Diags) =
    Some [mkDiagnostic Error 9 "expected label 'P' for END PROGRAM statement"].
Proof. split_and!; reflexivity. Qed.

(** *** Leaving a declaration context *)

Lemma ActOnEntityDecl_Some DS L n st vd st' :
  ActOnEntityDecl DS L n st = Some (Some vd, st') →
  ∃ c, CurContext st = Some c ∧ vd = length (Decls st) ∧
       st' = declared st c (VarDecl (Some c) L n (ActOnTypeName DS)) n.
Proof.
  rewrite ActOnEntityDecl_eq. cbv zeta. intros H.
  assert (Hd : match CurContext st with
               | Some c =>
                   Some (Some (length (Decls st)),
                         declared st c (VarDecl (Some c) L n (ActOnTypeName DS)) n)
               | None => None
               end = Some (Some vd, st') →
               ∃ c, CurContext st = Some c ∧ vd = length (Decls st) ∧
                    st' = declared st c (VarDecl (Some c) L n (ActOnTypeName DS)) n).
  { destruct (CurContext st) as [c|]; [|done]. intros [= <- <-]. by exists c. }
  destruct (FETokenInfo st !! n) as [Prev|]; [|by apply Hd].
  destruct (Decls st !! Prev) as [P|]; [|done].
  destruct (bool_decide (getDeclContext P = CurContext st)); [done|by apply Hd].
Qed.

(** Leaving a context changes the current context and nothing else. *)
Lemma PopDeclContext_parent st c D p :
  CurContext st = Some c → Decls st !! c = Some D →
  isDeclContext D = true → getDeclContext D = Some p →
  PopDeclContext st = Some (tt, with_context st (Some p)).
Proof.
  intros Hc HD Hctx Hp. rewrite PopDeclContext_eq. by rewrite Hc, HD, Hctx, Hp.
Qed.

(** C3 as stated does not hold: [X] is unbound when the main program is entered,
    is declared inside it, and is still bound to that declaration after the
    END statement has popped the context of the program. *)
Lemma pop_restores_binding_counterexample :
  let s0 := after [TranslationUnit] in
  let s1 := after in_program in
  let s2 := after (in_program ++ [EntityDecl DS_integer 2 "X"]) in
  let s3 := after (in_program ++
                   [EntityDecl DS_integer 2 "X"; EndMainProgram None 3]) in
  ActOnTranslationUnit Sema_new = Some (tt, s0) ∧
  ActOnMainProgram (Some "P") 1 s0 = Some (tt, s1) ∧
  ActOnEntityDecl DS_integer 2 "X" s1 = Some (Some 2%nat, s2) ∧
  ActOnEndMainProgram None 3 s2 = Some (tt, s3) ∧
  CurContext s0 = Some TUDecl ∧ CurContext s3 = Some TUDecl ∧
  lookup s0 "X" = None ∧
  lookup s3 "X" = Some 2%nat ∧
  lookup s3 "X" ≠ lookup s0 "X".
Proof. split_and!; try reflexivity. vm_compute. discriminate. Qed.

(** C3, as the code has it.  A name that is bound when a context is popped,
    by the end of a program unit, of a derived type or of the main program,
    is still bound to the same declaration afterwards, whichever declaration
    of the context it is and whatever was declared after it: the current
    context goes back to the parent, the declarations and the front-end
    tokens are left alone, and the binding that was active before the
    context was pushed is not restored. *)
Theorem binding_survives_pop st n vd c D p :
  reachable st → CurContext st = Some c →
  Decls st !! c = Some D → getDeclContext D = Some p →
  lookup st n = Some vd →
  (∃ st2, ActOnEndProgramUnit st = Some (tt, st2) ∧
          CurContext st2 = Some p ∧ lookup st2 n = Some vd ∧
          Decls st2 = Decls st) ∧
  (∃ st2, ActOnEndDerivedTypeDecl st = Some (tt, st2) ∧
          CurContext st2 = Some p ∧ lookup st2 n = Some vd ∧
          Decls st2 = Decls st) ∧
  (∀ Name NL ID L', D = MainProgramDecl (Some p) Name NL →
   ∃ st2, ActOnEndMainProgram ID L' st = Some (tt, st2) ∧
          CurContext st2 = Some p ∧ lookup st2 n = Some vd ∧
          Decls st2 = Decls st).
Proof.
  intros Hreach Hc HD Hp Htok. apply reachable_wf in Hreach.
  destruct (wf_cur _ Hreach _ Hc) as (D' & HD' & Hctx).
  assert (D' = D) as -> by congruence.
  pose proof (PopDeclContext_parent st c D p Hc HD Hctx Hp) as Hpop.
  split_and!.
  - by exists (with_context st (Some p)).
  - by exists (with_context st (Some p)).
  - intros Name NL ID L' ->. rewrite ActOnEndMainProgram_eq, Hc, HD.
    eexists. split; [done|]. by split_and!.
Qed.

(** [INTEGER X] and [INTEGER Y] in the main program [P], and then its END
    statement: [X], which is not the name declared last, stays bound. *)
Lemma binding_survives_pop_witness :
  let st := after (in_program ++
                   [EntityDecl DS_integer 2 "X"; EntityDecl DS_integer 3 "Y"]) in
  (∃ st2, ActOnEndProgramUnit st = Some (tt, st2) ∧
          CurContext st2 = Some TUDecl ∧ lookup st2 "X" = Some 2%nat ∧
          Decls st2 = Decls st) ∧
  (∃ st2, ActOnEndDerivedTypeDecl st = Some (tt, st2) ∧
          CurContext st2 = Some TUDecl ∧ lookup st2 "X" = Some 2%nat ∧
          Decls st2 = Decls st) ∧
  (∀ Name NL ID L',
   MainProgramDecl (Some TUDecl) (Some "P") 1 = MainProgramDecl (Some TUDecl) Name NL →
   ∃ st2, ActOnEndMainProgram ID L' st = Some (tt, st2) ∧
          CurContext st2 = Some TUDecl ∧ lookup st2 "X" = Some 2%nat ∧
          Decls st2 = Decls st).
Proof.
  intros st.
  apply (binding_survives_pop st "X" 2%nat 1%nat
           (MainProgramDecl (Some TUDecl) (Some "P") 1) TUDecl).
  - exists (in_program ++
            [EntityDecl DS_integer 2 "X"; EntityDecl DS_integer 3 "Y"]).
    vm_compute. reflexivity.
  - vm_compute. reflexivity.
  - vm_compute. reflexivity.
  - reflexivity.
  - vm_compute. reflexivity.
Defined.

(** *** PARAMETER pairs *)

(** A PARAMETER pair for an unbound name declares a variable of the type of
    the constant expression in the current context, binds the name to it and
    returns the pair of the name and the expression, without a diagnostic. *)
Lemma parameter_pair_new st L n E c :
  CurContext st = Some c → lookup st n = None →
  ActOnPARAMETERPair L n (Some E) st =
  Some ((Some n, Some E), declared st c (VarDecl (Some c) L n (getType E)) n).
Proof.
  intros Hc Htok. rewrite ActOnPARAMETERPair_eq. unfold lookup in Htok.
  by rewrite Htok, Hc.
Qed.

(** A PARAMETER pair for a name that is bound, in whatever context, reports
    an error with a note at the prior declaration, creates nothing and
    returns the empty pair. *)
Lemma parameter_pair_clash st L n CE Prev :
  reachable st → lookup st n = Some Prev →
  ∃ P, Decls st !! Prev = Some P ∧
  ActOnPARAMETERPair L n CE st =
  Some ((None, None),
        with_diags st
          [mkDiagnostic Error L ("variable '" +:+ n +:+ "' already defined");
           mkDiagnostic Note (getLocation P) "previous definition"]).
Proof.
  intros Hreach%reachable_wf Htok. unfold lookup in Htok.
  destruct (wf_token _ Hreach _ _ Htok) as (DC & L' & T & HP).
  eexists. split; [done|]. rewrite ActOnPARAMETERPair_eq. by rewrite Htok, HP.
Qed.

(** The declaration a PARAMETER pair creates is the one an entity declaration
    of the same type creates at the same place: the two actions leave the
    same state. *)
Lemma parameter_pair_like_entity st L n E DS :
  lookup st n = None → ActOnTypeName DS = getType E →
  state_after (ActOnPARAMETERPair L n (Some E)) st =
  state_after (ActOnEntityDecl DS L n) st.
Proof.
  intros Htok HT. unfold state_after, lookup in *.
  rewrite ActOnPARAMETERPair_eq, ActOnEntityDecl_eq, Htok. cbv zeta.
  destruct (CurContext st); by rewrite ?HT.
Qed.

(** C5, the code at [PARAMETER (N = 10)] in the main program: the variable
    [N] is created with the type of the constant, by the very call that
    creates an ordinary variable, and the state is the one that [INTEGER N]
    leaves; nothing in it marks [N] as a parameter. *)
Lemma parameter_pair_unmarked :
  let st := after in_program in
  let CE := Some (mkExpr IntegerTy 3) in
  let st' := declared st 1%nat (VarDecl (Some 1%nat) 2 "N" IntegerTy) "N" in
  ActOnPARAMETERPair 2 "N" CE st = Some ((Some "N", CE), st') ∧
  ActOnEntityDecl DS_integer 2 "N" st = Some (Some 2%nat, st') ∧
  Decls st' !! 2%nat = Some (VarDecl (Some 1%nat) 2 "N" IntegerTy).
Proof. split_and!; reflexivity. Qed.

(** *** IMPLICIT NONE *)

(** The action for IMPLICIT NONE builds the statement and leaves the state of
    the analyzer as it is. *)
Lemma ActOnIMPLICIT_NONE_state L Lbl st :
  ActOnIMPLICIT_NONE L Lbl st = Some (mkImplicitStmt L NullTy true [] Lbl, st).
Proof. done. Qed.

(** C6, the code after IMPLICIT NONE in the main program: a reference to the
    undeclared [I] emits no diagnostic and declares [I] with default integer
    type, a reference to the undeclared [X] emits none either. *)
Lemma implicit_none_ignored :
  let st := after (in_program ++ [IMPLICIT_NONE 2 0]) in
  let stI := declared st 1%nat (VarDecl (Some 1%nat) 3 "I" IntegerTy) "I" in
  let stX := declared st 1%nat (VarDecl (Some 1%nat) 3 "X" RealTy) "X" in
  run (in_program ++ [IMPLICIT_NONE 2 0]) Sema_new = Some st ∧
  ActOnImplicitEntityDecl 3 "I" st = Some (Some 2%nat, stI) ∧
  Diags stI = [] ∧
  ActOnImplicitEntityDecl 3 "X" st = Some (Some 2%nat, stX) ∧
  Diags stX = [].
Proof. split_and!; reflexivity. Qed.

End Scopes.

(** ** What the analyzer keeps true *)

Section Invariants.
Import Sema Steps.
Local Open Scope string_scope.
Local Open Scope list_scope.
Local Open Scope stdpp_scope.

Implicit Types (st : Sema) (n : IdentifierInfo) (c p : DeclPtr).

Lemma with_diags_nil st : with_diags st [] = st.
Proof. unfold with_diags. rewrite app_nil_r. by destruct st. Qed.

(** Every action that returns is one of the steps. *)
Lemma perform_step a st st' : wf st → perform a st = Some st' → Step st st'.
Proof.
  intros Hwf. destruct a; unfold perform, state_after.
  - unfold ActOnTranslationUnit. rewrite PushDeclContext_eq.
    rewrite (wf_TU _ Hwf). simpl. case_bool_decide as Hc; [|done].
    intros [= <-]. by apply Step_enter.
  - unfold ActOnEndProgramUnit. rewrite PopDeclContext_eq.
    destruct (CurContext st) as [c|] eqn:Hc; [|done].
    destruct (Decls st !! c) as [D|] eqn:HD; [|done].
    destruct (isDeclContext D) eqn:Hctx; [|done].
    destruct (getDeclContext D) as [p|] eqn:Hp; [|done].
    intros [= <-]. rewrite <- (with_diags_nil st) at 2.
    eapply Step_leave; eauto.
  - rewrite ActOnMainProgram_eq. case_bool_decide as Hc; [|done].
    intros [= <-]. by apply Step_main.
  - rewrite ActOnEndMainProgram_eq.
    destruct (CurContext st) as [c|] eqn:Hc; [|done].
    destruct (Decls st !! c) as [[|DC Name NL| | |]|] eqn:HD; try done.
    destruct DC as [p|]; [|done]. intros [= <-].
    eapply Step_leave; eauto.
    destruct IDInfo as [id|]; [|by left].
    destruct (negb _ && negb _); [right|by left].
    unfold end_name_diag. eauto.
  - rewrite ActOnKindSelector_eq.
    destruct (CurContext st) as [c|] eqn:Hc; [|done].
    intros [= <-]. by apply Step_declare.
  - rewrite ActOnEntityDecl_eq. cbv zeta.
    assert (Hd : match CurContext st with
                 | Some c =>
                     Some (Some (length (Decls st)),
                           declared st c
                             (VarDecl (Some c) IDLoc IDInfo (ActOnTypeName DS))
                             IDInfo)
                 | None => None
                 end = None ∨
                 ∃ c r, CurContext st = Some c ∧
                   match CurContext st with
                   | Some c =>
                       Some (Some (length (Decls st)),
                             declared st c
                               (VarDecl (Some c) IDLoc IDInfo (ActOnTypeName DS))
                               IDInfo)
                   | None => None
                   end = Some (r, declared st c
                               (VarDecl (Some c) IDLoc IDInfo (ActOnTypeName DS))
                               IDInfo)).
    { destruct (CurContext st) as [c|]; [right; eauto|by left]. }
    destruct (FETokenInfo st !! IDInfo) as [Prev|] eqn:Htok.
    + destruct (Decls st !! Prev) as [P|] eqn:HP; [|done].
      case_bool_decide.
      * intros [= <-]. by eapply Step_clash.
      * destruct Hd as [-> | (c & r & Hc & ->)]; [done|].
        intros [= <-]. by apply Step_declare.
    + destruct Hd as [-> | (c & r & Hc & ->)]; [done|].
      intros [= <-]. by apply Step_declare.
  - unfold ActOnImplicitEntityDecl. cbv zeta.
    match goal with
    | |- context [ActOnEntityDecl ?DS0 _ _ _] => generalize DS0
    end.
    intros DS. rewrite ActOnEntityDecl_eq. cbv zeta.
    destruct (FETokenInfo st !! IDInfo) as [Prev|] eqn:Htok.
    + destruct (Decls st !! Prev) as [P|] eqn:HP; [|done].
      case_bool_decide.
      * intros [= <-]. by eapply Step_clash.
      * destruct (CurContext st) as [c|] eqn:Hc; [|done].
        intros [= <-]. by apply Step_declare.
    + destruct (CurContext st) as [c|] eqn:Hc; [|done].
      intros [= <-]. by apply Step_declare.
  - intros [= <-]. apply Step_none.
  - intros [= <-]. apply Step_none.
  - rewrite ActOnPARAMETERPair_eq.
    destruct (FETokenInfo st !! IDInfo) as [Prev|] eqn:Htok.
    + destruct (Decls st !! Prev) as [P|] eqn:HP; [|done].
      intros [= <-]. by eapply Step_clash.
    + destruct CE as [E|]; [|done].
      destruct (CurContext st) as [c|] eqn:Hc; [|done].
      intros [= <-]. by apply Step_declare.
  - rewrite ActOnDerivedTypeDecl_eq.
    destruct (CurContext st) as [c|] eqn:Hc; [|done].
    intros [= <-]. by apply Step_record.
  - rewrite ActOnDerivedTypeFieldDecl_eq.
    destruct (CurContext st) as [c|] eqn:Hc; [|done].
    intros [= <-]. by apply Step_field.
  - unfold ActOnEndDerivedTypeDecl. rewrite PopDeclContext_eq.
    destruct (CurContext st) as [c|] eqn:Hc; [|done].
    destruct (Decls st !! c) as [D|] eqn:HD; [|done].
    destruct (isDeclContext D) eqn:Hctx; [|done].
    destruct (getDeclContext D) as [p|] eqn:Hp; [|done].
    intros [= <-]. rewrite <- (with_diags_nil st) at 2.
    eapply Step_leave; eauto.
Qed.

(** A property that holds at the start and survives every step holds in
    every state the analyzer can be in. *)
Lemma reachable_ind (P : Sema → Prop) :
  P Sema_new →
  (∀ st st', wf st → P st → Step st st' → P st') →
  ∀ st, reachable st → P st.
Proof.
  intros H0 Hstep st [acts Hrun]. revert Hrun.
  generalize wf_Sema_new H0. generalize Sema_new.
  induction acts as [|a acts IH]; intros s Hwf HP; simpl.
  - by intros [= <-].
  - destruct (perform a s) as [s1|] eqn:Hp; [|done].
    apply IH; [by eapply wf_perform|].
    eapply Hstep; eauto using perform_step.
Qed.

(** A step leaves the declarations alone or adds one, which lies in the
    current context and is not a translation unit. *)
Lemma Step_decls st st' :
  Step st st' →
  Decls st' = Decls st ∨
  ∃ Dn c, CurContext st = Some c ∧ getDeclContext Dn = Some c ∧
          Dn ≠ TranslationUnitDecl ∧ Decls st' = Decls st ++ [Dn].
Proof.
  destruct 1 as [|ds c D p Hds Hc HD Hctx Hp|Hc|ID L Hc|c L n T Hc
                 |L n what Prev P previous Htok HP|c L NL n Hc|c L n T Hc];
    simpl; [by left|by left|by left|right|right|by left|right|right].
  - by exists (MainProgramDecl (Some TUDecl) ID L), TUDecl.
  - by exists (VarDecl (Some c) L n T), c.
  - by exists (RecordDecl (Some c) L NL n), c.
  - by exists (FieldDecl (Some c) L n T), c.
Qed.

(** Every declaration but the first lies in an earlier declaration context. *)
Lemma decls_tree st i D :
  reachable st → Decls st !! i = Some D →
  match i with
  | O => D = TranslationUnitDecl
  | S _ =>
      ∃ p P, getDeclContext D = Some p ∧ (p < i)%nat ∧
             Decls st !! p = Some P ∧ isDeclContext P = true
  end.
Proof.
  intros Hreach. revert i D.
  induction Hreach as [|st st' Hwf IH Hstep] using reachable_ind.
  - intros [|i] D; simpl; [congruence|done].
  - intros i D Hi.
    destruct (Step_decls _ _ Hstep) as [HD|(Dn & c & Hc & Hctx & HTU & HD)];
      rewrite HD in *; [by apply IH|].
    apply lookup_app_Some in Hi as [Hi|[Hlen Hi]].
    + specialize (IH _ _ Hi). destruct i; [done|].
      destruct IH as (p & P & ? & ? & HP & ?).
      exists p, P. split_and!; try done. by apply lookup_app_l_Some.
    + apply list_lookup_singleton_Some in Hi as [Hi ->].
      destruct (wf_cur _ Hwf _ Hc) as (P & HP & HPc).
      assert (i = length (Decls st)) as -> by lia.
      pose proof (lookup_lt_Some _ _ _ HP) as Hlt.
      destruct (length (Decls st)) as [|k] eqn:Hk; [lia|].
      exists c, P. split_and!; try done.
      apply lookup_app_l_Some. done.
Qed.

(** X1.  The declarations form a tree rooted at the translation unit: in
    every state the analyzer can be in, the first declaration is the
    translation unit, and every other declaration lies in a declaration
    context that was created before it. *)
Theorem declaration_tree st i D :
  reachable st → Decls st !! i = Some D →
  match i with
  | O => D = TranslationUnitDecl
  | S _ =>
      ∃ p P, getDeclContext D = Some p ∧ (p < i)%nat ∧
             Decls st !! p = Some P ∧ isDeclContext P = true
  end.
Proof. exact (decls_tree st i D). Qed.

Lemma decls_of_with_decl st c D c' :
  decls_of (with_decl st c D) c' =
  if bool_decide (c = c') then decls_of st c ++ [length (Decls st)]
  else decls_of st c'.
Proof.
  unfold decls_of at 1. simpl. case_bool_decide as Hc.
  - subst. by rewrite lookup_insert_eq.
  - by rewrite lookup_insert_ne.
Qed.

(** A step leaves the declaration lists alone, or adds a declaration of a
    listed kind to the list of the current context. *)
Lemma Step_lists st st' :
  Step st st' →
  (DeclLists st' = DeclLists st ∧
   (Decls st' = Decls st ∨
    ∃ Dn, Decls st' = Decls st ++ [Dn] ∧ listed_kind Dn = false)) ∨
  ∃ Dn c, CurContext st = Some c ∧ getDeclContext Dn = Some c ∧
          listed_kind Dn = true ∧ Decls st' = Decls st ++ [Dn] ∧
          ∀ c', decls_of st' c' =
                if bool_decide (c = c') then decls_of st c ++ [length (Decls st)]
                else decls_of st c'.
Proof.
  destruct 1 as [|ds c D p Hds Hc HD Hctx Hp|Hc|ID L Hc|c L n T Hc
                 |L n what Prev P previous Htok HP|c L NL n Hc|c L n T Hc];
    simpl; [left|left|left|left|right|left|right|right].
  - split; [done|by left].
  - split; [done|by left].
  - split; [done|by left].
  - split; [done|right]. by exists (MainProgramDecl (Some TUDecl) ID L).
  - exists (VarDecl (Some c) L n T), c. split_and!; try done.
    intros c'. apply (decls_of_with_decl st c (VarDecl (Some c) L n T) c').
  - split; [done|by left].
  - exists (RecordDecl (Some c) L NL n), c. split_and!; try done.
    intros c'. apply (decls_of_with_decl st c (RecordDecl (Some c) L NL n) c').
  - exists (FieldDecl (Some c) L n T), c. split_and!; try done.
    intros c'. apply (decls_of_with_decl st c (FieldDecl (Some c) L n T) c').
Qed.

(** The list of a context against the declaration contexts of the nodes. *)
Lemma decls_listed st :
  reachable st →
  ∀ c, NoDup (decls_of st c) ∧
  ∀ i, i ∈ decls_of st c ↔
       ∃ D, Decls st !! i = Some D ∧ getDeclContext D = Some c ∧
            listed_kind D = true.
Proof.
  induction 1 as [|st st' Hwf IH Hstep] using reachable_ind.
  - intros c. unfold decls_of. simpl. rewrite lookup_empty. simpl.
    split; [constructor|]. intros i. split; [by intros ?%elem_of_nil|].
    intros (D & HD & Hc & Hk). destruct i; simpl in HD; [|done].
    by simplify_eq.
  - intros c'.
    destruct (Step_lists _ _ Hstep)
      as [[HL HD]|(Dn & c & Hc & Hctx & Hk & HD & Hlist)].
    + assert (Hsame : decls_of st' c' = decls_of st c').
      { unfold decls_of. by rewrite HL. }
      rewrite Hsame. destruct (IH c') as [Hnd Hmem]. split; [done|].
      intros i. rewrite Hmem.
      destruct HD as [-> |(Dn & -> & Hk)]; [done|].
      split; intros (D & Hi & ? & ?).
      * exists D. split_and!; try done. by apply lookup_app_l_Some.
      * apply lookup_app_Some in Hi as [Hi|[_ Hi]]; [by exists D|].
        apply list_lookup_singleton_Some in Hi as [_ ->]. congruence.
    + rewrite Hlist, HD. destruct (IH c') as [Hnd Hmem].
      assert (Hfresh : ∀ c0, length (Decls st) ∉ decls_of st c0).
      { intros c0 Hin. apply (IH c0) in Hin as (D & Hi & _).
        apply lookup_lt_Some in Hi. lia. }
      case_bool_decide as Hcc.
      * subst c'. split.
        { apply NoDup_app. split_and!; [done| |apply NoDup_singleton].
          intros x Hx ->%list_elem_of_singleton. by apply (Hfresh c). }
        intros i. rewrite elem_of_app, list_elem_of_singleton, Hmem.
        split.
        -- intros [(D & Hi & ? & ?)| ->].
           ++ exists D. split_and!; try done. by apply lookup_app_l_Some.
           ++ exists Dn. split_and!; try done.
              by rewrite lookup_app_r, Nat.sub_diag.
        -- intros (D & Hi & ? & ?).
           apply lookup_app_Some in Hi as [Hi|[Hlen Hi]]; [left; by exists D|].
           apply list_lookup_singleton_Some in Hi as [Hi _]. right. lia.
      * split; [done|]. intros i. rewrite Hmem.
        split; intros (D & Hi & ? & ?).
        -- exists D. split_and!; try done. by apply lookup_app_l_Some.
        -- apply lookup_app_Some in Hi as [Hi|[_ Hi]]; [by exists D|].
           apply list_lookup_singleton_Some in Hi as [_ ->]. congruence.
Qed.

(** X2.  The declaration list of a context holds exactly the variables,
    derived types and fields declared in that context, each once: a
    declaration is listed where its declaration context says, and the main
    program and the translation unit are in no list. *)
Theorem declaration_lists st :
  reachable st →
  ∀ c, NoDup (decls_of st c) ∧
  ∀ i, i ∈ decls_of st c ↔
       ∃ D, Decls st !! i = Some D ∧ getDeclContext D = Some c ∧
            listed_kind D = true.
Proof. exact (decls_listed st). Qed.

(** A step only appends: to the declarations, to the diagnostics; a token is
    left alone or bound to the declaration just added. *)
Lemma Step_grows st st' :
  Step st st' →
  Decls st `prefix_of` Decls st' ∧ Diags st `prefix_of` Diags st' ∧
  ∀ n, FETokenInfo st' !! n = FETokenInfo st !! n ∨
       FETokenInfo st' !! n = Some (length (Decls st)).
Proof.
  destruct 1 as [|ds c D p Hds Hc HD Hctx Hp|Hc|ID L Hc|c L n T Hc
                 |L n what Prev P previous Htok HP|c L NL n Hc|c L n T Hc];
    simpl; (split_and!; [try done; by apply prefix_app_r
                        |try done; by apply prefix_app_r|]).
  all: intros n'; try (by left).
  destruct (decide (n = n')) as [->|Hne].
  - right. apply lookup_insert_eq.
  - left. by apply lookup_insert_ne.
Qed.

(** X3.  Nothing is ever taken back: over any sequence of actions the
    declarations and the diagnostics only grow at the end, so every handle
    stays valid and every reported error stays reported, and a name that is
    bound stays bound, to the same or to a later declaration. *)
Theorem analyzer_only_grows st acts st' :
  reachable st → run acts st = Some st' →
  Decls st `prefix_of` Decls st' ∧ Diags st `prefix_of` Diags st' ∧
  ∀ n p, lookup st n = Some p → ∃ p', lookup st' n = Some p' ∧ (p ≤ p')%nat.
Proof.
  intros Hreach. revert st Hreach.
  induction acts as [|a acts IH]; intros st Hreach; simpl.
  - intros [= <-]. split_and!; [done|done|]. eauto.
  - destruct (perform a st) as [s1|] eqn:Hp; [|done]. intros Hrun.
    pose proof (reachable_wf _ Hreach) as Hwf.
    destruct (Step_grows _ _ (perform_step _ _ _ Hwf Hp)) as (HD & HG & Htok).
    destruct (IH s1 (reachable_perform _ _ _ Hreach Hp) Hrun)
      as (HD' & HG' & Htok').
    split_and!; [by etrans|by etrans|].
    intros n p Hn. unfold lookup in *.
    destruct (Htok n) as [Hsame|Hnew].
    + rewrite <- Hsame in Hn. apply Htok' in Hn. done.
    + destruct (Htok' _ _ Hnew) as (p' & Hp' & Hle). exists p'.
      split; [done|].
      destruct (wf_token _ Hwf _ _ Hn) as (? & ? & ? & Hlt%lookup_lt_Some). lia.
Qed.

(** X4.  The front-end token of a name is its most recent variable
    declaration: in every state the analyzer can be in, a bound name points
    to a variable of that name, every variable has its name bound, and no
    variable of that name was created after the one the name points to. *)
Theorem token_is_latest st n :
  reachable st →
  (∀ p, lookup st n = Some p →
        ∃ DC L T, Decls st !! p = Some (VarDecl DC L n T)) ∧
  (∀ i DC L T, Decls st !! i = Some (VarDecl DC L n T) →
               ∃ p, lookup st n = Some p ∧ (i ≤ p)%nat).
Proof.
  intros Hreach. split; [intros p; apply (wf_token _ (reachable_wf _ Hreach))|].
  revert n. induction Hreach as [|st st' Hwf IH Hstep] using reachable_ind.
  - intros n [|i] ????; simpl; [done|done].
  - intros n' i DC' L' T' Hi. unfold lookup in *.
    destruct Hstep as [|ds c D p Hds Hc HD Hctx Hp|Hc|ID L Hc|c L n T Hc
                 |L n what Prev P previous Htok HP|c L NL n Hc|c L n T Hc];
      simpl in *; eauto.
    + apply lookup_app_Some in Hi as [Hi|[_ Hi]]; [eauto|].
      by apply list_lookup_singleton_Some in Hi as [_ ?].
    + destruct (decide (n = n')) as [->|Hne].
      * exists (length (Decls st)). rewrite lookup_insert_eq. split; [done|].
        apply lookup_lt_Some in Hi. rewrite length_app in Hi. simpl in Hi. lia.
      * rewrite lookup_insert_ne by done.
        apply lookup_app_Some in Hi as [Hi|[_ Hi]]; [eauto|].
        apply list_lookup_singleton_Some in Hi as [_ ?]. congruence.
    + apply lookup_app_Some in Hi as [Hi|[_ Hi]]; [eauto|].
      by apply list_lookup_singleton_Some in Hi as [_ ?].
    + apply lookup_app_Some in Hi as [Hi|[_ Hi]]; [eauto|].
      by apply list_lookup_singleton_Some in Hi as [_ ?].
Qed.

(** X5.  The analyzer emits errors and notes only, and a note never stands
    alone: in every state the analyzer can be in, each diagnostic handed to
    the client is an error, or a note that directly follows an error. *)
Theorem notes_follow_errors st i d :
  reachable st → Diags st !! i = Some d →
  DiagLevel d = Error ∨
  (DiagLevel d = Note ∧
   ∃ j e, i = S j ∧ Diags st !! j = Some e ∧ DiagLevel e = Error).
Proof.
  intros Hreach. revert i d.
  induction Hreach as [|st st' Hwf IH Hstep] using reachable_ind.
  - by intros [|i] d.
  - intros i d Hi.
    assert (Happ : ∀ ds,
      (ds = [] ∨ (∃ L msg, ds = [mkDiagnostic Error L msg]) ∨
       ∃ L msg L' msg', ds = [mkDiagnostic Error L msg; mkDiagnostic Note L' msg']) →
      (Diags st ++ ds) !! i = Some d →
      DiagLevel d = Error ∨
      (DiagLevel d = Note ∧
       ∃ j e, i = S j ∧ (Diags st ++ ds) !! j = Some e ∧ DiagLevel e = Error)).
    { intros ds Hds Hl. apply lookup_app_Some in Hl as [Hl|[Hlen Hl]].
      - destruct (IH _ _ Hl) as [?|[? (j & e & -> & Hj & ?)]]; [by left|].
        right. split; [done|]. exists j, e. split_and!; try done.
        by apply lookup_app_l_Some.
      - destruct Hds as [-> |[(L & msg & ->)|(L & msg & L' & msg' & ->)]].
        + done.
        + apply list_lookup_singleton_Some in Hl as [_ <-]. by left.
        + destruct (i - length (Diags st))%nat as [|[|k]] eqn:Hk;
            simpl in Hl; [|  |done].
          * injection Hl as <-. by left.
          * injection Hl as <-. right. split; [done|].
            exists (length (Diags st)), (mkDiagnostic Error L msg).
            split_and!; [lia| |done].
            by rewrite lookup_app_r, Nat.sub_diag. }
    destruct Hstep as [|ds c D p Hds Hc HD Hctx Hp|Hc|ID L Hc|c L n T Hc
                 |L n what Prev P previous Htok HP|c L NL n Hc|c L n T Hc];
      simpl in *; eauto.
    + apply (Happ ds); [|done]. destruct Hds as [?|?]; auto.
    + apply (Happ (clash_diags L n what (getLocation P) previous)); [|done].
      right. right. unfold clash_diags. eauto 6.
Qed.

(** The field [Y] of the sample lies in the derived type [T], which lies in
    the program. *)
Lemma declaration_tree_witness :
  ∃ p P, getDeclContext (FieldDecl (Some 3%nat) 6 "Y" RealTy) = Some p ∧
         (p < 4)%nat ∧ Decls (after sample_actions) !! p = Some P ∧
         isDeclContext P = true.
Proof.
  apply (declaration_tree (after sample_actions) 4%nat
           (FieldDecl (Some 3%nat) 6 "Y" RealTy)).
  - exists sample_actions. vm_compute. reflexivity.
  - vm_compute. reflexivity.
Defined.

Lemma declaration_lists_witness :
  NoDup (decls_of (after sample_actions) 1%nat) ∧
  ∀ i, i ∈ decls_of (after sample_actions) 1%nat ↔
       ∃ D, Decls (after sample_actions) !! i = Some D ∧
            getDeclContext D = Some 1%nat ∧ listed_kind D = true.
Proof.
  apply (declaration_lists (after sample_actions)).
  exists sample_actions. vm_compute. reflexivity.
Defined.

Lemma analyzer_only_grows_witness :
  let st := after in_program in
  let st' := after sample_actions in
  Decls st `prefix_of` Decls st' ∧ Diags st `prefix_of` Diags st' ∧
  ∀ n p, lookup st n = Some p → ∃ p', lookup st' n = Some p' ∧ (p ≤ p')%nat.
Proof.
  intros st st'.
  apply (analyzer_only_grows st
           [EntityDecl DS_integer 2 "X"; EntityDecl DS_real 3 "X";
            DerivedTypeDecl 4 5 "T"; DerivedTypeFieldDecl DS_real 6 "Y" None]).
  - exists in_program. vm_compute. reflexivity.
  - vm_compute. reflexivity.
Defined.

Lemma token_is_latest_witness :
  (∀ p, lookup (after sample_actions) "X" = Some p →
        ∃ DC L T, Decls (after sample_actions) !! p = Some (VarDecl DC L "X" T)) ∧
  (∀ i DC L T, Decls (after sample_actions) !! i = Some (VarDecl DC L "X" T) →
               ∃ p, lookup (after sample_actions) "X" = Some p ∧ (i ≤ p)%nat).
Proof.
  apply (token_is_latest (after sample_actions) "X").
  exists sample_actions. vm_compute. reflexivity.
Defined.

(** The note of the clash on [X] follows its error. *)
Lemma notes_follow_errors_witness :
  DiagLevel (mkDiagnostic Note 2 "previous declaration") = Error ∨
  (DiagLevel (mkDiagnostic Note 2 "previous declaration") = Note ∧
   ∃ j e, 1%nat = S j ∧ Diags (after sample_actions) !! j = Some e ∧
          DiagLevel e = Error).
Proof.
  apply (notes_follow_errors (after sample_actions) 1%nat
           (mkDiagnostic Note 2 "previous declaration")).
  - exists sample_actions. vm_compute. reflexivity.
  - vm_compute. reflexivity.
Defined.

(** X6.  The translation unit cannot be left: with the translation unit as
    the current context, or with none, each of the three end actions fails
    its assertion, in every state the analyzer can be in. *)
Theorem translation_unit_not_popped st :
  reachable st → CurContext st = None ∨ CurContext st = Some TUDecl →
  ActOnEndProgramUnit st = None ∧ ActOnEndDerivedTypeDecl st = None ∧
  ∀ ID L, ActOnEndMainProgram ID L st = None.
Proof.
  intros Hwf%reachable_wf Hc.
  assert (Hpop : PopDeclContext st = None).
  { rewrite PopDeclContext_eq. destruct Hc as [-> | ->]; [done|].
    by rewrite (wf_TU _ Hwf). }
  split_and!; [done|done|]. intros ID L. rewrite ActOnEndMainProgram_eq.
  destruct Hc as [-> | ->]; [done|]. by rewrite (wf_TU _ Hwf).
Qed.

Lemma translation_unit_not_popped_witness :
  let st := after [TranslationUnit] in
  ActOnEndProgramUnit st = None ∧ ActOnEndDerivedTypeDecl st = None ∧
  ∀ ID L, ActOnEndMainProgram ID L st = None.
Proof.
  intros st. apply (translation_unit_not_popped st).
  - exists [TranslationUnit]. reflexivity.
  - right. reflexivity.
Defined.

(** X7.  Contexts are opened in order only: in every state the analyzer can
    be in, the translation unit is entered exactly when no context is
    current, a main program is opened exactly when the translation unit is
    the current context, and a derived type exactly when some context is
    current; otherwise the assertion of [PushDeclContext] fails or a null
    context is followed. *)
Theorem contexts_open_in_order st :
  reachable st →
  (is_Some (ActOnTranslationUnit st) ↔ CurContext st = None) ∧
  (∀ ID L, is_Some (ActOnMainProgram ID L st) ↔ CurContext st = Some TUDecl) ∧
  (∀ L NL n, is_Some (ActOnDerivedTypeDecl L NL n st) ↔ is_Some (CurContext st)).
Proof.
  intros Hwf%reachable_wf. split_and!.
  - unfold ActOnTranslationUnit. rewrite PushDeclContext_eq, (wf_TU _ Hwf).
    simpl. case_bool_decide as Hc.
    + split; [done|]. by eexists.
    + split; [by intros [? ?]|]. intros ?. by destruct Hc.
  - intros ID L. rewrite ActOnMainProgram_eq. case_bool_decide as Hc.
    + split; [done|]. by eexists.
    + split; [by intros [? ?]|]. intros ?. by destruct Hc.
  - intros L NL n. rewrite ActOnDerivedTypeDecl_eq.
    destruct (CurContext st) as [c|].
    + split; by eexists.
    + split; by intros [? ?].
Qed.

(** Inside the program [P]. *)
Lemma contexts_open_in_order_witness :
  let st := after in_program in
  (is_Some (ActOnTranslationUnit st) ↔ CurContext st = None) ∧
  (∀ ID L, is_Some (ActOnMainProgram ID L st) ↔ CurContext st = Some TUDecl) ∧
  (∀ L NL n, is_Some (ActOnDerivedTypeDecl L NL n st) ↔ is_Some (CurContext st)).
Proof.
  intros st. apply (contexts_open_in_order st).
  exists in_program. reflexivity.
Defined.

(** *** Derived types *)

(** The fields of a derived type, one after the other, in the context of the
    type. *)
Lemma run_fields (fs : list Field) st r :
  CurContext st = Some r →
  ∃ st',
    run (field_action <$> fs) st = Some st' ∧
    CurContext st' = Some r ∧ FETokenInfo st' = FETokenInfo st ∧
    Diags st' = Diags st ∧
    Decls st' = Decls st ++ (field_decl r <$> fs) ∧
    (∀ c, decls_of st' c =
          if bool_decide (r = c)
          then decls_of st r ++ seq (length (Decls st)) (length fs)
          else decls_of st c).
Proof.
  revert st. induction fs as [|[[[DS L] n] Init] fs IH]; intros st Hr.
  - exists st. simpl. split_and!; try done.
    + by rewrite app_nil_r.
    + intros c. case_bool_decide; [subst; by rewrite app_nil_r|done].
  - cbn [fmap list_fmap run field_action perform]. unfold state_after.
    rewrite ActOnDerivedTypeFieldDecl_eq, Hr.
    set (st1 := with_decl st r (FieldDecl (Some r) L n (ActOnTypeName DS))).
    destruct (IH st1) as (st' & Hrun & Hc & Htok & Hdg & HD & Hl); [done|].
    exists st'. split_and!; try done.
    + rewrite HD. simpl. by rewrite <- app_assoc.
    + intros c. rewrite Hl. case_bool_decide as Hrc.
      * unfold st1. rewrite decls_of_with_decl.
        rewrite bool_decide_eq_true_2 by done. simpl.
        rewrite length_app. simpl. rewrite <- app_assoc. simpl.
        by rewrite Nat.add_1_r.
      * unfold st1. rewrite decls_of_with_decl.
        by rewrite bool_decide_eq_false_2.
Qed.

(** X8.  Defining a derived type is a round trip: after the opening, any
    fields and the end, the current context is the one the type was opened
    in.  The type and its fields are new declarations, the type is added to
    the list of its context and the fields, in order, to the list of the
    type; no name is bound or rebound and nothing is diagnosed, whatever the
    fields are called. *)
Theorem derived_type_round_trip st c L NL n (fs : list Field) :
  reachable st → CurContext st = Some c →
  let r := length (Decls st) in
  ∃ st',
    run (derived_type L NL n fs) st = Some st' ∧
    CurContext st' = Some c ∧ FETokenInfo st' = FETokenInfo st ∧
    Diags st' = Diags st ∧
    Decls st' = Decls st ++ RecordDecl (Some c) L NL n :: (field_decl r <$> fs) ∧
    decls_of st' c = decls_of st c ++ [r] ∧
    decls_of st' r = seq (S r) (length fs).
Proof.
  intros Hreach Hc r. pose proof (reachable_wf _ Hreach) as Hwf.
  destruct (wf_cur _ Hwf _ Hc) as (Dc & HDc & _).
  assert (Hcr : c ≠ r).
  { apply lookup_lt_Some in HDc. unfold r. lia. }
  assert (Hempty : decls_of st r = []).
  { destruct (decls_of st r) as [|i l] eqn:Hl; [done|]. exfalso.
    destruct (decls_listed st Hreach r) as [_ Hmem].
    destruct (proj1 (Hmem i)) as (D & Hi & Hctx & _).
    { rewrite Hl. by left. }
    pose proof (decls_tree st i D Hreach Hi) as Htree.
    apply lookup_lt_Some in Hi.
    destruct i; [by subst D|].
    destruct Htree as (p & P & Hp & Hlt & _). unfold r in *.
    rewrite Hctx in Hp. injection Hp as <-. lia. }
  unfold derived_type. cbn [run perform]. unfold state_after.
  rewrite ActOnDerivedTypeDecl_eq, Hc. fold r.
  set (st1 := with_context (with_decl st c (RecordDecl (Some c) L NL n)) (Some r)).
  destruct (run_fields fs st1 r eq_refl)
    as (st2 & Hrun & Hc2 & Htok & Hdg & HD & Hl).
  assert (Hrec : Decls st2 !! r = Some (RecordDecl (Some c) L NL n)).
  { rewrite HD. apply lookup_app_l_Some. simpl.
    by rewrite lookup_app_r, Nat.sub_diag. }
  exists (with_context st2 (Some c)). split_and!.
  - assert (Hgen : ∀ acts s s', run acts s = Some s' →
      ∀ acts', run (acts ++ acts') s = run acts' s').
    { clear. intros acts. induction acts as [|a acts IH]; intros s s'; simpl.
      - by intros [= <-].
      - destruct (perform a s); [apply IH|done]. }
    rewrite (Hgen _ _ _ Hrun). cbn [run perform]. unfold state_after.
    unfold ActOnEndDerivedTypeDecl.
    by rewrite (PopDeclContext_parent st2 r _ c Hc2 Hrec eq_refl eq_refl).
  - done.
  - done.
  - done.
  - simpl. rewrite HD. simpl. by rewrite <- app_assoc.
  - change (decls_of (with_context st2 (Some c)) c) with (decls_of st2 c).
    rewrite Hl. rewrite bool_decide_eq_false_2 by done.
    unfold st1.
    change (decls_of (with_context ?s ?x) c) with (decls_of s c).
    rewrite decls_of_with_decl. by rewrite bool_decide_eq_true_2.
  - change (decls_of (with_context st2 (Some c)) r) with (decls_of st2 r).
    rewrite Hl. rewrite bool_decide_eq_true_2 by done.
    unfold st1.
    change (decls_of (with_context ?s ?x) r) with (decls_of s r).
    rewrite decls_of_with_decl. rewrite bool_decide_eq_false_2 by done.
    rewrite Hempty. simpl. rewrite length_app. simpl.
    by rewrite Nat.add_1_r.
Qed.

(** The type [T] with two fields both called [X], in the program [P] that
    has a variable [X]. *)
Lemma derived_type_round_trip_witness :
  let st := after (in_program ++ [EntityDecl DS_integer 2 "X"]) in
  let fs : list Field := [(DS_real, 5, "X", None); (DS_integer, 6, "X", None)] in
  ∃ st',
    run (derived_type 3 4 "T" fs) st = Some st' ∧
    CurContext st' = Some 1%nat ∧ FETokenInfo st' = FETokenInfo st ∧
    Diags st' = Diags st ∧
    Decls st' = Decls st ++
      RecordDecl (Some 1%nat) 3 4 "T" :: (field_decl (length (Decls st)) <$> fs) ∧
    decls_of st' 1%nat = decls_of st 1%nat ++ [length (Decls st)] ∧
    decls_of st' (length (Decls st)) = seq (S (length (Decls st))) (length fs).
Proof.
  intros st fs. apply (derived_type_round_trip st 1%nat 3 4 "T" fs).
  - exists (in_program ++ [EntityDecl DS_integer 2 "X"]). vm_compute. reflexivity.
  - vm_compute. reflexivity.
Defined.

(** *** Declaring a name again *)

(** X9.  A name declared in the current context cannot be declared there
    again by any of the three declaring actions: after a successful entity
    declaration an explicit declaration, an implicit declaration and a
    PARAMETER pair for the same name all return the empty result, report an
    error at the new location and a note at the location of the first
    declaration, and create nothing. *)
Theorem declared_name_is_taken st DS1 L1 n c :
  reachable st → CurContext st = Some c → declared_here st n = false →
  ∃ vd st1,
    ActOnEntityDecl DS1 L1 n st = Some (Some vd, st1) ∧
    (∀ DS2 L2,
       ActOnEntityDecl DS2 L2 n st1 =
       Some (None, with_diags st1
                     (clash_diags L2 n "declared" L1 "previous declaration"))) ∧
    (∀ L2,
       ActOnImplicitEntityDecl L2 n st1 =
       Some (None, with_diags st1
                     (clash_diags L2 n "declared" L1 "previous declaration"))) ∧
    (∀ L2 CE,
       ActOnPARAMETERPair L2 n CE st1 =
       Some ((None, None),
             with_diags st1
               (clash_diags L2 n "defined" L1 "previous definition"))).
Proof.
  intros Hwf%reachable_wf Hc Hundecl.
  eexists _, _. split; [by apply ActOnEntityDecl_new|].
  set (st1 := declared st c _ n).
  assert (Htok : FETokenInfo st1 !! n = (Some (length (Decls st)) : option DeclPtr)).
  { simpl. apply lookup_insert_eq. }
  assert (HP : Decls st1 !! (length (Decls st) : DeclPtr) =
               Some (VarDecl (Some c) L1 n (ActOnTypeName DS1))).
  { apply declared_node. }
  assert (Hent : ∀ DS2 L2,
    ActOnEntityDecl DS2 L2 n st1 =
    Some (None, with_diags st1
                  (clash_diags L2 n "declared" L1 "previous declaration"))).
  { intros DS2 L2. rewrite ActOnEntityDecl_eq. cbv zeta. rewrite Htok, HP.
    simpl. by rewrite Hc, bool_decide_eq_true_2. }
  split_and!.
  - done.
  - intros L2. unfold ActOnImplicitEntityDecl. cbv zeta. apply Hent.
  - intros L2 CE. rewrite ActOnPARAMETERPair_eq. by rewrite Htok, HP.
Qed.

Lemma declared_name_is_taken_witness :
  let st := after in_program in
  ∃ vd st1,
    ActOnEntityDecl DS_integer 2 "I" st = Some (Some vd, st1) ∧
    (∀ DS2 L2,
       ActOnEntityDecl DS2 L2 "I" st1 =
       Some (None, with_diags st1
                     (clash_diags L2 "I" "declared" 2 "previous declaration"))) ∧
    (∀ L2,
       ActOnImplicitEntityDecl L2 "I" st1 =
       Some (None, with_diags st1
                     (clash_diags L2 "I" "declared" 2 "previous declaration"))) ∧
    (∀ L2 CE,
       ActOnPARAMETERPair L2 "I" CE st1 =
       Some ((None, None),
             with_diags st1
               (clash_diags L2 "I" "defined" 2 "previous definition"))).
Proof.
  intros st. apply (declared_name_is_taken st DS_integer 2 "I" 1%nat).
  - exists in_program. vm_compute. reflexivity.
  - vm_compute. reflexivity.
  - vm_compute. reflexivity.
Defined.

(** *** PARAMETER pairs *)

(** X10.  A PARAMETER pair for an unbound name with a valid constant
    expression declares a variable of the type of the expression in the
    current context, appends it to the declarations of the context, binds
    the name to it and returns the pair, without a diagnostic; with an
    invalid expression the action does not return, because the null
    expression is followed. *)
Theorem parameter_pair_declares st L n E c :
  CurContext st = Some c → lookup st n = None →
  (∃ vd st',
     ActOnPARAMETERPair L n (Some E) st = Some ((Some n, Some E), st') ∧
     Decls st' !! vd = Some (VarDecl (Some c) L n (getType E)) ∧
     Decls st' = Decls st ++ [VarDecl (Some c) L n (getType E)] ∧
     decls_of st' c = decls_of st c ++ [vd] ∧
     lookup st' n = Some vd ∧ Diags st' = Diags st) ∧
  ActOnPARAMETERPair L n None st = None.
Proof.
  intros Hc Htok. split.
  - exists (length (Decls st)). eexists.
    split; [by apply parameter_pair_new|]. split_and!; try done.
    + apply declared_node.
    + unfold decls_of at 1. simpl. by rewrite lookup_insert_eq.
    + unfold lookup. simpl. apply lookup_insert_eq.
  - rewrite ActOnPARAMETERPair_eq. unfold lookup in Htok. by rewrite Htok.
Qed.

Lemma parameter_pair_declares_witness :
  let st := after in_program in
  let E := mkExpr IntegerTy 3 in
  (∃ vd st',
     ActOnPARAMETERPair 2 "N" (Some E) st = Some ((Some "N", Some E), st') ∧
     Decls st' !! vd = Some (VarDecl (Some 1%nat) 2 "N" (getType E)) ∧
     Decls st' = Decls st ++ [VarDecl (Some 1%nat) 2 "N" (getType E)] ∧
     decls_of st' 1%nat = decls_of st 1%nat ++ [vd] ∧
     lookup st' "N" = Some vd ∧ Diags st' = Diags st) ∧
  ActOnPARAMETERPair 2 "N" None st = None.
Proof.
  intros st E. apply (parameter_pair_declares st 2 "N" E 1%nat).
  - vm_compute. reflexivity.
  - vm_compute. reflexivity.
Defined.

(** X11.  A PARAMETER pair looks at the binding of the name only, not at the
    context it belongs to: a name bound in another declaration context than
    the current one is rejected with the error and the note, where an entity
    declaration of the same name at the same place is accepted without a
    diagnostic. *)
Theorem parameter_pair_ignores_context st L n CE c Prev P :
  reachable st → CurContext st = Some c →
  lookup st n = Some Prev → Decls st !! Prev = Some P →
  getDeclContext P ≠ Some c →
  ActOnPARAMETERPair L n CE st =
    Some ((None, None),
          with_diags st
            (clash_diags L n "defined" (getLocation P) "previous definition")) ∧
  ∀ DS, ∃ st',
    ActOnEntityDecl DS L n st = Some (Some (length (Decls st)), st') ∧
    Diags st' = Diags st.
Proof.
  intros Hwf%reachable_wf Hc Htok HP Hctx. unfold lookup in Htok. split.
  - rewrite ActOnPARAMETERPair_eq. by rewrite Htok, HP.
  - intros DS.
    exists (declared st c (VarDecl (Some c) L n (ActOnTypeName DS)) n).
    split; [|done].
    apply ActOnEntityDecl_new; [done..|].
    unfold declared_here. rewrite Htok, HP, Hc.
    by apply bool_decide_eq_false_2.
Qed.

(** The [X] of the program [P], met again in the program [Q]. *)
Lemma parameter_pair_ignores_context_witness :
  let st := after (in_program ++
                   [EntityDecl DS_integer 2 "X"; EndMainProgram None 3;
                    MainProgram (Some "Q") 4]) in
  let P := VarDecl (Some 1%nat) 2 "X" IntegerTy in
  ActOnPARAMETERPair 5 "X" (Some (mkExpr IntegerTy 6)) st =
    Some ((None, None),
          with_diags st
            (clash_diags 5 "X" "defined" (getLocation P) "previous definition")) ∧
  ∀ DS, ∃ st',
    ActOnEntityDecl DS 5 "X" st = Some (Some (length (Decls st)), st') ∧
    Diags st' = Diags st.
Proof.
  intros st P.
  apply (parameter_pair_ignores_context st 5 "X" (Some (mkExpr IntegerTy 6))
           3%nat 2%nat P).
  - exists (in_program ++
            [EntityDecl DS_integer 2 "X"; EndMainProgram None 3;
             MainProgram (Some "Q") 4]).
    vm_compute. reflexivity.
  - vm_compute. reflexivity.
  - vm_compute. reflexivity.
  - vm_compute. reflexivity.
  - vm_compute. discriminate.
Defined.

End Invariants.
(** ** More on type uniquing *)

Section Uniqued.
Import ASTContext Uniquing.
Local Open Scope stdpp_scope.

(** The node of a profile is the node of the request. *)
Lemma node_profile_inj n r :
  node_profile n = Some (profile r) → n = request_node r.
Proof.
  intros H.
  assert (∃ r', n = request_node r') as [r' ->].
  { destruct n as [TS|l k|t m|t d]; [done| | |].
    - by exists (CharacterRequest l k).
    - by exists (PointerRequest t m).
    - by exists (ArrayRequest t d). }
  rewrite node_profile_request in H.
  assert (Hp : profile r' = profile r) by congruence.
  by rewrite (profile_inj _ _ Hp).
Qed.

Lemma requests_app rs rs' C :
  requests (rs ++ rs') C = requests rs' (requests rs C).
Proof. unfold requests. by rewrite foldl_app. Qed.

Lemma requests_ok rs : registered_ok (requests rs InitBuiltinTypes).
Proof. apply requests_spec, registered_ok_init. Qed.

(** The handles of the base types are fixed when the context is built. *)
Lemma request_keeps_base r C TS :
  getBuiltinQualType TS (request r C).2 = getBuiltinQualType TS C.
Proof.
  destruct r; simpl;
    unfold getCharacterBuiltinType, getPointerType, getArrayType;
    case_match; by destruct TS.
Qed.

Lemma requests_keep_base rs C TS :
  getBuiltinQualType TS (requests rs C) = getBuiltinQualType TS C.
Proof.
  revert C. induction rs as [|r rs IH]; intros C; [done|].
  unfold requests. simpl. fold (requests rs (request r C).2).
  by rewrite IH, request_keeps_base.
Qed.

(** The node behind a returned handle, now and after further requests. *)
Lemma request_denotes (before later : list TypeRequest) (r : TypeRequest) :
  let C := requests before InitBuiltinTypes in
  Types (requests later (request r C).2) !! (request r C).1
  = Some (request_node r).
Proof.
  intros C. pose proof (requests_ok before) as Hok. fold C in Hok.
  destruct (request r C) as [h C'] eqn:Hr. simpl.
  destruct (request_spec _ _ _ _ Hok Hr) as (Hok' & _ & Hreg).
  destruct (requests_spec later C' Hok') as [_ [Hnodes _]].
  apply Hnodes.
  destruct (Hok' _ _ _ Hreg) as (n & Hn & Hp).
  by rewrite (node_profile_inj n r Hp) in Hn.
Qed.

(** X12.  A type handle denotes what was asked for: the node behind the
    handle a request returns has the class and the fields of the request,
    whether the node was found or allocated, and it is the same node after
    any further requests. *)
Theorem handle_denotes_request (before later : list TypeRequest) (r : TypeRequest) :
  let C := requests before InitBuiltinTypes in
  Types (requests later (request r C).2) !! (request r C).1
  = Some (request_node r).
Proof. exact (request_denotes before later r). Qed.

(** X13.  The six base types are not uniqued with the others: after any
    requests each base type is still the node allocated for it when the
    context was built, the six handles are distinct, and no request returns
    one of them, not even a character type without length and kind. *)
Theorem base_types_apart (rs : list TypeRequest) (r : TypeRequest)
    (TS TS' : TypeSpec) :
  let C := requests rs InitBuiltinTypes in
  Types C !! getBuiltinQualType TS C = Some (BuiltinType TS) ∧
  (getBuiltinQualType TS C = getBuiltinQualType TS' C → TS = TS') ∧
  (request r C).1 ≠ getBuiltinQualType TS C.
Proof.
  intros C.
  assert (Hbase : ∀ rs' T,
    Types (requests rs' InitBuiltinTypes)
      !! getBuiltinQualType T (requests rs' InitBuiltinTypes)
    = Some (BuiltinType T)).
  { intros rs' T. rewrite requests_keep_base.
    destruct (requests_spec rs' InitBuiltinTypes registered_ok_init)
      as [_ [Hnodes _]].
    apply Hnodes. by destruct T. }
  split_and!.
  - apply Hbase.
  - intros Heq. pose proof (Hbase rs TS) as H1. pose proof (Hbase rs TS') as H2.
    fold C in H1, H2. rewrite Heq in H1. congruence.
  - intros Heq.
    pose proof (request_denotes rs [] r) as Hnode. simpl in Hnode.
    fold C in Hnode. rewrite Heq in Hnode.
    pose proof (Hbase (rs ++ [r]) TS) as Hb.
    rewrite requests_app in Hb. fold C in Hb. simpl in Hb.
    unfold requests in Hb. simpl in Hb.
    rewrite request_keeps_base in Hb.
    rewrite Hb in Hnode. by destruct r.
Qed.

(** A request registers the handle it returns under its profile. *)
Lemma request_registers r C :
  table (request_class r) (request r C).2 !! request_ID r = Some (request r C).1.
Proof.
  destruct r; simpl;
    unfold getCharacterBuiltinType, getPointerType, getArrayType;
    case_match eqn:Hl; simpl; done || apply lookup_insert_eq.
Qed.

(** X14.  Asking again costs nothing: a request repeated directly after
    itself returns the same handle and leaves the context, its nodes and
    its folding sets, exactly as the first one left it. *)
Theorem request_idempotent (r : TypeRequest) (C : ASTContext) :
  request r (request r C).2 = request r C.
Proof.
  pose proof (request_registers r C) as Hreg.
  destruct (request r C) as [h C'] eqn:Hr. simpl in Hreg.
  destruct r; simpl in *;
    unfold getCharacterBuiltinType, getPointerType, getArrayType;
    by rewrite Hreg.
Qed.

(** A request finds its profile registered and changes nothing, or does not
    find it, allocates the node and registers it. *)
Lemma request_cases r C :
  (table (request_class r) C !! request_ID r = Some (request r C).1 ∧
   (request r C).2 = C) ∨
  (table (request_class r) C !! request_ID r = None ∧
   (request r C).1 = length (Types C) ∧
   Types (request r C).2 = Types C ++ [request_node r] ∧
   ∀ k, table k (request r C).2 =
        if bool_decide (k = request_class r)
        then <[request_ID r := length (Types C)]> (table k C) else table k C).
Proof.
  destruct r; simpl;
    unfold getCharacterBuiltinType, getPointerType, getArrayType; simpl;
    match goal with
    | |- context [?m !! ?i] => destruct (m !! i) eqn:Hl
    end; simpl; [by left|right|by left|right|by left|right];
    (split_and!; [done..|]); by intros [].
Qed.

Lemma counted_request r C s :
  counted C s → counted (request r C).2 ({[profile r]} ∪ s).
Proof.
  intros [Hreg Hlen].
  destruct (request_cases r C) as [[Hl ->]|(Hl & _ & HT & Htab)].
  - assert (Hin : profile r ∈ s) by (apply Hreg; by eexists).
    assert ({[profile r]} ∪ s = s) as -> by set_solver.
    by split.
  - assert (Hnin : profile r ∉ s).
    { intros Hin%Hreg. rewrite Hl in Hin. by destruct Hin. }
    split.
    + intros k ID. rewrite Htab. rewrite elem_of_union, elem_of_singleton.
      rewrite <- Hreg. case_bool_decide as Hk.
      * subst k. rewrite lookup_insert_is_Some'. unfold profile.
        split; intros [?|?]; auto; left; congruence.
      * split; [by right|]. intros [Heq|?]; [|done].
        unfold profile in Heq. congruence.
    + rewrite HT, length_app, Hlen. simpl.
      rewrite size_union by set_solver. rewrite size_singleton. lia.
Qed.

Lemma counted_requests rs C s :
  counted C s → counted (requests rs C) (profiles rs ∪ s).
Proof.
  revert C s. induction rs as [|r rs IH]; intros C s HC.
  - unfold profiles. simpl. by assert (∅ ∪ s = s) as -> by set_solver.
  - unfold requests. simpl. fold (requests rs (request r C).2).
    assert (profiles (r :: rs) ∪ s = profiles rs ∪ ({[profile r]} ∪ s)) as ->.
    { unfold profiles. simpl. set_solver. }
    by apply IH, counted_request.
Qed.

(** X15.  Memory is bounded by what is distinct: after any sequence of
    requests the context holds the six base types and one node for each
    distinct profile that was asked for, however often it was asked for. *)
Theorem one_node_per_profile (rs : list TypeRequest) :
  length (Types (requests rs InitBuiltinTypes)) = (6 + size (profiles rs))%nat.
Proof.
  assert (H0 : counted InitBuiltinTypes ∅).
  { split; [|done]. intros [] ID; simpl; rewrite lookup_empty;
      split; (by intros [? ?]) || set_solver. }
  destruct (counted_requests rs _ _ H0) as [_ Hlen].
  by assert (profiles rs ∪ ∅ = profiles rs) as <- by set_solver.
Qed.

(** *** Variable declarations by identifier *)

Section VarDecls.

Variable VarDecl_Profile : IdentifierPtr → FoldingSetNodeID.
Hypothesis Profile_inj : ∀ i j, VarDecl_Profile i = VarDecl_Profile j → i = j.


Lemma first_call_snoc Info calls d :
  first_call Info (calls ++ [d]) =
  match first_call Info calls with
  | Some x => Some x
  | None => if (VD_Info d =? Info)%N then Some d else None
  end.
Proof.
  induction calls as [|x calls IH]; simpl; [done|].
  by destruct (VD_Info x =? Info)%N.
Qed.

Lemma first_wins_step C calls d :
  first_wins VarDecl_Profile C calls →
  first_wins VarDecl_Profile (getOrCreateVarDecl VarDecl_Profile (VD_Loc d) (VD_DS d) (VD_Info d) C).2 (calls ++ [d]).
Proof.
  intros Hinv Info. rewrite first_call_snoc.
  pose proof (Hinv Info) as HI. pose proof (Hinv (VD_Info d)) as Hd.
  unfold getOrCreateVarDecl, getVarDecl in *.
  destruct (VariableDecls C !! VarDecl_Profile (VD_Info d)) as [h|] eqn:Hl; simpl.
  - destruct (VariableDecls C !! VarDecl_Profile Info) as [h'|] eqn:Hl'.
    + destruct HI as (x & -> & Hx). by exists x.
    + rewrite HI. destruct (N.eqb_spec (VD_Info d) Info) as [Heq|]; [|done].
      subst Info. congruence.
  - destruct (decide (VD_Info d = Info)) as [<-|Hne].
    + rewrite lookup_insert_eq, Hd, N.eqb_refl. exists d. split; [done|].
      destruct d. simpl. by rewrite lookup_app_r, Nat.sub_diag.
    + rewrite lookup_insert_ne by (intros ?%Profile_inj; done).
      destruct (VariableDecls C !! VarDecl_Profile Info) as [h'|] eqn:Hl'.
      * destruct HI as (x & -> & Hx). exists x. split; [done|].
        by apply lookup_app_l_Some.
      * rewrite HI. by destruct (N.eqb_spec (VD_Info d) Info).
Qed.

Lemma first_wins_created calls' C calls :
  first_wins VarDecl_Profile C calls →
  first_wins VarDecl_Profile (created VarDecl_Profile calls' C) (calls ++ calls').
Proof.
  revert C calls. induction calls' as [|d calls' IH]; intros C calls Hinv.
  - by rewrite app_nil_r.
  - unfold created. simpl. fold (created VarDecl_Profile calls').
    replace (calls ++ d :: calls') with ((calls ++ [d]) ++ calls')
      by (by rewrite <- app_assoc).
    by apply IH, first_wins_step.
Qed.

(** X16.  Variable declarations are uniqued by identifier, and the first
    call wins: after any sequence of [getOrCreateVarDecl] calls on a new
    context, [getVarDecl] finds an identifier exactly when it was asked for,
    what it finds is the declaration with the location and the specifier of
    the first call for that identifier, and a further [getOrCreateVarDecl]
    for it returns that declaration and changes nothing, whatever location
    and specifier it is given. *)
Theorem var_decl_first_wins (calls : list VarDecl) (Info : IdentifierPtr) :
  let C := created VarDecl_Profile calls VarContext_new in
  match getVarDecl VarDecl_Profile Info C with
  | Some h =>
      (∃ d, first_call Info calls = Some d ∧ VarNodes C !! h = Some d) ∧
      ∀ Loc DS, getOrCreateVarDecl VarDecl_Profile Loc DS Info C = (h, C)
  | None =>
      first_call Info calls = None ∧
      ∀ Loc DS,
        getOrCreateVarDecl VarDecl_Profile Loc DS Info C =
        (length (VarNodes C),
         mkVarContext (VarNodes C ++ [mkVarDecl Loc DS Info])
           (<[VarDecl_Profile Info := length (VarNodes C)]> (VariableDecls C)))
  end.
Proof.
  intros C.
  assert (Hinv : first_wins VarDecl_Profile C calls).
  { apply (first_wins_created calls VarContext_new []).
    intros i. unfold getVarDecl. simpl. by rewrite lookup_empty. }
  specialize (Hinv Info). unfold getVarDecl, getOrCreateVarDecl in *.
  destruct (VariableDecls C !! VarDecl_Profile Info) as [h|] eqn:Hl.
  - split; [done|]. intros Loc DS. done.
  - split; [done|]. intros Loc DS. done.
Qed.

End VarDecls.

(** Three calls, two of them for the identifier at 100. *)
Lemma var_decl_first_wins_witness :
  let Profile := fun i : IdentifierPtr => [i] in
  let calls := [mkVarDecl 1 10 100; mkVarDecl 2 20 200; mkVarDecl 3 30 100] in
  let C := created Profile calls VarContext_new in
  match getVarDecl Profile 100 C with
  | Some h =>
      (∃ d, first_call 100 calls = Some d ∧ VarNodes C !! h = Some d) ∧
      ∀ Loc DS, getOrCreateVarDecl Profile Loc DS 100 C = (h, C)
  | None =>
      first_call 100 calls = None ∧
      ∀ Loc DS,
        getOrCreateVarDecl Profile Loc DS 100 C =
        (length (VarNodes C),
         mkVarContext (VarNodes C ++ [mkVarDecl Loc DS 100])
           (<[Profile 100 := length (VarNodes C)]> (VariableDecls C)))
  end.
Proof.
  intros Profile calls C.
  apply (var_decl_first_wins Profile).
  intros i j H. by injection H.
Defined.

End Uniqued.

(** ** Statements with a list *)

Section ListStatements.

Import Stmt.

Context {T ExprResult : Type}.

Implicit Types (A : @Arena T) (IDs : list T).

Lemma copy_lookup_below p IDs (cells : gmap N T) q :
  q < p → copy p IDs cells !! q = cells !! q.
Proof.
  revert p cells. induction IDs as [|x IDs IH]; intros p cells Hq; simpl.
  - done.
  - rewrite IH by lia. apply lookup_insert_ne. lia.
Qed.

Lemma view_copy p IDs (cells : gmap N T) :
  view p (length IDs) (copy p IDs cells) = Some IDs.
Proof.
  revert p cells. induction IDs as [|x IDs IH]; intros p cells; simpl.
  - done.
  - rewrite copy_lookup_below by lia. rewrite lookup_insert_eq.
    by rewrite IH.
Qed.

Lemma view_agree p n (c1 c2 : gmap N T) :
  (∀ q, p ≤ q < p + N.of_nat n → c1 !! q = c2 !! q) →
  view p n c1 = view p n c2.
Proof.
  revert p. induction n as [|n IH]; intros p Hq; simpl.
  - done.
  - rewrite (Hq p) by lia. rewrite (IH (p + 1)); [done|].
    intros q ?. apply Hq. lia.
Qed.

Lemma count_length IDs :
  length (take (N.to_nat (N.of_nat (length IDs) mod UINT_RANGE)) IDs) =
  N.to_nat (N.of_nat (length IDs) mod UINT_RANGE).
Proof.
  rewrite length_take. apply Nat.min_l.
  pose proof (N.Div0.mod_le (N.of_nat (length IDs)) UINT_RANGE). lia.
Qed.

Lemma new_getIDList ID L IDs (SLT : ExprResult) A :
  getIDList (ListStmt_new ID L IDs SLT A).1 (ListStmt_new ID L IDs SLT A).2 =
  Some (take (N.to_nat (N.of_nat (length IDs) mod UINT_RANGE)) IDs).
Proof.
  unfold getIDList, ListStmt_new. simpl.
  rewrite <- (count_length IDs) at 1. apply view_copy.
Qed.

Lemma new_keeps (S : @ListStmt ExprResult) A ID L IDs (SLT : ExprResult) :
  IDList S + NumIDs S ≤ Next A →
  getIDList S (ListStmt_new ID L IDs SLT A).2 = getIDList S A ∧
  Next A ≤ Next (ListStmt_new ID L IDs SLT A).2.
Proof.
  intros Hb. unfold getIDList, ListStmt_new. split; [|apply N.le_add_r].
  apply view_agree. intros q Hq. apply copy_lookup_below. lia.
Qed.

Lemma constructed_keeps (S : @ListStmt ExprResult)
    (calls : list (@Call T ExprResult)) A :
  IDList S + NumIDs S ≤ Next A →
  getIDList S (constructed calls A) = getIDList S A.
Proof.
  revert A. induction calls as [|c calls IH]; intros A Hb; [done|].
  change (constructed (c :: calls) A) with
    (constructed calls
       (ListStmt_new (Call_ID c) (Call_Loc c) (Call_IDs c) (Call_Label c) A).2).
  destruct (new_keeps S A (Call_ID c) (Call_Loc c) (Call_IDs c) (Call_Label c) Hb)
    as [Hk Hn].
  rewrite IH by lia. done.
Qed.

(** X17.  The list of a statement reads back: [getIDList] on a statement
    just built by the constructor of [ListStmt] returns the elements the
    constructor was given, in their order, provided their number fits the
    [unsigned] count. *)
Theorem list_stmt_round_trip ID L IDs (SLT : ExprResult) A :
  N.of_nat (length IDs) < UINT_RANGE →
  let (S, A') := ListStmt_new ID L IDs SLT A in
  getIDList S A' = Some IDs ∧ NumIDs S = N.of_nat (length IDs).
Proof.
  intros Hfit.
  pose proof (new_getIDList ID L IDs SLT A) as H.
  destruct (ListStmt_new ID L IDs SLT A) as [S A'] eqn:Hnew.
  simpl in H. rewrite H.
  assert (Hs : NumIDs S = N.of_nat (length IDs)).
  { unfold ListStmt_new in Hnew. injection Hnew as <- _. simpl.
    by apply N.mod_small. }
  split; [|done].
  rewrite N.mod_small by done. rewrite Nat2N.id. by rewrite firstn_all.
Qed.

(** X18.  Statements built later do not disturb a list, and the count is
    taken modulo 2^32: after any further constructor calls on the same
    context, [getIDList] on the first statement still returns the first
    [NumIDs] elements it was built from, where [NumIDs] is the number of
    elements reduced to an [unsigned]. *)
Theorem list_stmt_stable ID L IDs (SLT : ExprResult) A
    (later : list (@Call T ExprResult)) :
  let (S, A') := ListStmt_new ID L IDs SLT A in
  NumIDs S = N.of_nat (length IDs) mod UINT_RANGE ∧
  getIDList S (constructed later A') = Some (take (N.to_nat (NumIDs S)) IDs).
Proof.
  pose proof (new_getIDList ID L IDs SLT A) as H.
  destruct (ListStmt_new ID L IDs SLT A) as [S A'] eqn:Hnew.
  simpl in H.
  assert (Hs : NumIDs S = N.of_nat (length IDs) mod UINT_RANGE ∧
               IDList S + NumIDs S ≤ Next A').
  { unfold ListStmt_new in Hnew. injection Hnew as <- <-. simpl. split; [done|lia]. }
  destruct Hs as [Hs Hb]. split; [done|].
  rewrite constructed_keeps by done. by rewrite Hs.
Qed.

End ListStatements.

(** A DIMENSION-like statement with three elements. *)
Lemma list_stmt_round_trip_witness :
  let (S, A') :=
    Stmt.ListStmt_new Stmt.ST_Dimension 7 [10; 20; 30] (None : option N)
      (Stmt.mkArena (∅ : gmap N N) 4) in
  Stmt.getIDList S A' = Some [10; 20; 30] ∧ Stmt.NumIDs S = N.of_nat 3.
Proof.
  apply (list_stmt_round_trip Stmt.ST_Dimension 7 [10; 20; 30] (None : option N)
           (Stmt.mkArena (∅ : gmap N N) 4)).
  vm_compute. reflexivity.
Defined.
(** ** Scanning a format string *)

Section Scanning.

Import Diag.

Local Open Scope char_scope.
Local Open Scope nat_scope.

Lemma ScanFormat_from_bound pt D (l : chars) T :
  ScanFormat_from pt D l T ≤ length l.
Proof.
  revert pt D. induction l as [|c l IH]; intros pt D; simpl; [lia|].
  destruct pt; repeat case_match; try lia;
    match goal with |- S (ScanFormat_from ?p ?d l T) ≤ _ =>
      specialize (IH p d); lia end.
Qed.

Lemma ScanFormat_from_target pt D (l : chars) T :
  ScanFormat_from pt D l T < length l →
  l !! ScanFormat_from pt D l T = Some T.
Proof.
  revert pt D. induction l as [|c l IH]; intros pt D; simpl; [lia|].
  destruct pt.
  - destruct ((D =? 0)%N && Ascii.eqb c T) eqn:Hhit.
    + intros _. apply andb_true_iff in Hhit as [_ Hc].
      apply Ascii.eqb_eq in Hc. by subst.
    + destruct (Ascii.eqb c "%"); intros Hlt; simpl; apply IH; lia.
  - destruct (negb (isDigit c) && negb (isPunctuation c));
      intros Hlt; simpl; apply IH; lia.
  - destruct (negb (isDigit c) && negb (Ascii.eqb c "{"));
      intros Hlt; simpl; apply IH; lia.
Qed.

Lemma ScanFormat_from_plain (l : chars) T i c :
  "%" ∉ l → i < ScanFormat_from LoopHead 0 l T → l !! i = Some c → c ≠ T.
Proof.
  revert i. induction l as [|x l IH]; intros i Hno; simpl; [lia|].
  apply not_elem_of_cons in Hno as [Hx Hno].
  destruct (Ascii.eqb x T) eqn:HxT; simpl; [lia|].
  destruct (Ascii.eqb_spec x "%") as [->|_]; [done|].
  intros Hlt Hi. destruct i as [|i]; simpl in Hi.
  - injection Hi as <-. by apply Ascii.eqb_neq.
  - apply (IH i); [done|lia|done].
Qed.

(** X19.  [ScanFormat] stays inside its range and stops only at the
    target: the pointer it returns is never beyond [E], and when it is not
    [E] itself the character it points to is the target character. *)
Theorem scan_stops_at_target (l : chars) (Target : ascii) :
  ScanFormat l Target ≤ length l ∧
  match l !! ScanFormat l Target with
  | Some c => c = Target
  | None => ScanFormat l Target = length l
  end.
Proof.
  pose proof (ScanFormat_from_bound LoopHead 0 l Target) as Hb.
  split; [done|]. unfold ScanFormat, chars in *.
  destruct (decide (ScanFormat_from LoopHead 0 l Target < length l)) as [Hlt|Hge].
  - by rewrite ScanFormat_from_target.
  - rewrite lookup_ge_None_2 by lia. lia.
Qed.

(** X20.  Without a percent sign [ScanFormat] is a plain search for the
    first occurrence: in a range that holds no percent sign no character
    before the returned pointer is the target character. *)
Theorem scan_plain_text_first (l : chars) (Target : ascii) :
  "%" ∉ l → Target ∉ take (ScanFormat l Target) l.
Proof.
  intros Hno [i [Hi Hlt]]%elem_of_take.
  by apply (ScanFormat_from_plain l Target i Target Hno Hlt Hi).
Qed.

(** X21.  A value past the last alternative trips the assertion of
    [HandleSelectModifier]: with alternatives whose bars are all escaped or
    nested, a positive value that is not below their number makes the
    skipping loop scan to the end of the argument, and nothing is
    formatted. *)
Theorem select_value_out_of_range
    (FormatDiagnostic : chars → chars → option chars)
    (alts : list chars) (K : nat) (OutStr : chars) :
  Forall (clause "|") alts →
  0 < K → length alts ≤ K →
  (N.of_nat (length (join alts)) < UINT_RANGE)%N →
  HandleSelectModifier FormatDiagnostic (N.of_nat K) (join alts) OutStr = None.
Proof.
  intros Hcl HK Hlen Hfit. unfold HandleSelectModifier.
  rewrite Nat2N.id.
  enough (skip_alternatives K (join alts) = None) as -> by done.
  revert K HK Hlen. induction Hcl as [|a alts Ha Hcl IH]; intros K HK Hlen.
  - destruct K as [|K]; [lia|]. done.
  - destruct K as [|K]; [lia|]. simpl in Hlen.
    destruct alts as [|b alts].
    + simpl. rewrite ScanFormat_end by done. by rewrite Nat.eqb_refl.
    + rewrite join_cons in * by done.
      cbn [skip_alternatives]. rewrite ScanFormat_separator by done.
      rewrite length_app. cbn [length].
      destruct (Nat.eqb_spec (length a) (length a + S (length (join (b :: alts)))))
        as [?|_]; [lia|].
      replace (drop (S (length a)) (a ++ "|" :: join (b :: alts)))
        with (join (b :: alts)).
      2:{ change (a ++ "|" :: join (b :: alts))
            with (a ++ ["|"] ++ join (b :: alts)).
          rewrite app_assoc. rewrite drop_app_length'; [done|].
          rewrite length_app. simpl. lia. }
      apply IH.
      * rewrite length_app in Hfit. cbn [length] in Hfit. lia.
      * simpl in Hlen |- *. lia.
      * simpl in Hlen |- *. lia.
Qed.

End Scanning.

(** The percent-free text [a|b|c] scanned for the bar. *)
Lemma scan_plain_text_first_witness :
  let l := String.list_ascii_of_string "ab|c|d"%string in
  "|"%char ∉ take (Diag.ScanFormat l "|"%char) l.
Proof.
  intros l. apply (scan_plain_text_first l "|"%char).
  vm_compute. intros H.
  repeat (apply elem_of_cons in H as [H|H]; [discriminate|]).
  by apply elem_of_nil in H.
Defined.

(** Two alternatives and the value 2. *)
Lemma select_value_out_of_range_witness :
  let alts := [String.list_ascii_of_string "one"%string;
               String.list_ascii_of_string "two"%string] in
  Diag.HandleSelectModifier (fun a out => Some (out ++ a)) 2 (Diag.join alts) []
  = None.
Proof.
  intros alts.
  apply (select_value_out_of_range (fun a out => Some (out ++ a)) alts 2 []).
  - repeat constructor; discriminate.
  - lia.
  - simpl. lia.
  - vm_compute. reflexivity.
Defined.

(** ** The plural modifier *)

Section Plurals.

Import Diag Plural.

Local Open Scope char_scope.
Local Open Scope N_scope.

Implicit Types (n ds rest Start : chars) (c s : ascii) (d : Z) (v : N).

Lemma digit_not c x : isDigit c = true → isDigit x = false → Ascii.eqb c x = false.
Proof.
  intros Hc Hx. destruct (Ascii.eqb_spec c x) as [->|]; [congruence|done].
Qed.

Lemma PluralNumber_from_digits ds v c rest d :
  Forall (fun c => isDigit c = true) ds → isDigit c = false →
  (Z.of_nat (length ds) ≤ d)%Z →
  PluralNumber_from (v mod UINT_RANGE) (ds ++ c :: rest) d =
  Some (foldl (fun v c => v * 10 + digit c) v ds mod UINT_RANGE,
        (c :: rest, (d - Z.of_nat (length ds))%Z)).
Proof.
  intros Hds Hc. revert v d.
  induction Hds as [|x ds Hx Hds IH]; intros v d Hd; simpl in *.
  - rewrite Hc, Z.sub_0_r. by destruct (d =? 0)%Z.
  - destruct (Z.eqb_spec d 0) as [?|_]; [lia|]. rewrite Hx.
    replace ((v mod UINT_RANGE * 10 + digit x) mod UINT_RANGE)
      with ((v * 10 + digit x) mod UINT_RANGE).
    + rewrite IH by lia. do 3 f_equal. lia.
    + rewrite <- (N.Div0.add_mod_idemp_l (v mod UINT_RANGE * 10)).
      rewrite N.Div0.mul_mod_idemp_l.
      by rewrite N.Div0.add_mod_idemp_l.
Qed.

Lemma PluralNumber_print n c rest d :
  Forall (fun c => isDigit c = true) n → isDigit c = false →
  (Z.of_nat (length n) ≤ d)%Z →
  PluralNumber (n ++ c :: rest) d =
  Some (unsigned_value n, (c :: rest, (d - Z.of_nat (length n))%Z)).
Proof.
  intros. unfold PluralNumber, unsigned_value, value.
  by rewrite <- (PluralNumber_from_digits n 0 c rest d).
Qed.

Lemma TestPluralRange_print (r : range) v c rest d :
  range_ok r → isDigit c = false →
  (Z.of_nat (length (print_range r)) ≤ d)%Z →
  TestPluralRange v (print_range r ++ c :: rest) d =
  Some (in_range r v, (c :: rest, (d - Z.of_nat (length (print_range r)))%Z)).
Proof.
  intros Hr Hc Hd. destruct r as [n|low high]; simpl in *.
  - destruct Hr as [Hne Hn]. unfold TestPluralRange.
    destruct n as [|x n']; [done|].
    assert (Hx : isDigit x = true) by (by inversion Hn).
    change ((x :: n') ++ c :: rest) with (x :: (n' ++ c :: rest)).
    cbv beta iota. rewrite (digit_not x "[" Hx eq_refl). simpl negb. cbv iota.
    change (x :: n' ++ c :: rest) with ((x :: n') ++ c :: rest).
    by rewrite PluralNumber_print.
  - destruct Hr as [[_ Hl] [_ Hh]]. unfold TestPluralRange.
    rewrite length_app in Hd. simpl in Hd. rewrite length_app in Hd.
    simpl in Hd.
    replace ((low ++ "," :: high ++ ["]"]) ++ c :: rest)
      with (low ++ "," :: (high ++ "]" :: c :: rest)).
    2:{ rewrite <- app_assoc. simpl. by rewrite <- app_assoc. }
    simpl. rewrite PluralNumber_print by (done || lia).
    rewrite PluralNumber_print by (done || lia).
    do 3 f_equal. rewrite length_app. simpl. rewrite length_app. simpl. lia.
Qed.

Lemma EvalPluralExpr_test_print (x : numeric) v c rest d :
  numeric_ok x → isDigit c = false →
  (Z.of_nat (length (print_numeric x)) ≤ d)%Z →
  EvalPluralExpr_test v (print_numeric x ++ c :: rest) d =
  match holds_numeric x v with
  | Some b =>
      Some (b, (c :: rest, (d - Z.of_nat (length (print_numeric x)))%Z))
  | None => None
  end.
Proof.
  intros Hx Hc Hd. destruct x as [r|n r]; simpl in *.
  - rewrite <- (TestPluralRange_print r v c rest d) by done.
    unfold EvalPluralExpr_test.
    destruct r as [n|low high]; simpl in *.
    + destruct Hx as [Hne Hn]. destruct n as [|y n]; [done|].
      assert (Hy : isDigit y = true) by (by inversion Hn).
      simpl. rewrite (digit_not y "%" Hy eq_refl), Hy.
      by rewrite orb_true_r.
    + done.
  - destruct Hx as [[_ Hn] Hr]. unfold EvalPluralExpr_test. simpl.
    rewrite length_app in Hd. simpl in Hd.
    replace ((n ++ "=" :: print_range r) ++ c :: rest)
      with (n ++ "=" :: (print_range r ++ c :: rest))
      by (by rewrite <- app_assoc).
    rewrite PluralNumber_print by (done || lia).
    destruct (unsigned_value n =? 0); [done|].
    rewrite TestPluralRange_print by (done || lia).
    do 3 f_equal. rewrite length_app. simpl. lia.
Qed.

Lemma print_condition_cons (x : numeric) (e : condition) :
  e ≠ [] → print_condition (x :: e) = print_numeric x ++ "," :: print_condition e.
Proof. by destruct e. Qed.

Lemma EvalPluralExpr_loop_print (e : condition) rounds v rest :
  Forall numeric_ok e → (length e ≤ rounds)%nat → e ≠ [] →
  EvalPluralExpr_loop rounds v (print_condition e ++ ":" :: rest)
    (Z.of_nat (length (print_condition e))) =
  Ended (holds_expression e v).
Proof.
  intros He. revert rounds.
  induction He as [|x e Hx He IH]; intros rounds Hr Hnil; [done|].
  clear Hnil. destruct rounds as [|rounds]; [simpl in Hr; lia|].
  destruct (decide (e = [])) as [->|Hne].
  - cbn [print_condition EvalPluralExpr_loop holds_expression].
    rewrite EvalPluralExpr_test_print by (done || lia).
    destruct (holds_numeric x v) as [[|]|]; simpl; [done| |done].
    rewrite Z.sub_diag. done.
  - rewrite print_condition_cons by done.
    replace ((print_numeric x ++ "," :: print_condition e) ++ ":" :: rest)
      with (print_numeric x ++ "," :: (print_condition e ++ ":" :: rest))
      by (by rewrite <- app_assoc).
    cbn [EvalPluralExpr_loop holds_expression].
    rewrite length_app. cbn [length].
    rewrite EvalPluralExpr_test_print by (done || lia).
    destruct (holds_numeric x v) as [[|]|]; cbv beta iota; [done| |done].
    cbn [find].
    destruct (Z.eqb_spec
      (Z.of_nat (length (print_numeric x) + S (length (print_condition e))) -
       Z.of_nat (length (print_numeric x))) 0) as [?|_]; [lia|].
    cbn [Ascii.eqb Bool.eqb tail].
    destruct (Z.eqb_spec
      (Z.of_nat (length (print_numeric x) + S (length (print_condition e))) -
       Z.of_nat (length (print_numeric x))) 0) as [?|_]; [lia|].
    replace (Z.of_nat (length (print_numeric x) + S (length (print_condition e))) -
       Z.of_nat (length (print_numeric x)) - 1)%Z
      with (Z.of_nat (length (print_condition e))) by lia.
    apply IH; [simpl in Hr; lia|done].
Qed.

Lemma print_numeric_head (x : numeric) :
  numeric_ok x →
  ∃ c l, print_numeric x = c :: l ∧ Ascii.eqb c ":" = false.
Proof.
  destruct x as [[n|low high]|n r]; simpl.
  - intros [Hne Hn]. destruct n as [|y n]; [done|].
    exists y, n. split; [done|]. apply digit_not; [by inversion Hn|done].
  - intros _. by eexists _, _.
  - intros _. by eexists _, _.
Qed.

Lemma print_condition_length (e : condition) :
  Forall numeric_ok e → (length e ≤ length (print_condition e))%nat.
Proof.
  induction 1 as [|x e Hx He IH]; [done|].
  destruct (print_numeric_head x Hx) as (c & l & Hp & _).
  destruct (decide (e = [])) as [->|Hne].
  - simpl. rewrite Hp. simpl. lia.
  - rewrite print_condition_cons by done. rewrite length_app. simpl. lia.
Qed.

Lemma EvalPluralExpr_print (e : condition) v rest :
  Forall numeric_ok e →
  EvalPluralExpr v (print_condition e ++ ":" :: rest)
    (Z.of_nat (length (print_condition e))) =
  holds e v.
Proof.
  intros He. destruct e as [|x e]; [done|].
  assert (Hx : numeric_ok x) by (by inversion He).
  destruct (print_numeric_head x Hx) as (c & l & Hp & Hc).
  assert (∃ l', print_condition (x :: e) = c :: l') as [l' Hl'].
  { destruct e; simpl; rewrite Hp; by eexists. }
  pose proof (print_condition_length _ He) as Hlen.
  unfold EvalPluralExpr, holds.
  rewrite (EvalPluralExpr_loop_print (x :: e)
             (S (length (print_condition (x :: e) ++ ":" :: rest))) v rest);
    [|done|rewrite length_app; lia|done].
  rewrite Hl'. simpl. by rewrite Hc.
Qed.

Lemma clause_app T (a b : chars) : clause T a → clause T b → clause T (a ++ b).
Proof.
  intros Ha Hb. induction Ha as [|c l ? ? ? IH|c l ? ? IH|m x l ? ? ? IH|m body l ? ? ? IH].
  - done.
  - by apply clause_char.
  - by apply (clause_escape T c).
  - replace (("%" :: m ++ x :: l) ++ b) with ("%" :: m ++ x :: (l ++ b))
      by (simpl; by rewrite <- app_assoc).
    by apply clause_plain.
  - replace (("%" :: m ++ "{" :: body ++ "}" :: l) ++ b)
      with ("%" :: m ++ "{" :: body ++ "}" :: (l ++ b)).
    + by apply clause_braces.
    + simpl. rewrite <- app_assoc. simpl. by rewrite <- app_assoc.
Qed.

(** The characters of a condition: no bar, no colon, and a percent sign
    only in front of a digit. *)
Lemma digits_clause n (l : chars) :
  Forall (fun c => isDigit c = true) n → clause "|" l → clause "|" (n ++ l).
Proof.
  induction 1 as [|x n Hx Hn IH]; intros Hl; [done|]. simpl.
  apply clause_char; [..|by apply IH]; intros ->; done.
Qed.

Lemma digits_no_colon n :
  Forall (fun c => isDigit c = true) n → Forall (fun c => c ≠ ":") n.
Proof. intros Hn. apply (Forall_impl _ _ _ Hn). intros x Hx ->. done. Qed.

Lemma print_range_clause (r : range) (l : chars) :
  range_ok r → clause "|" l → clause "|" (print_range r ++ l).
Proof.
  destruct r as [n|low high]; simpl.
  - intros [_ Hn]. by apply digits_clause.
  - intros [[_ Hl] [_ Hh]] Hc. apply clause_char; [done..|].
    rewrite <- app_assoc. apply digits_clause; [done|]. simpl.
    apply clause_char; [done..|]. rewrite <- app_assoc.
    apply digits_clause; [done|]. simpl. by apply clause_char.
Qed.

Lemma print_range_no_colon (r : range) :
  range_ok r → Forall (fun c => c ≠ ":") (print_range r).
Proof.
  destruct r as [n|low high]; simpl.
  - intros [_ Hn]. by apply digits_no_colon.
  - intros [[_ Hl] [_ Hh]]. apply Forall_cons. split; [done|].
    apply Forall_app. split; [by apply digits_no_colon|].
    apply Forall_cons. split; [done|].
    apply Forall_app. split; [by apply digits_no_colon|].
    by apply Forall_cons.
Qed.

Lemma print_numeric_clause (x : numeric) (l : chars) :
  numeric_ok x → clause "|" l → clause "|" (print_numeric x ++ l).
Proof.
  destruct x as [r|n r]; simpl.
  - apply print_range_clause.
  - intros [[Hne Hn] Hr] Hc. destruct n as [|y n]; [done|].
    apply Forall_cons in Hn as [Hy Hn]. simpl.
    apply clause_escape; [by left|]. rewrite <- app_assoc.
    apply digits_clause; [done|]. simpl. apply clause_char; [done..|].
    by apply print_range_clause.
Qed.

Lemma print_numeric_no_colon (x : numeric) :
  numeric_ok x → Forall (fun c => c ≠ ":") (print_numeric x).
Proof.
  destruct x as [r|n r]; simpl.
  - apply print_range_no_colon.
  - intros [[_ Hn] Hr]. apply Forall_cons. split; [done|].
    apply Forall_app. split; [by apply digits_no_colon|].
    apply Forall_cons. split; [done|]. by apply print_range_no_colon.
Qed.

Lemma print_condition_clause (e : condition) (l : chars) :
  Forall numeric_ok e → clause "|" l → clause "|" (print_condition e ++ l).
Proof.
  induction 1 as [|x e Hx He IH]; intros Hl; [done|].
  destruct (decide (e = [])) as [->|Hne].
  - by apply print_numeric_clause.
  - rewrite print_condition_cons by done. rewrite <- app_assoc.
    apply print_numeric_clause; [done|]. simpl.
    apply clause_char; [done..|]. by apply IH.
Qed.

Lemma print_condition_no_colon (e : condition) :
  Forall numeric_ok e → Forall (fun c => c ≠ ":") (print_condition e).
Proof.
  induction 1 as [|x e Hx He IH]; [done|].
  destruct (decide (e = [])) as [->|Hne].
  - by apply print_numeric_no_colon.
  - rewrite print_condition_cons by done.
    apply Forall_app. split; [by apply print_numeric_no_colon|].
    by apply Forall_cons.
Qed.

Lemma print_alternative_clause (a : alternative) :
  alternative_ok a → clause "|" (print_alternative a).
Proof.
  intros [He Hf]. unfold print_alternative.
  apply print_condition_clause; [done|]. by apply clause_char.
Qed.

Lemma expression_end_colon (s : chars) rest (k : nat) :
  Forall (fun c => c ≠ ":") s → (length s ≤ k)%nat →
  expression_end (s ++ ":" :: rest) k = Some (length s).
Proof.
  intros Hs. revert k. induction Hs as [|x s Hx Hs IH]; intros k Hk; [done|].
  simpl. destruct (Ascii.eqb_spec x ":") as [?|_]; [done|].
  destruct k as [|k]; [simpl in Hk; lia|].
  rewrite IH by (simpl in Hk; lia). done.
Qed.

Lemma ScanFormat_from_prefix pt D (l1 l2 : chars) T :
  (ScanFormat_from pt D l1 T < length l1)%nat →
  ScanFormat_from pt D (l1 ++ l2) T = ScanFormat_from pt D l1 T.
Proof.
  revert pt D. induction l1 as [|x l1 IH]; intros pt D; simpl; [lia|].
  destruct pt; repeat case_match; try done; intros Hlt; f_equal; apply IH; lia.
Qed.

Lemma ScanFormat_truncated (a : chars) :
  clause "|" a → N.of_nat (length a) < UINT_RANGE →
  ScanFormat (take (length a - 1) a) "|" = (length a - 1)%nat.
Proof.
  intros Ha Hfit.
  pose proof (ScanFormat_from_bound LoopHead 0 (take (length a - 1) a) "|") as Hb.
  rewrite length_take in Hb.
  destruct (decide (ScanFormat (take (length a - 1) a) "|" < length a - 1)%nat)
    as [Hlt|Hge]; [|unfold ScanFormat in *; lia].
  exfalso.
  pose proof (ScanFormat_end a Ha Hfit) as Hend.
  rewrite <- (take_drop (length a - 1) a) in Hend at 1.
  unfold ScanFormat in *.
  rewrite ScanFormat_from_prefix in Hend by (rewrite length_take; lia).
  lia.
Qed.

Lemma drop_separator {A} (a : list A) (x : A) (b : list A) :
  drop (S (length a)) (a ++ x :: b) = b.
Proof. induction a as [|y a IH]; [done|]. simpl. apply IH. Qed.

Lemma join_alternatives_length (a : alternative) (alts : list alternative) :
  alts ≠ [] → (0 < length (join (print_alternative <$> alts)))%nat.
Proof.
  destruct alts as [|b alts]; [done|]. intros _.
  assert (0 < length (print_alternative b))%nat as Hb.
  { unfold print_alternative. rewrite length_app. simpl. lia. }
  destruct alts as [|b' alts]; simpl in *; [done|].
  rewrite length_app. lia.
Qed.

Lemma HandlePluralModifier_loop_print
    (FormatDiagnostic : chars → chars → option chars) v (post OutStr : chars)
    (alts : list alternative) (rounds : nat) :
  Forall alternative_ok alts →
  N.of_nat (length (join (print_alternative <$> alts))) < UINT_RANGE →
  (length alts < rounds)%nat →
  HandlePluralModifier_loop rounds FormatDiagnostic v
    (join (print_alternative <$> alts) ++ post)
    (length (join (print_alternative <$> alts))) OutStr =
  Ended match first_form alts v with
        | Some f => FormatDiagnostic f OutStr
        | None => None
        end.
Proof.
  intros Hall. revert rounds.
  induction Hall as [|a alts Ha Hall IH]; intros rounds Hfit Hr.
  - destruct rounds as [|rounds]; [simpl in Hr; lia|]. done.
  - destruct rounds as [|rounds]; [simpl in Hr; lia|].
    pose proof (print_alternative_clause a Ha) as Hpa.
    destruct Ha as [He Hf]. destruct a as [e f]. simpl in He, Hf.
    assert (Hpc : Forall (fun c => c ≠ ":") (print_condition e))
      by (by apply print_condition_no_colon).
    (* the text after this alternative *)
    assert (∃ T, join (print_alternative <$> ((e, f) : alternative) :: alts)
                 = ((print_condition e) ++ ":" :: f) ++ T ∧
                 (alts = [] → T = []) ∧
                 (alts ≠ [] → T = "|" :: join (print_alternative <$> alts)))
      as (T & HJ & HT0 & HT1).
    { destruct alts as [|b alts].
      - exists []. simpl. by rewrite app_nil_r.
      - exists ("|" :: join (print_alternative <$> b :: alts)).
        rewrite fmap_cons. by rewrite join_cons. }
    rewrite HJ in Hfit |- *. clear HJ.
    assert (HLen : length (((print_condition e) ++ ":" :: f) ++ T) =
                   (length (print_condition e) + S (length f + length T))%nat).
    { rewrite !length_app. simpl. lia. }
    rewrite HLen in Hfit |- *.
    replace ((((print_condition e) ++ ":" :: f) ++ T) ++ post)
      with ((print_condition e) ++ ":" :: (f ++ T ++ post))
      by (rewrite <- ?app_assoc; simpl; by rewrite <- ?app_assoc).
    cbn [HandlePluralModifier_loop first_form fst snd].
    destruct (Nat.eqb_spec (length (print_condition e) + S (length f + length T))%nat 0) as [?|_]; [lia|].
    rewrite expression_end_colon by (done || lia).
    rewrite EvalPluralExpr_print by done.
    destruct (holds e v) as [[|]|]; [| |done].
    + (* this alternative applies *)
      destruct (Nat.ltb_spec (length (print_condition e)) (length (print_condition e) + S (length f + length T))%nat) as [_|?]; [|lia].
      rewrite drop_separator.
      replace (take ((length (print_condition e) + S (length f + length T))%nat - S (length (print_condition e))) (f ++ T ++ post)) with (f ++ T).
      2:{ rewrite app_assoc. rewrite take_app_length'; [done|].
          rewrite length_app. lia. }
      assert (Hscan : ScanFormat (f ++ T) "|" = length f).
      { assert (N.of_nat (length (f ++ T)) < UINT_RANGE).
        { rewrite length_app. lia. }
        destruct (decide (alts = [])) as [Hnil|Hne].
        - rewrite (HT0 Hnil), app_nil_r in *. by apply ScanFormat_end.
        - rewrite (HT1 Hne) in *. by apply ScanFormat_separator. }
      rewrite Hscan. by rewrite take_app_length.
    + (* it does not: on to the next one *)
      replace (take ((length (print_condition e) + S (length f + length T))%nat - 1) ((print_condition e) ++ ":" :: f ++ T ++ post))
        with (take ((length (print_condition e) + S (length f + length T))%nat - 1) (((print_condition e) ++ ":" :: f) ++ T)).
      2:{ replace ((print_condition e) ++ ":" :: f ++ T ++ post)
            with ((((print_condition e) ++ ":" :: f) ++ T) ++ post)
            by (rewrite <- ?app_assoc; simpl; by rewrite <- ?app_assoc).
          rewrite (take_app_le _ post) by (rewrite HLen; lia). done. }
      destruct (decide (alts = [])) as [Hnil|Hne].
      * rewrite (HT0 Hnil) in *. subst alts. rewrite app_nil_r in *.
        simpl length in *.
        replace (length (print_condition e) + S (length f + 0) - 1)%nat
          with (length (print_condition e ++ ":" :: f) - 1)%nat
          by (rewrite length_app; simpl; lia).
        rewrite ScanFormat_truncated by (done || lia).
        replace (S (length (print_condition e ++ ":" :: f) - 1))
          with (length (print_condition e) + S (length f + 0))%nat
          by (rewrite length_app; simpl; lia).
        rewrite Nat.sub_diag.
        destruct rounds as [|rounds]; [simpl in Hr; lia|]. done.
      * rewrite (HT1 Hne) in *.
        pose proof (join_alternatives_length (e, f) alts Hne) as HJpos.
        set (J := join (print_alternative <$> alts)) in *.
        cbn [length] in *.
        replace (take ((length (print_condition e) + S (length f + S (length J)))%nat - 1) (((print_condition e) ++ ":" :: f) ++ "|" :: J))
          with (((print_condition e) ++ ":" :: f) ++ "|" :: take (length J - 1) J).
        2:{ rewrite take_app_ge by (rewrite length_app; simpl; lia).
            f_equal.
            replace ((length (print_condition e) + S (length f + S (length J)))%nat - 1 - length ((print_condition e) ++ ":" :: f))%nat
              with (S (length J - 1))
              by (rewrite length_app; simpl; lia).
            done. }
        rewrite ScanFormat_separator.
        2:{ done. }
        2:{ rewrite ?length_app. simpl. rewrite ?length_app, ?length_take.
            simpl. lia. }
        replace ((print_condition e) ++ ":" :: f ++ ("|" :: J) ++ post)
          with (((print_condition e) ++ ":" :: f) ++ "|" :: (J ++ post))
          by (rewrite <- ?app_assoc; simpl; by rewrite <- ?app_assoc).
        rewrite drop_separator.
        replace ((length (print_condition e) + S (length f + S (length J)))%nat - S (length ((print_condition e) ++ ":" :: f)))%nat
          with (length J)
          by (rewrite length_app; simpl; lia).
        apply IH; [lia|simpl in Hr; lia].
Qed.

Lemma PluralNumber_from_suffix v Start d v' Start' d' :
  PluralNumber_from v Start d = Some (v', (Start', d')) →
  (length Start' ≤ length Start)%nat.
Proof.
  revert v d. induction Start as [|x Start IH]; intros v d; simpl.
  - destruct (d =? 0)%Z; [|done]. by intros [= _ <- _].
  - destruct (d =? 0)%Z; [by intros [= _ <- _]|].
    destruct (isDigit x); [|by intros [= _ <- _]].
    intros H%IH. lia.
Qed.

Lemma TestPluralRange_suffix v Start d b Start' d' :
  TestPluralRange v Start d = Some (b, (Start', d')) →
  (length Start' ≤ length Start)%nat.
Proof.
  unfold TestPluralRange, PluralNumber. destruct Start as [|x Start]; [done|].
  destruct (negb (Ascii.eqb x "[")).
  - destruct (PluralNumber_from 0 (x :: Start) d) as [[Ref [S1 d1]]|] eqn:H1;
      [|done].
    apply PluralNumber_from_suffix in H1. by intros [= _ <- _].
  - destruct (PluralNumber_from 0 Start (d - 1)) as [[Low [S1 d1]]|] eqn:H1;
      [|done].
    apply PluralNumber_from_suffix in H1.
    destruct S1 as [|y S2]; [done|].
    destruct (Ascii.eqb_spec y ",") as [->|Hy].
    2:{ destruct y as [[] [] [] [] [] [] [] []]; done. }
    destruct (PluralNumber_from 0 S2 (d1 - 1)) as [[High [S3 d3]]|] eqn:H2;
      [|done].
    apply PluralNumber_from_suffix in H2.
    destruct S3 as [|z S4]; [done|].
    destruct (Ascii.eqb_spec z "]") as [->|Hz].
    2:{ destruct z as [[] [] [] [] [] [] [] []]; done. }
    intros [= _ <- _]. simpl in *. lia.
Qed.

Lemma find_suffix Start d c Start' d' :
  find Start d c = Some (Start', d') →
  (length Start' ≤ length Start)%nat ∧
  (d' ≠ 0%Z → (0 < length Start')%nat).
Proof.
  revert d. induction Start as [|x Start IH]; intros d; simpl.
  - destruct (Z.eqb_spec d 0); [|done]. intros [= <- <-]. done.
  - destruct (Z.eqb_spec d 0); [intros [= <- <-]; done|].
    destruct (Ascii.eqb x c); [intros [= <- <-]; simpl; split; lia|].
    intros [H1 H2]%IH. split; [lia|done].
Qed.

Lemma EvalPluralExpr_test_suffix v Start d b Start' d' :
  EvalPluralExpr_test v Start d = Some (b, (Start', d')) →
  (length Start' ≤ length Start)%nat.
Proof.
  unfold EvalPluralExpr_test, PluralNumber. destruct Start as [|x Start]; [done|].
  destruct (Ascii.eqb x "%").
  - destruct (PluralNumber_from 0 Start (d - 1)) as [[Arg [S1 d1]]|] eqn:H1;
      [|done].
    apply PluralNumber_from_suffix in H1.
    destruct S1 as [|y S2]; [done|].
    destruct (Ascii.eqb_spec y "=") as [->|Hy].
    2:{ destruct y as [[] [] [] [] [] [] [] []]; done. }
    destruct (Arg =? 0); [done|].
    intros H%TestPluralRange_suffix. simpl in *. lia.
  - destruct (Ascii.eqb x "[" || isDigit x); [|done].
    apply TestPluralRange_suffix.
Qed.

Lemma EvalPluralExpr_loop_ends rounds v Start d :
  (length Start < rounds)%nat →
  ∃ r, EvalPluralExpr_loop rounds v Start d = Ended r.
Proof.
  revert Start d. induction rounds as [|rounds IH]; intros Start d Hr; [lia|].
  simpl.
  destruct (EvalPluralExpr_test v Start d) as [[[|] [S3 d3]]|] eqn:Ht;
    [by eexists| |by eexists].
  apply EvalPluralExpr_test_suffix in Ht.
  destruct (find S3 d3 ",") as [[S4 d4]|] eqn:Hf; [|by eexists].
  apply find_suffix in Hf as [Hf1 Hf2].
  destruct (Z.eqb_spec d4 0) as [|Hd4]; [by eexists|].
  specialize (Hf2 Hd4).
  assert (length (tail S4) < length S4)%nat
    by (destruct S4; simpl in *; lia).
  apply IH. lia.
Qed.

Lemma EvalPluralExpr_loop_more r1 r2 v Start d r :
  EvalPluralExpr_loop r1 v Start d = Ended r → (r1 ≤ r2)%nat →
  EvalPluralExpr_loop r2 v Start d = Ended r.
Proof.
  revert r2 Start d. induction r1 as [|r1 IH]; intros r2 Start d; [done|].
  destruct r2 as [|r2]; [lia|]. simpl.
  destruct (EvalPluralExpr_test v Start d) as [[[|] [S3 d3]]|]; [done| |done].
  destruct (find S3 d3 ",") as [[S4 d4]|]; [|done].
  destruct (d4 =? 0)%Z; [done|].
  intros H ?. apply IH; [done|lia].
Qed.

Lemma HandlePluralModifier_loop_ends rounds
    (FormatDiagnostic : chars → chars → option chars) v (Argument : chars)
    (Len : nat) (OutStr : chars) :
  (Len < rounds)%nat →
  ∃ r, HandlePluralModifier_loop rounds FormatDiagnostic v Argument Len OutStr
       = Ended r.
Proof.
  revert Argument Len. induction rounds as [|rounds IH]; intros Argument Len Hr;
    [lia|].
  simpl. destruct (Nat.eqb_spec Len 0) as [|HLen]; [by eexists|].
  destruct (expression_end Argument Len) as [k|]; [|by eexists].
  destruct (EvalPluralExpr v Argument (Z.of_nat k)) as [[|]|]; [| |by eexists].
  - destruct (k <? Len)%nat; by eexists.
  - apply IH. lia.
Qed.

Lemma HandlePluralModifier_loop_more r1 r2
    (FormatDiagnostic : chars → chars → option chars) v (Argument : chars)
    (Len : nat) (OutStr : chars) r :
  HandlePluralModifier_loop r1 FormatDiagnostic v Argument Len OutStr = Ended r →
  (r1 ≤ r2)%nat →
  HandlePluralModifier_loop r2 FormatDiagnostic v Argument Len OutStr = Ended r.
Proof.
  revert r2 Argument Len. induction r1 as [|r1 IH]; intros r2 Argument Len;
    [done|].
  destruct r2 as [|r2]; [lia|]. simpl.
  destruct (Len =? 0)%nat; [done|].
  destruct (expression_end Argument Len) as [k|]; [|done].
  destruct (EvalPluralExpr v Argument (Z.of_nat k)) as [[|]|]; [done| |done].
  intros H ?. apply IH; [done|lia].
Qed.

Lemma join_alternatives_rounds (alts : list alternative) :
  (length alts ≤ length (join (print_alternative <$> alts)))%nat.
Proof.
  induction alts as [|a alts IH]; [done|].
  assert (0 < length (print_alternative a))%nat as Ha.
  { unfold print_alternative. rewrite length_app. simpl. lia. }
  destruct alts as [|b alts]; [simpl; lia|].
  rewrite fmap_cons, join_cons by done. rewrite length_app.
  cbn [length] in *. lia.
Qed.

(** X22.  [PluralNumber] reads a decimal number: on digits that are
    followed, before [End] or at it, by a character that is no digit, it
    returns the number the digits denote, reduced to an [unsigned], and
    leaves [Start] at that character. *)
Theorem plural_number_value n c rest d :
  Forall (fun c => isDigit c = true) n → isDigit c = false →
  (Z.of_nat (length n) ≤ d)%Z →
  PluralNumber (n ++ c :: rest) d =
  Some (value n mod UINT_RANGE, (c :: rest, (d - Z.of_nat (length n))%Z)).
Proof. apply PluralNumber_print. Qed.

(** X23.  [EvalPluralExpr] decides the conditions of the documented
    grammar: on the text of a condition, with [End] at the colon that
    follows it, it returns true for the empty condition and otherwise the
    logical or of the numerics, a number matching the value itself, an
    interval matching inclusively at both ends, and a modulo expression
    testing the remainder; a modulus of zero that is reached has no
    result. *)
Theorem eval_plural_expr_decides (e : condition) v rest :
  Forall numeric_ok e →
  EvalPluralExpr v (print_condition e ++ ":" :: rest)
    (Z.of_nat (length (print_condition e))) =
  holds e v.
Proof. apply EvalPluralExpr_print. Qed.

(** X24.  [HandlePluralModifier] formats the form of the first condition
    that applies: on an argument of alternatives [cond:form] joined by bars
    it hands to [FormatDiagnostic] the form of the first alternative whose
    condition holds for the value, all of it and nothing else; when no
    condition holds the assertion that the plural expression matched fails,
    and a remainder by zero met on the way has no result either. *)
Theorem plural_formats_first_match
    (FormatDiagnostic : chars → chars → option chars) v (post OutStr : chars)
    (alts : list alternative) :
  Forall alternative_ok alts →
  N.of_nat (length (join (print_alternative <$> alts))) < UINT_RANGE →
  HandlePluralModifier FormatDiagnostic v
    (join (print_alternative <$> alts) ++ post)
    (N.of_nat (length (join (print_alternative <$> alts)))) OutStr =
  match first_form alts v with
  | Some f => FormatDiagnostic f OutStr
  | None => None
  end.
Proof.
  intros Hall Hfit. unfold HandlePluralModifier. rewrite Nat2N.id.
  destruct (Nat.ltb_spec
              (length (join (print_alternative <$> alts) ++ post))
              (length (join (print_alternative <$> alts)))) as [Hlt|_].
  { rewrite length_app in Hlt. lia. }
  rewrite HandlePluralModifier_loop_print; [done..|].
  pose proof (join_alternatives_rounds alts). lia.
Qed.

(** X25.  The loops of the plural modifier come to an end on every input,
    well formed or not: each round of [EvalPluralExpr] that goes on has
    moved [Start] past a comma, and each round of [HandlePluralModifier]
    that goes on has moved [Argument] forward below [ArgumentEnd].  So the
    first loop has ended after as many rounds as there are characters from
    [Start] to the end of the buffer, and one, and the second after as many
    as there are from [Argument] to [ArgumentEnd], and one: by then each has
    returned, or has stopped at a failed assertion or at a read or a
    remainder that is not defined, and what it has come to is the same
    however many rounds more it is allowed. *)
Theorem plural_loops_end
    (FormatDiagnostic : chars → chars → option chars) v (Start : chars) d
    (Len : nat) (OutStr : chars) :
  (∃ r, ∀ more,
     EvalPluralExpr_loop (S (length Start) + more) v Start d = Ended r) ∧
  (∃ r, ∀ more,
     HandlePluralModifier_loop (S Len + more) FormatDiagnostic v Start Len
       OutStr = Ended r).
Proof.
  split.
  - destruct (EvalPluralExpr_loop_ends (S (length Start)) v Start d) as [r Hr];
      [lia|].
    exists r. intros more.
    apply (EvalPluralExpr_loop_more (S (length Start))); [done|lia].
  - destruct (HandlePluralModifier_loop_ends (S Len) FormatDiagnostic v Start
                Len OutStr) as [r Hr]; [lia|].
    exists r. intros more.
    apply (HandlePluralModifier_loop_more (S Len)); [done|lia].
Qed.

End Plurals.

(** The number 120 before a comma. *)
Lemma plural_number_value_witness :
  Plural.PluralNumber (String.list_ascii_of_string "120,3]"%string) 6 =
  Some (120, (String.list_ascii_of_string ",3]"%string, 3%Z)).
Proof.
  apply (plural_number_value (String.list_ascii_of_string "120"%string)
           ","%char (String.list_ascii_of_string "3]"%string) 6).
  - repeat constructor.
  - reflexivity.
  - simpl. lia.
Defined.

(** The second Latvian condition, [%100=11,%10=0,%10=[2,9]], for 25. *)
Lemma eval_plural_expr_decides_witness :
  let digits := String.list_ascii_of_string in
  let e := [Plural.Modulo (digits "100") (Plural.Number (digits "11"));
            Plural.Modulo (digits "10") (Plural.Number (digits "0"));
            Plural.Modulo (digits "10")
              (Plural.Interval (digits "2") (digits "9"))] in
  Plural.EvalPluralExpr 25
    (Plural.print_condition e ++ ":"%char :: digits "form1")
    (Z.of_nat (length (Plural.print_condition e))) =
  Plural.holds e 25.
Proof.
  intros digits e.
  apply (eval_plural_expr_decides e 25 (digits "form1"%string)).
  repeat constructor; discriminate.
Defined.

(** The Slovak argument [1:form0|[2,4]:form1|:form2], closed by a brace. *)
Lemma plural_formats_first_match_witness :
  let digits := String.list_ascii_of_string in
  let alts : list Plural.alternative :=
    [([Plural.InRange (Plural.Number (digits "1"))], digits "form0");
     ([Plural.InRange (Plural.Interval (digits "2") (digits "4"))],
      digits "form1");
     ([], digits "form2")] in
  let text := Diag.join (Plural.print_alternative <$> alts) in
  Plural.HandlePluralModifier (fun a out => Some (out ++ a)) 3
    (text ++ digits "}") (N.of_nat (length text)) [] =
  match Plural.first_form alts 3 with
  | Some f => Some ([] ++ f)
  | None => None
  end.
Proof.
  intros digits alts text.
  apply (plural_formats_first_match (fun a out => Some (out ++ a)) 3
           (digits "}"%string) [] alts).
  - repeat constructor; discriminate.
  - vm_compute. reflexivity.
Defined.

(** ** Kind selectors *)

Section KindSelectors.
Import Sema Steps.
Local Open Scope string_scope.
Local Open Scope list_scope.
Local Open Scope stdpp_scope.

Implicit Types (st : Sema) (n : IdentifierInfo) (c : DeclPtr).

(** X26.  A kind selector declares its name unchecked, and the name is then
    taken: with a current context [ActOnKindSelector] always creates a
    variable without a type, lists it in the context and binds the name to
    it, without a diagnostic, whether or not the name was declared in that
    context before; an entity declaration of the name that follows is
    rejected with the error and the note at the kind selector, while a
    further kind selector is accepted again. *)
Theorem kind_selector_takes_name st L1 n c :
  CurContext st = Some c →
  ∃ st1,
    ActOnKindSelector L1 n st = Some (length (Decls st), st1) ∧
    Decls st1 = Decls st ++ [VarDecl (Some c) L1 n NullTy] ∧
    decls_of st1 c = decls_of st c ++ [length (Decls st)] ∧
    lookup st1 n = Some (length (Decls st)) ∧
    Diags st1 = Diags st ∧
    (∀ DS L2,
       ActOnEntityDecl DS L2 n st1 =
       Some (None, with_diags st1
                     (clash_diags L2 n "declared" L1 "previous declaration"))) ∧
    (∀ L2, ∃ st2,
       ActOnKindSelector L2 n st1 = Some (S (length (Decls st)), st2) ∧
       lookup st2 n = Some (S (length (Decls st))) ∧ Diags st2 = Diags st).
Proof.
  intros Hc. exists (declared st c (VarDecl (Some c) L1 n NullTy) n).
  set (st1 := declared st c _ n).
  assert (Htok : FETokenInfo st1 !! n = (Some (length (Decls st)) : option DeclPtr)).
  { simpl. apply lookup_insert_eq. }
  assert (HP : Decls st1 !! (length (Decls st) : DeclPtr) =
               Some (VarDecl (Some c) L1 n NullTy)).
  { apply declared_node. }
  split_and!.
  - rewrite ActOnKindSelector_eq. by rewrite Hc.
  - done.
  - unfold decls_of at 1. simpl. by rewrite lookup_insert_eq.
  - done.
  - done.
  - intros DS L2. rewrite ActOnEntityDecl_eq. cbv zeta. rewrite Htok, HP.
    simpl. by rewrite Hc, bool_decide_eq_true_2.
  - intros L2. exists (declared st1 c (VarDecl (Some c) L2 n NullTy) n).
    assert (Hlen : length (Decls st1) = S (length (Decls st))).
    { simpl. rewrite length_app. simpl. lia. }
    rewrite ActOnKindSelector_eq.
    change (CurContext st1) with (CurContext st). rewrite Hc.
    split_and!; [by rewrite Hlen| |done].
    unfold lookup. simpl FETokenInfo. rewrite lookup_insert_eq.
    by rewrite <- Hlen.
Qed.

Lemma kind_selector_takes_name_witness :
  let st := after (in_program ++ [EntityDecl DS_integer 2 "K"]) in
  ∃ st1,
    ActOnKindSelector 3 "K" st = Some (length (Decls st), st1) ∧
    Decls st1 = Decls st ++ [VarDecl (Some 1%nat) 3 "K" NullTy] ∧
    decls_of st1 1%nat = decls_of st 1%nat ++ [length (Decls st)] ∧
    lookup st1 "K" = Some (length (Decls st)) ∧
    Diags st1 = Diags st ∧
    (∀ DS L2,
       ActOnEntityDecl DS L2 "K" st1 =
       Some (None, with_diags st1
                     (clash_diags L2 "K" "declared" 3 "previous declaration"))) ∧
    (∀ L2, ∃ st2,
       ActOnKindSelector L2 "K" st1 = Some (S (length (Decls st)), st2) ∧
       lookup st2 "K" = Some (S (length (Decls st))) ∧ Diags st2 = Diags st).
Proof.
  intros st. apply (kind_selector_takes_name st 3 "K" 1%nat).
  vm_compute. reflexivity.
Defined.

End KindSelectors.
